(** * Incremental tree-sitter parsing service

A shallow embedding of
[src/vs/editor/common/services/treeSitter/treeSitterParserService.ts]:
the changed-node diff of [TreeSitterParseResult], its serial reparse
queue, the grammar catalog [TreeSitterLanguages] and the [AsyncCache]
underneath it. *)

From Stdlib Require Import ZArith Lia Bool.
From stdpp Require Import gmap strings list fin_maps sorting pretty.

Open Scope Z_scope.

(** ** JavaScript completions and promises *)

Module Js.

(** Values thrown by the code under study. *)
Inductive Error :=
| TypeError (msg : string)
| Err (msg : string)
| Rejection (tag : Z).

(** The completion of a synchronous computation: a value or a throw. *)
Inductive Completion (A : Type) :=
| Normal (a : A)
| Throw (e : Error).
Arguments Normal {A} a.
Arguments Throw {A} e.

Definition bind {A B} (c : Completion A) (k : A -> Completion B) : Completion B :=
  match c with
  | Normal a => k a
  | Throw e => Throw e
  end.

(** The state of a promise as the event loop sees it. *)
Inductive PromiseState (A : Type) :=
| Pending
| Fulfilled (v : A)
| Rejected (e : Error).
Arguments Pending {A}.
Arguments Fulfilled {A} v.
Arguments Rejected {A} e.

(** [o?.f]: optional chaining yields [undefined] on an [undefined] receiver. *)
Definition optChain {A B} (o : option A) (f : A -> Completion (option B))
  : Completion (option B) :=
  match o with
  | Some a => f a
  | None => Normal None
  end.

(** [o.f]: a plain member access throws on an [undefined] receiver. *)
Definition member {A B} (o : option A) (f : A -> Completion B) : Completion B :=
  match o with
  | Some a => f a
  | None => Throw (TypeError "Cannot read properties of undefined")
  end.

(** [T | undefined] where [T] itself may be [undefined]. *)
Definition flatten {A} (o : option (option A)) : option A :=
  match o with
  | Some a => a
  | None => None
  end.

(** Truthiness of a possibly-[undefined] object reference. *)
Definition truthy {A} (o : option A) : bool :=
  match o with
  | Some _ => true
  | None => false
  end.

End Js.
Import Js.

#[global] Instance Completion_ret : MRet Completion := @Normal.
#[global] Instance Completion_bind : MBind Completion := fun A B k c => Js.bind c k.

(** ** Syntax trees and tree cursors (the part of the tree-sitter API the
    service uses) *)

Record Point := mkPoint { row : Z; column : Z }.

#[local] Unset Elimination Schemes.
Inductive SyntaxNode := mkNode {
  id : Z;
  hasChanges : bool;
  startPosition : Point;
  endPosition : Point;
  startIndex : Z;
  endIndex : Z;
  children : list SyntaxNode
}.
#[local] Set Elimination Schemes.

Record Tree := mkTree { rootNode : SyntaxNode }.

Definition childCount (n : SyntaxNode) : nat := length (children n).

(** One level of a cursor's ancestor stack: the siblings to the left of the
    current node (nearest first), the parent node, the siblings to the
    right. *)
Record Frame := mkFrame {
  lefts : list SyntaxNode;
  parentNode : SyntaxNode;
  rights : list SyntaxNode
}.

Record TreeCursor := mkCursor {
  currentNode : SyntaxNode;
  path : list Frame
}.

(** [tree.walk()] *)
Definition walk (t : Tree) : TreeCursor :=
  {| currentNode := rootNode t; path := [] |}.

(** [cursor.currentNode.nextSibling] *)
Definition nextSibling (c : TreeCursor) : option SyntaxNode :=
  match path c with
  | f :: _ => head (rights f)
  | [] => None
  end.

(** [cursor.currentNode.parent] *)
Definition parent (c : TreeCursor) : option SyntaxNode :=
  match path c with
  | f :: _ => Some (parentNode f)
  | [] => None
  end.

Module TreeCursor.

Definition gotoFirstChild (c : TreeCursor) : bool * TreeCursor :=
  match children (currentNode c) with
  | k :: ks =>
      (true, {| currentNode := k;
                path := {| lefts := []; parentNode := currentNode c; rights := ks |}
                        :: path c |})
  | [] => (false, c)
  end.

Definition gotoNextSibling (c : TreeCursor) : bool * TreeCursor :=
  match path c with
  | f :: up =>
      match rights f with
      | r :: rs =>
          (true, {| currentNode := r;
                    path := {| lefts := currentNode c :: lefts f;
                               parentNode := parentNode f;
                               rights := rs |} :: up |})
      | [] => (false, c)
      end
  | [] => (false, c)
  end.

Definition gotoParent (c : TreeCursor) : bool * TreeCursor :=
  match path c with
  | f :: up => (true, {| currentNode := parentNode f; path := up |})
  | [] => (false, c)
  end.

End TreeCursor.

(** ** [TreeSitterParseResult.findChangedNodes] *)

Definition ChangedNode : Type := SyntaxNode * SyntaxNode.

(** The variables the closures of [findChangedNodes] share. *)
Record Walk := mkWalk {
  newCursor : TreeCursor;
  oldCursor : TreeCursor;
  changedNodes : list ChangedNode
}.

Definition outOfSync : Error := Err "Trees are out of sync".

Definition lockstep (move : TreeCursor -> bool * TreeCursor) (w : Walk)
  : Completion (bool * Walk) :=
  let '(n, nc) := move (newCursor w) in
  let '(o, oc) := move (oldCursor w) in
  if negb (Bool.eqb n o) then Throw outOfSync
  else Normal (n && o,
               {| newCursor := nc; oldCursor := oc; changedNodes := changedNodes w |}).

Definition gotoNextSibling : Walk -> Completion (bool * Walk) :=
  lockstep TreeCursor.gotoNextSibling.
Definition gotoParent : Walk -> Completion (bool * Walk) :=
  lockstep TreeCursor.gotoParent.
Definition gotoFirstChild : Walk -> Completion (bool * Walk) :=
  lockstep TreeCursor.gotoFirstChild.

(** The inner [do ... while] of the source; [None] when the fuel runs out. *)
Fixpoint nextSiblingOrParentSibling (fuel : nat) (w : Walk)
  : option (Completion (bool * Walk)) :=
  match fuel with
  | O => None
  | S fuel' =>
      if truthy (nextSibling (newCursor w)) then Some (gotoNextSibling w)
      else
        let step :=
          if truthy (parent (newCursor w)) then gotoParent w else Normal (false, w) in
        match step with
        | Throw e => Some (Throw e)
        | Normal (_, w') =>
            if truthy (nextSibling (newCursor w')) || truthy (parent (newCursor w'))
            then nextSiblingOrParentSibling fuel' w'
            else Some (Normal (false, w'))
        end
  end.

(** The outer [do ... while (next)]. *)
Fixpoint changedNodesLoop (rootId : Z) (fuel : nat) (w : Walk)
  : option (Completion Walk) :=
  match fuel with
  | O => None
  | S fuel' =>
      let cur := currentNode (newCursor w) in
      let canGoChild := (0 <? childCount cur)%nat in
      let '(w1, canGoChild) :=
        if hasChanges cur && negb (id cur =? rootId)
        then ({| newCursor := newCursor w; oldCursor := oldCursor w;
                 changedNodes := changedNodes w
                                   ++ [(cur, currentNode (oldCursor w))] |},
              false)
        else (w, canGoChild) in
      let moved :=
        if canGoChild then Some (gotoFirstChild w1)
        else nextSiblingOrParentSibling (S (length (path (newCursor w1)))) w1 in
      match moved with
      | None => None
      | Some (Throw e) => Some (Throw e)
      | Some (Normal (next, w2)) =>
          if next then changedNodesLoop rootId fuel' w2 else Some (Normal w2)
      end
  end.

Definition findChangedNodes (fuel : nat) (newTree oldTree : Tree)
  : option (Completion (list ChangedNode)) :=
  let w := {| newCursor := walk newTree; oldCursor := walk oldTree;
              changedNodes := [] |} in
  match changedNodesLoop (id (rootNode newTree)) fuel w with
  | None => None
  | Some (Throw e) => Some (Throw e)
  | Some (Normal w') => Some (Normal (changedNodes w'))
  end.

(** ** The diff as a structural recursion *)

Section PairUp.
Variable diff : SyntaxNode -> SyntaxNode -> Completion (list ChangedNode).

(** Children are compared position by position; a new-tree child without
    an old-tree partner is the desynchronisation fault. *)
Fixpoint pairUp (ns os : list SyntaxNode) : Completion (list ChangedNode) :=
  match ns with
  | [] => Normal []
  | n :: ns' =>
      match os with
      | [] => Throw outOfSync
      | o :: os' =>
          l ← diff n o; l' ← pairUp ns' os'; Normal (l ++ l')
      end
  end.
End PairUp.

(** The recursion that [findChangedNodes] unfolds to, with the root
    recognised by its id as the source does. *)
Fixpoint diffNode (rootId : Z) (n o : SyntaxNode) {struct n}
  : Completion (list ChangedNode) :=
  match n with
  | mkNode i h _ _ _ _ cs =>
      if h && negb (i =? rootId) then Normal [(n, o)]
      else pairUp (diffNode rootId) cs (children o)
  end.

(** The changed-node diff in the words of the specification: a node that
    carries the marker and is not the root is one change unit and is not
    descended into; any other node contributes what its children
    contribute. *)
Fixpoint changeUnits (isRoot : bool) (n o : SyntaxNode) {struct n}
  : Completion (list ChangedNode) :=
  match n with
  | mkNode _ h _ _ _ _ cs =>
      if h && negb isRoot then Normal [(n, o)]
      else pairUp (changeUnits false) cs (children o)
  end.

Section SizeList.
Variable sz : SyntaxNode -> nat.
Fixpoint sizeList (ns : list SyntaxNode) : nat :=
    match ns with
    | [] => O
    | n :: ns' => (sz n + sizeList ns')%nat
    end.
End SizeList.

(** Number of nodes of a subtree: the fuel the traversal needs. *)
Fixpoint size (n : SyntaxNode) : nat :=
  match n with
  | mkNode _ _ _ _ _ _ cs => S (sizeList size cs)
  end.

(** All nodes of a subtree, in document order. *)
Fixpoint nodes (n : SyntaxNode) : list SyntaxNode :=
  match n with
  | mkNode _ _ _ _ _ _ cs => n :: concat (map nodes cs)
  end.

(** Within one tree no two nodes share an id. *)
Definition uniqueIds (t : Tree) : Prop := NoDup (map id (nodes (rootNode t))).

(** Nodes still to be visited to the right of, and above, a cursor. *)
Fixpoint remaining (p : list Frame) : nat :=
  match p with
  | [] => O
  | f :: up => (sizeList size (rights f) + remaining up)%nat
  end.

(** What the traversal still records after leaving the current subtree. *)
Fixpoint restUnits (rootId : Z) (pn po : list Frame) : Completion (list ChangedNode) :=
  match pn with
  | [] => Normal []
  | f :: up =>
      match po with
      | [] => Throw outOfSync
      | fo :: upo =>
          l ← pairUp (diffNode rootId) (rights f) (rights fo);
          l' ← restUnits rootId up upo;
          Normal (l ++ l')
      end
  end.

Definition unitsOf (r : option (Completion Walk)) : option (Completion (list ChangedNode)) :=
  match r with
  | None => None
  | Some (Throw e) => Some (Throw e)
  | Some (Normal w) => Some (Normal (changedNodes w))
  end.

Definition loopBody (rootId : Z) (w : Walk) : Walk * bool :=
  let cur := currentNode (newCursor w) in
  if hasChanges cur && negb (id cur =? rootId)
  then ({| newCursor := newCursor w; oldCursor := oldCursor w;
           changedNodes := changedNodes w ++ [(cur, currentNode (oldCursor w))] |},
        false)
  else (w, (0 <? childCount cur)%nat).

Definition continueWith (rootId : Z) (fuel : nat)
    (moved : option (Completion (bool * Walk))) : option (Completion Walk) :=
  match moved with
  | None => None
  | Some (Throw e) => Some (Throw e)
  | Some (Normal (next, w2)) =>
      if next then changedNodesLoop rootId fuel w2 else Some (Normal w2)
  end.

Definition loopInvariant (rootId : Z) (fuel : nat) : Prop :=
  forall w,
    (size (currentNode (newCursor w)) + remaining (path (newCursor w)) <= fuel)%nat ->
    unitsOf (changedNodesLoop rootId fuel w) =
    Some (l ← diffNode rootId (currentNode (newCursor w)) (currentNode (oldCursor w));
          l' ← restUnits rootId (path (newCursor w)) (path (oldCursor w));
          Normal (changedNodes w ++ l ++ l')).

(** ** Positions of the recorded change units *)

(** The node reached from [n] by following child indices. *)
Fixpoint nodeAt (n : SyntaxNode) (p : list nat) : option SyntaxNode :=
  match p with
  | [] => Some n
  | i :: p' => c ← children n !! i; nodeAt c p'
  end.

(** The new node and the old node at one and the same position. *)
Definition unitAt (new old : SyntaxNode) (p : list nat) : option ChangedNode :=
  n ← nodeAt new p; o ← nodeAt old p; Some (n, o).

Section ChildPaths.
Variable f : SyntaxNode -> list (list nat).
Fixpoint childPaths (k : nat) (ns : list SyntaxNode) : list (list nat) :=
    match ns with
    | [] => []
    | n :: ns' => map (cons k) (f n) ++ childPaths (S k) ns'
    end.
End ChildPaths.

(** The positions at which the diff records a change unit, in document
    order. *)
Fixpoint unitPaths (isRoot : bool) (n : SyntaxNode) : list (list nat) :=
  match n with
  | mkNode _ h _ _ _ _ cs =>
      if h && negb isRoot then [[]]
      else childPaths (unitPaths false) 0 cs
  end.

(** A position is reported when its node carries the marker, is not the
    root, and no ancestor other than the root carries the marker (so the
    traversal reaches it). With [isRoot = false] the top node counts as an
    ordinary node. *)
Definition reported (isRoot : bool) (n : SyntaxNode) (p : list nat) : Prop :=
  (isRoot = true -> p <> []) /\
  (exists m, nodeAt n p = Some m /\ hasChanges m = true) /\
  (forall q m, (isRoot = true -> q <> []) -> q `prefix_of` p -> q <> p ->
               nodeAt n q = Some m -> hasChanges m = false).

(** ** [TreeSitterParseResult.calculateRangeChange] *)

(** Modelled from the spec: the host's [Range] ([core/range.js] is not among
    the sources), as the four 1-based row/column coordinates that the
    constructor is given. *)
Record Range := mkRange {
  startLineNumber : Z;
  startColumn : Z;
  endLineNumber : Z;
  endColumn : Z
}.

Record RangeChange := mkRangeChange {
  newRange : Range;
  oldRangeLength : Z
}.

Definition rangeChangeOf (node : ChangedNode) : RangeChange :=
  let newRange :=
    mkRange (row (startPosition (fst node)) + 1)
            (column (startPosition (fst node)) + 1)
            (row (endPosition (fst node)) + 1)
            (column (endPosition (fst node)) + 1) in
  let oldRangeLength := endIndex (snd node) - startIndex (snd node) in
  {| newRange := newRange; oldRangeLength := oldRangeLength |}.

Definition calculateRangeChange (changedNodes : option (list ChangedNode))
  : option (list RangeChange) :=
  match changedNodes with
  | None => None
  | Some nodes => Some (map rangeChangeOf nodes)
  end.

(** ** The host document, as far as the session reads it *)

Module Position.
Record t := mk { lineNumber : Z; column : Z }.
End Position.

Record IModelContentChange := mkChange {
  range : Range;
  rangeOffset : Z;
  rangeLength : Z;
  text : list Z  (* UTF-16 code units *)
}.

Record ITextModel := mkModel {
  getPositionAt : Z -> Position.t
}.

(** The argument of [Tree.edit]. *)
Module InputEdit.
Record t := mk {
    startIndex : Z;
    oldEndIndex : Z;
    newEndIndex : Z;
    startPosition : Point;
    oldEndPosition : Point;
    newEndPosition : Point
  }.
End InputEdit.

(** ** [TreeSitterParseResult]: edits, the reparse loop and the serial queue

    The session is a state machine over the events of the single-threaded
    event loop: a content change, a disposal of the session or of its
    model, and a resumption, in which the queued callback in progress runs
    from the [await] it is suspended at to its next [await] (or the oldest
    queued callback starts). What the parser returns in a pass and whether
    the telemetry sink throws are given with the resumption. The session
    is bound to one model, whose disposal flag is part of the state. *)

Module Session.

Inductive TelemetryParseType := Full | Incremental.

(** A callback chained on [_onDidChangeContentQueue]: the [resolve] of the
    promise handed to the caller (by call number) and the [changedNodes]
    it closes over. *)
Record Job := mkJob {
  call : nat;
  ranges : option (list RangeChange)
}.

(** The point at which the queued callback in progress is suspended. *)
Inductive Await :=
| AwaitTimeout (tree : option Tree) (passes : nat) (parseType : TelemetryParseType)
    (* [await new Promise(resolve => setTimeout0(resolve))] in [_parseAndYield] *)
| AwaitParse (r : Completion (option Tree))
    (* [await this._parse(model)] in [_parseAndUpdateTree] *)
| AwaitParseAndUpdateTree (r : Completion ())
    (* [await this._parseAndUpdateTree(model)] in the queued callback *).

Record Running := mkRunning {
  job : Job;
  at_ : Await
}.

Record State := mkState {
  _tree : option Tree;
  _isDisposed : bool;
  _newEdits : bool;
  modelDisposed : bool;              (* [model.isDisposed()] *)
  queue : list Job;                  (* callbacks not started yet, oldest first *)
  running : option Running;          (* the callback in progress *)
  promises : list (PromiseState (option (list RangeChange)));
                                     (* the promise returned by each call *)
  treeSets : list (option Tree);     (* assignments through the setter [tree] *)
  errorLog : list Error;             (* [_logService.error] *)
  telemetry : list (TelemetryParseType * nat)  (* [publicLog2]: type, passes *)
}.

(** A fresh session: no tree, [_newEdits = true], a settled queue. *)
Definition init : State :=
  {| _tree := None; _isDisposed := false; _newEdits := true;
     modelDisposed := false; queue := []; running := None; promises := [];
     treeSets := []; errorLog := []; telemetry := [] |}.

(** What the parser and the telemetry sink do during one resumption. *)
Inductive ParseOutcome := Returns (t : option Tree) | ParseThrows.
Record Turn := mkTurn {
  parse : ParseOutcome;
  telemetryFault : option Error
}.

Inductive Event :=
| OnDidChangeContent (model : ITextModel) (changes : list IModelContentChange)
| Dispose
| DisposeModel
| Resume (turn : Turn).

Definition with_tree (s : State) (t : option Tree) : State :=
  mkState t (_isDisposed s) (_newEdits s) (modelDisposed s) (queue s) (running s)
          (promises s) (treeSets s) (errorLog s) (telemetry s).
Definition with_newEdits (s : State) (b : bool) : State :=
  mkState (_tree s) (_isDisposed s) b (modelDisposed s) (queue s) (running s)
          (promises s) (treeSets s) (errorLog s) (telemetry s).
Definition with_running (s : State) (r : option Running) : State :=
  mkState (_tree s) (_isDisposed s) (_newEdits s) (modelDisposed s) (queue s) r
          (promises s) (treeSets s) (errorLog s) (telemetry s).
Definition with_queue (s : State) (q : list Job) : State :=
  mkState (_tree s) (_isDisposed s) (_newEdits s) (modelDisposed s) q (running s)
          (promises s) (treeSets s) (errorLog s) (telemetry s).
Definition with_promises (s : State) (ps : list (PromiseState (option (list RangeChange))))
  : State :=
  mkState (_tree s) (_isDisposed s) (_newEdits s) (modelDisposed s) (queue s) (running s)
          ps (treeSets s) (errorLog s) (telemetry s).

(** The setter [tree]: release the previous tree, install the new one. *)
Definition set_tree (s : State) (newTree : option Tree) : State :=
  mkState newTree (_isDisposed s) (_newEdits s) (modelDisposed s) (queue s) (running s)
          (promises s) (treeSets s ++ [newTree]) (errorLog s) (telemetry s).

Definition dispose (s : State) : State :=
  mkState (_tree s) true (_newEdits s) (modelDisposed s) (queue s) (running s)
          (promises s) (treeSets s) (errorLog s) (telemetry s).

Definition disposeModel (s : State) : State :=
  mkState (_tree s) (_isDisposed s) (_newEdits s) true (queue s) (running s)
          (promises s) (treeSets s) (errorLog s) (telemetry s).

Definition logError (s : State) (e : Error) : State :=
  mkState (_tree s) (_isDisposed s) (_newEdits s) (modelDisposed s) (queue s) (running s)
          (promises s) (treeSets s) (errorLog s ++ [e]) (telemetry s).

Definition sendParseTimeTelemetry (s : State) (parseType : TelemetryParseType)
    (passes : nat) : State :=
  mkState (_tree s) (_isDisposed s) (_newEdits s) (modelDisposed s) (queue s) (running s)
          (promises s) (treeSets s) (errorLog s) (telemetry s ++ [(parseType, passes)]).

Definition inputEdit (model : ITextModel) (change : IModelContentChange) : InputEdit.t :=
  let newEndOffset := rangeOffset change + Z.of_nat (length (text change)) in
  let newEndPosition := getPositionAt model newEndOffset in
  {| InputEdit.startIndex := rangeOffset change;
     InputEdit.oldEndIndex := rangeOffset change + rangeLength change;
     InputEdit.newEndIndex := rangeOffset change + Z.of_nat (length (text change));
     InputEdit.startPosition :=
       {| row := startLineNumber (range change) - 1;
          column := startColumn (range change) - 1 |};
     InputEdit.oldEndPosition :=
       {| row := endLineNumber (range change) - 1;
          column := endColumn (range change) - 1 |};
     InputEdit.newEndPosition :=
       {| row := Position.lineNumber newEndPosition - 1;
          column := Position.column newEndPosition - 1 |} |}.

Section WithTreeSitter.

(** [Tree.edit] of the tree-sitter library, which patches the spans
    of a tree and marks the nodes it touches. *)
Variable treeEdit : Tree -> InputEdit.t -> Tree.

Fixpoint _applyEdits (s : State) (model : ITextModel)
    (changes : list IModelContentChange) : State :=
  match changes with
  | [] => s
  | change :: rest =>
      let s1 := with_tree s (flip treeEdit (inputEdit model change) <$> _tree s) in
      _applyEdits (with_newEdits s1 true) model rest
  end.

(** [findChangedNodes] with the fuel its traversal needs. *)
Definition changedNodesOf (newTree oldTree : Tree) : Completion (list ChangedNode) :=
  default (Throw (Err "fuel")) (findChangedNodes (size (rootNode newTree)) newTree oldTree).

(** [onDidChangeContent] up to its [return]: the state after the edits
    and the [changedNodes] it computed, or the error it threw. *)
Definition changedRanges (s : State) (model : ITextModel)
    (changes : list IModelContentChange)
  : State * Completion (option (list RangeChange)) :=
  let oldTree := _tree s in
  let s1 := _applyEdits s model changes in
  match _tree s1, oldTree with
  | Some tree, Some oldTree =>
      (s1, nodes ← changedNodesOf tree oldTree;
           Normal (calculateRangeChange (Some nodes)))
  | _, _ => (s1, Normal None)
  end.

Definition onDidChangeContent (s : State) (model : ITextModel)
    (changes : list IModelContentChange) : State :=
  match changedRanges s model changes with
  | (s1, Throw e) => with_promises s1 (promises s1 ++ [Rejected e])
  | (s1, Normal changedNodes) =>
      let j := {| call := length (promises s1); ranges := changedNodes |} in
      with_promises (with_queue s1 (queue s1 ++ [j])) (promises s1 ++ [Pending])
  end.

(** One pass of the [do ... while] of [_parseAndYield], up to the
    [await] of the zero-delay timeout. *)
Definition parsePass (turn : Turn) (tree : option Tree) : option Tree :=
  match parse turn with
  | Returns t => t
  | ParseThrows => tree
  end.

(** The queued callback from its start to its first [await]. *)
Definition startJob (s : State) (turn : Turn) (j : Job) : State :=
  if _isDisposed s then with_running s None
  else
    let parseType := if truthy (_tree s) then Incremental else Full in
    let s1 := with_newEdits s false in
    with_running s1
      (Some {| job := j; at_ := AwaitTimeout (parsePass turn None) 1 parseType |}).

(** The callback in progress from one [await] to the next. *)
Definition resumeJob (s : State) (turn : Turn) (r : Running) : State :=
  match at_ r with
  | AwaitTimeout tree passes parseType =>
      if modelDisposed s || _isDisposed s
      then with_running s (Some {| job := job r; at_ := AwaitParse (Normal None) |})
      else if negb (truthy tree) && negb (_newEdits s)
      then with_running s
             (Some {| job := job r;
                      at_ := AwaitTimeout (parsePass turn tree) (S passes) parseType |})
      else
        match telemetryFault turn with
        | Some e =>
            with_running s (Some {| job := job r; at_ := AwaitParse (Throw e) |})
        | None =>
            with_running (sendParseTimeTelemetry s parseType passes)
              (Some {| job := job r; at_ := AwaitParse (Normal tree) |})
        end
  | AwaitParse (Normal tree) =>
      let s1 := if negb (_newEdits s) then set_tree s tree else s in
      with_running s1
        (Some {| job := job r; at_ := AwaitParseAndUpdateTree (Normal ()) |})
  | AwaitParse (Throw e) =>
      with_running s (Some {| job := job r; at_ := AwaitParseAndUpdateTree (Throw e) |})
  | AwaitParseAndUpdateTree (Normal _) =>
      with_running
        (with_promises s (<[call (job r) := Fulfilled (ranges (job r))]> (promises s)))
        None
  | AwaitParseAndUpdateTree (Throw e) =>
      with_running (logError s e) None
  end.

(** The event loop gives the session its turn: the callback in progress
    continues, or the oldest queued callback starts. *)
Definition resume (s : State) (turn : Turn) : State :=
  match running s with
  | Some r => resumeJob s turn r
  | None =>
      match queue s with
      | j :: q => startJob (with_queue s q) turn j
      | [] => s
      end
  end.

Definition step (s : State) (ev : Event) : State :=
  match ev with
  | OnDidChangeContent model changes => onDidChangeContent s model changes
  | Dispose => dispose s
  | DisposeModel => disposeModel s
  | Resume turn => resume s turn
  end.

Definition run (s : State) (evs : list Event) : State := foldl step s evs.

End WithTreeSitter.

End Session.

Section SessionInvariants.
Import Session.

(** The callbacks chained on the queue that have not finished: the one in
    progress, then the waiting ones in arrival order. *)
Definition inflight (s : State) : list Job :=
  match running s with
  | Some r => [job r]
  | None => []
  end ++ queue s.

(** Every unfinished callback owns a distinct, still pending promise. *)
Definition wf (s : State) : Prop :=
  NoDup (call <$> inflight s) /\
  forall j, j ∈ inflight s -> promises s !! call j = Some Pending.

(** The promise of call [c], whose callback closed over [r]: the callback
    is unfinished, or it is gone and the promise is pending or was resolved
    with [r]. *)
Definition tracked (c : nat) (r : option (list RangeChange)) (s : State) : Prop :=
  mkJob c r ∈ inflight s \/
  ((c ∉ call <$> inflight s) /\
   (promises s !! c = Some Pending \/ promises s !! c = Some (Fulfilled r))).

(** The promise of call [c] is pending and nothing is left that could
    settle it: its callback is gone, or waits behind a disposed session,
    or is unwinding an exception. *)
Definition abandoned (c : nat) (s : State) : Prop :=
  promises s !! c = Some Pending /\
  ((c ∉ call <$> inflight s) \/
   (_isDisposed s = true /\ c ∈ call <$> queue s) \/
   (exists j e, call j = c /\
      (running s = Some {| job := j; at_ := AwaitParse (Throw e) |} \/
       running s = Some {| job := j; at_ := AwaitParseAndUpdateTree (Throw e) |}))).

(** Events other than the session's own resumptions: what can arrive
    while the callback in progress is suspended. *)
Definition arrival (ev : Event) : bool :=
  match ev with
  | Resume _ => false
  | _ => true
  end.

(** A content change that carries at least one edit. *)
Definition appliesEdits (ev : Event) : bool :=
  match ev with
  | OnDidChangeContent _ (_ :: _) => true
  | _ => false
  end.

End SessionInvariants.

(** ** [PromiseWithSyncAccess] and [AsyncCache] *)

(** Modelled from the spec: [PromiseResult] ([base/common/observable.js] is
    not among the sources), as the pair of the success value and the error
    that its constructor is given and that [data] and [error] read back. *)
Record PromiseResult (T : Type) := mkPromiseResult {
  data : option T;
  error : option Error
}.
Arguments mkPromiseResult {T} data error.
Arguments data {T} p.
Arguments error {T} p.

Record PromiseWithSyncAccess (T : Type) := mkPromiseWithSyncAccess {
  promise : PromiseState T;
  _result : option (PromiseResult T)
}.
Arguments mkPromiseWithSyncAccess {T} promise _result.
Arguments promise {T} p.
Arguments _result {T} p.

Module PromiseWithSyncAccess.
Section Methods.
Context {T : Type}.

(** The constructor: [_result] starts out [undefined]. *)
Definition new (promise : PromiseState T) : PromiseWithSyncAccess T :=
  {| promise := promise; _result := None |}.

(** The wrapped promise settles; a settled promise keeps its state. *)
Definition settle (outcome : PromiseState T) (p : PromiseWithSyncAccess T)
  : PromiseWithSyncAccess T :=
  match promise p with
  | Pending => {| promise := outcome; _result := _result p |}
  | _ => p
  end.

(** The reactions the constructor registered run:
    [then(result => ... new PromiseResult(result, undefined))] and
    [catch(e => ... new PromiseResult(undefined, e))]. *)
Definition react (p : PromiseWithSyncAccess T) : PromiseWithSyncAccess T :=
  match promise p with
  | Pending => p
  | Fulfilled result =>
      {| promise := promise p; _result := Some (mkPromiseResult (Some result) None) |}
  | Rejected e =>
      {| promise := promise p; _result := Some (mkPromiseResult None (Some e)) |}
  end.

End Methods.
End PromiseWithSyncAccess.

Module AsyncCache.
Section Methods.
Context {TKey : Type} `{Countable TKey} {T : Type}.

Definition set (_values : gmap TKey (PromiseWithSyncAccess T)) (key : TKey)
    (promise : PromiseState T) : gmap TKey (PromiseWithSyncAccess T) :=
  <[key := PromiseWithSyncAccess.new promise]> _values.

Definition get (_values : gmap TKey (PromiseWithSyncAccess T)) (key : TKey)
  : Completion (option (PromiseState T)) :=
  optChain (_values !! key) (fun p => Normal (Some (promise p))).

Definition getSyncIfCached (_values : gmap TKey (PromiseWithSyncAccess T)) (key : TKey)
  : Completion (option T) :=
  optChain (_values !! key) (fun p =>
    optChain (_result p) (fun r => Normal (data r))).

Definition isCached (_values : gmap TKey (PromiseWithSyncAccess T)) (key : TKey)
  : Completion bool :=
  r ← optChain (_values !! key) (fun p => Normal (_result p));
  Normal (truthy r).

(** The promise stored under [key] settles, and its reactions run. *)
Definition settle (_values : gmap TKey (PromiseWithSyncAccess T)) (key : TKey)
    (outcome : PromiseState T) : gmap TKey (PromiseWithSyncAccess T) :=
  alter (PromiseWithSyncAccess.settle outcome) key _values.

Definition react (_values : gmap TKey (PromiseWithSyncAccess T)) (key : TKey)
  : gmap TKey (PromiseWithSyncAccess T) :=
  alter PromiseWithSyncAccess.react key _values.

End Methods.
End AsyncCache.

(** ** [TreeSitterLanguages]: the grammar catalog

    The events are the two accessors, the settlement of a load (the file
    read and [Language.load] behind [_fetchLanguage] finish), the run of
    the reactions registered on a settled load, and the writes of the
    service to the shared map of registered grammars. *)

Module Languages.

(** A loaded grammar, identified by the bytes it was loaded from. *)
Record Language := mkLanguage { wasm : list Z }.

(** Which [await] an activation of [getLanguage] is suspended at. *)
Inductive GetLanguageAwait :=
| AwaitAddLanguage   (* [await this._addLanguage(languageId)], which started the load *)
| AwaitCachePromise  (* the promise of [this._languages.get(languageId)] it returned *).

Record State := mkState {
  _languages : gmap string (PromiseWithSyncAccess (option Language));
  _registeredLanguages : gmap string string;
  addLanguageWaits : list string;
    (* activations of [_addLanguage] at [await this._languages.get(languageId)] *)
  getLanguageWaits : list (nat * string * GetLanguageAwait);
    (* suspended activations of [getLanguage]: call number, languageId *)
  results : list (PromiseState (option Language));
    (* the promise returned by each call of [getLanguage] *)
  fired : list (string * Language);   (* [_onDidAddLanguage.fire] *)
  fetched : list string;              (* invocations of [_fetchLanguage] *)
  readFiles : list (string * string)
    (* [_fileService.readFile]: the identifier it serves, the wasm path *)
}.

Definition init (registered : gmap string string) : State :=
  {| _languages := ∅; _registeredLanguages := registered; addLanguageWaits := [];
     getLanguageWaits := []; results := []; fired := []; fetched := [];
     readFiles := [] |}.

Inductive Event :=
| GetOrInitLanguage (languageId : string)
| GetLanguage (languageId : string)
| FetchSettles (languageId : string) (outcome : Completion Language)
| React (languageId : string)
| AddGrammar (languageId grammarName : string)
| RemoveGrammar (languageId : string).

Definition MODULE_LOCATION_SUBPATH : string := "@vscode/tree-sitter-wasm/wasm".

(** Truthiness of a possibly-[undefined] string: the empty string is falsy. *)
Definition truthyString (o : option string) : bool :=
  match o with
  | Some s => negb (String.eqb s "")
  | None => false
  end.

Section WithEnvironment.

(** The node-modules path that [getModuleLocation] picks for the
    environment ([nodeModulesPath] or [nodeModulesAsarUnpackedPath]). *)
Variable nodeModules : string.

Definition getModuleLocation : string :=
  nodeModules +:+ "/" +:+ MODULE_LOCATION_SUBPATH.

Definition _getLanguageLocation (s : State) (languageId : string) : option string :=
  let grammarName := _registeredLanguages s !! languageId in
  if negb (truthyString grammarName) then None else Some getModuleLocation.

(** [_fetchLanguage] up to its first [await]: the promise it returns, and
    the read it has started. *)
Definition _fetchLanguage (s : State) (languageId : string)
  : State * PromiseState (option Language) :=
  let s := mkState (_languages s) (_registeredLanguages s) (addLanguageWaits s)
             (getLanguageWaits s) (results s) (fired s)
             (fetched s ++ [languageId]) (readFiles s) in
  let grammarName := _registeredLanguages s !! languageId in
  let languageLocation := _getLanguageLocation s languageId in
  if negb (truthyString grammarName) || negb (truthyString languageLocation)
  then (s, Fulfilled None)
  else
    let wasmPath :=
      default "" languageLocation +:+ "/" +:+ default "" grammarName +:+ ".wasm" in
    (mkState (_languages s) (_registeredLanguages s) (addLanguageWaits s)
       (getLanguageWaits s) (results s) (fired s) (fetched s)
       (readFiles s ++ [(languageId, wasmPath)]),
     Pending).

(** [_addLanguage] up to its [await]; the flag tells whether it started
    the load (and is now suspended) or returned at once. *)
Definition _addLanguage (s : State) (languageId : string) : Completion (State * bool) :=
  languagePromise ← AsyncCache.get (_languages s) languageId;
  if negb (truthy languagePromise) then
    let '(s1, fetching) := _fetchLanguage s languageId in
    Normal (mkState (AsyncCache.set (_languages s1) languageId fetching)
              (_registeredLanguages s1) (addLanguageWaits s1 ++ [languageId])
              (getLanguageWaits s1) (results s1) (fired s1) (fetched s1)
              (readFiles s1),
            true)
  else Normal (s, false).

Definition getOrInitLanguage (s : State) (languageId : string)
  : Completion (State * option Language) :=
  cached ← AsyncCache.isCached (_languages s) languageId;
  if cached : bool then
    language ← AsyncCache.getSyncIfCached (_languages s) languageId;
    Normal (s, flatten language)
  else
    '(s1, _) ← _addLanguage s languageId;
    Normal (s1, None).

Definition with_results (s : State) (rs : list (PromiseState (option Language)))
    (ws : list (nat * string * GetLanguageAwait)) : State :=
  mkState (_languages s) (_registeredLanguages s) (addLanguageWaits s) ws rs
    (fired s) (fetched s) (readFiles s).

(** [getLanguage] up to its first [await]. A synchronous throw of an
    [async] function rejects the promise it returns. *)
Definition getLanguageBody (s : State) (languageId : string)
  : Completion (State * (PromiseState (option Language) + GetLanguageAwait)) :=
  cached ← AsyncCache.isCached (_languages s) languageId;
  if cached : bool then
    language ← AsyncCache.getSyncIfCached (_languages s) languageId;
    Normal (s, inl (Fulfilled (flatten language)))
  else
    '(s1, started) ← _addLanguage s languageId;
    Normal (s1, inr (if started : bool then AwaitAddLanguage else AwaitCachePromise)).

Definition getLanguage (s : State) (languageId : string) : State :=
  let callId := length (results s) in
  match getLanguageBody s languageId with
  | Throw e => with_results s (results s ++ [Rejected e]) (getLanguageWaits s)
  | Normal (s1, inl settled) =>
      with_results s1 (results s1 ++ [settled]) (getLanguageWaits s1)
  | Normal (s1, inr await) =>
      with_results s1 (results s1 ++ [Pending])
        (getLanguageWaits s1 ++ [(callId, languageId, await)])
  end.

(** [_addLanguage] resumes with the settled load: the broadcasts it
    fires. *)
Definition addLanguageResumes (languageId : string)
    (load : PromiseState (option Language)) : list (string * Language) :=
  match load with
  | Fulfilled (Some language) => [(languageId, language)]
  | _ => []
  end.

(** A suspended [getLanguage] resumes with the settled load. *)
Definition getLanguageResumes (load : PromiseState (option Language))
    (await : GetLanguageAwait) : PromiseState (option Language) :=
  match await with
  | AwaitAddLanguage =>
      match load with
      | Rejected e => Rejected e          (* [_addLanguage] threw *)
      | _ => load                         (* [return this._languages.get(languageId)] *)
      end
  | AwaitCachePromise => load
  end.

Definition settleWaits (languageId : string) (load : PromiseState (option Language))
    (ws : list (nat * string * GetLanguageAwait))
    (rs : list (PromiseState (option Language)))
  : list (PromiseState (option Language)) :=
  foldl (fun rs w =>
           if String.eqb (snd (fst w)) languageId
           then <[fst (fst w) := getLanguageResumes load (snd w)]> rs
           else rs) rs ws.

(** The reactions on the settled load of [languageId] run. *)
Definition react (s : State) (languageId : string) : State :=
  match _languages s !! languageId with
  | Some p =>
      match promise p, _result p with
      | Pending, _ => s
      | _, Some _ => s
      | load, None =>
          let adds := filter (fun x => x = languageId) (addLanguageWaits s) in
          mkState (AsyncCache.react (_languages s) languageId)
            (_registeredLanguages s)
            (filter (fun x => x <> languageId) (addLanguageWaits s))
            (filter (fun w => snd (fst w) <> languageId) (getLanguageWaits s))
            (settleWaits languageId load (getLanguageWaits s) (results s))
            (fired s ++ (adds ≫= (fun _ => addLanguageResumes languageId load)))
            (fetched s) (readFiles s)
      end
  | None => s
  end.

(** The read and load behind [_fetchLanguage] finish. *)
Definition fetchSettles (s : State) (languageId : string) (outcome : Completion Language)
  : State :=
  let load := match outcome with
              | Normal language => Fulfilled (Some language)
              | Throw e => Rejected e
              end in
  mkState (AsyncCache.settle (_languages s) languageId load)
    (_registeredLanguages s) (addLanguageWaits s) (getLanguageWaits s) (results s)
    (fired s) (fetched s) (readFiles s).

Definition with_registered (s : State) (m : gmap string string) : State :=
  mkState (_languages s) m (addLanguageWaits s) (getLanguageWaits s) (results s)
    (fired s) (fetched s) (readFiles s).

(** [TreeSitterTextModelService._addGrammar] and [_removeGrammar], which
    write the map the catalog reads. *)
Definition _addGrammar (s : State) (languageId grammarName : string) : State :=
  if negb (bool_decide (is_Some (_registeredLanguages s !! languageId)))
  then with_registered s (<[languageId := grammarName]> (_registeredLanguages s))
  else s.

Definition _removeGrammar (s : State) (languageId : string) : State :=
  if bool_decide (is_Some (_registeredLanguages s !! languageId))
  then with_registered s (delete "typescript" (_registeredLanguages s))
  else s.

Definition step (s : State) (ev : Event) : State :=
  match ev with
  | GetOrInitLanguage languageId =>
      match getOrInitLanguage s languageId with
      | Normal (s1, _) => s1
      | Throw _ => s
      end
  | GetLanguage languageId => getLanguage s languageId
  | FetchSettles languageId outcome => fetchSettles s languageId outcome
  | React languageId => react s languageId
  | AddGrammar languageId grammarName => _addGrammar s languageId grammarName
  | RemoveGrammar languageId => _removeGrammar s languageId
  end.

Definition run (s : State) (evs : list Event) : State := foldl step s evs.

End WithEnvironment.

End Languages.

Section CatalogInvariants.
Import Languages.

(** The broadcasts that carried [languageId]. *)
Definition firedFor (languageId : string) (s : State) : list (string * Language) :=
  filter (fun b => fst b = languageId) (fired s).

Definition occurrences (languageId : string) (l : list string) : nat :=
  length (filter (fun x => x = languageId) l).

(** Whether an event asks the catalog for [languageId]. *)
Definition requests (languageId : string) (ev : Event) : bool :=
  match ev with
  | GetOrInitLanguage k | GetLanguage k => bool_decide (k = languageId)
  | _ => false
  end.

(** A grammar file is read for an identifier no more often than a load
    was started for it. *)
Definition readsInv (languageId : string) (s : State) : Prop :=
  (occurrences languageId (fst <$> readFiles s) <= occurrences languageId (fetched s))%nat.

(** What the catalog keeps true of every identifier. *)
Definition catalogInv (languageId : string) (s : State) : Prop :=
  match _languages s !! languageId with
  | None =>
      occurrences languageId (fetched s) = O /\
      firedFor languageId s = [] /\
      occurrences languageId (addLanguageWaits s) = O
  | Some p =>
      occurrences languageId (fetched s) = 1%nat /\
      match _result p with
      | None =>
          firedFor languageId s = [] /\
          occurrences languageId (addLanguageWaits s) = 1%nat
      | Some _ =>
          occurrences languageId (addLanguageWaits s) = O /\
          promise p <> Pending /\
          firedFor languageId s = addLanguageResumes languageId (promise p)
      end
  end.

End CatalogInvariants.

(** ** Example trees and collaborators *)

Definition leaf (i : Z) (changed : bool) (from to : Z) : SyntaxNode :=
  mkNode i changed (mkPoint 0 from) (mkPoint 0 to) from to [].

(** [ab c] before an edit: a root over a two-token group and a token. *)
Definition exampleOld : Tree :=
  mkTree (mkNode 0 false (mkPoint 0 0) (mkPoint 0 4) 0 4
            [ mkNode 1 false (mkPoint 0 0) (mkPoint 0 2) 0 2
                [ leaf 3 false 0 1; leaf 4 false 1 2 ];
              leaf 2 false 3 4 ]).

(** The same tree after an edit inside the first token: the token, the
    group and the root carry the marker. *)
Definition exampleNew : Tree :=
  mkTree (mkNode 0 true (mkPoint 0 0) (mkPoint 0 5) 0 5
            [ mkNode 1 true (mkPoint 0 0) (mkPoint 0 3) 0 3
                [ leaf 3 true 0 2; leaf 4 false 2 3 ];
              leaf 2 false 4 5 ]).

(** A tree whose first token has grown a child that [exampleOld] lacks. *)
Definition exampleGrown : Tree :=
  mkTree (mkNode 0 true (mkPoint 0 0) (mkPoint 0 5) 0 5
            [ mkNode 1 false (mkPoint 0 0) (mkPoint 0 3) 0 3
                [ mkNode 3 false (mkPoint 0 0) (mkPoint 0 2) 0 2 [ leaf 5 false 0 1 ];
                  leaf 4 false 2 3 ];
              leaf 2 false 4 5 ]).

Section MarkNode.
Variable offset : Z.
Fixpoint markNode (n : SyntaxNode) : SyntaxNode :=
  match n with
  | mkNode i h sp ep si ei cs =>
      if (si <=? offset) && (offset <=? ei)
      then mkNode i true sp ep si ei (map markNode cs)
      else n
  end.
End MarkNode.

(** An edit that marks the nodes whose span holds the start of the edit
    and leaves the shape of the tree alone. *)
Definition markingEdit (t : Tree) (e : InputEdit.t) : Tree :=
  mkTree (markNode (InputEdit.startIndex e) (rootNode t)).

(** An edit after which the tree has a node the copy taken before it
    lacks. *)
Definition growingEdit (t : Tree) (e : InputEdit.t) : Tree := exampleGrown.

Definition exampleModel : ITextModel :=
  {| getPositionAt := fun offset => Position.mk 1 (offset + 1) |}.

(** Typing [x] at offset 0. *)
Definition exampleChange : IModelContentChange :=
  {| range := mkRange 1 1 1 1; rangeOffset := 0; rangeLength := 0; text := [120] |}.

Definition quietTurn (t : option Tree) : Session.Turn :=
  {| Session.parse := Session.Returns t; Session.telemetryFault := None |}.

Definition faultyTurn (e : Error) : Session.Turn :=
  {| Session.parse := Session.Returns None; Session.telemetryFault := Some e |}.

(** A session after its first parse: it holds [exampleOld] and is idle. *)
Definition exampleParsed (treeEdit : Tree -> InputEdit.t -> Tree) : Session.State :=
  Session.run treeEdit Session.init
    [ Session.OnDidChangeContent exampleModel [];
      Session.Resume (quietTurn (Some exampleOld));
      Session.Resume (quietTurn None);
      Session.Resume (quietTurn None);
      Session.Resume (quietTurn None) ].

(** The same session after the user typed [x]. *)
Definition exampleEdited (treeEdit : Tree -> InputEdit.t -> Tree) : Session.State :=
  Session.step treeEdit (exampleParsed treeEdit)
    (Session.OnDidChangeContent exampleModel [exampleChange]).

Definition exampleRanges : option (list RangeChange) :=
  Some [ {| newRange := mkRange 1 1 1 3; oldRangeLength := 2 |} ].

Section SessionSteps.
Import Session.

(** The live tree after the edits of one content change. *)
Definition editedTree (treeEdit : Tree -> InputEdit.t -> Tree) (model : ITextModel)
    (changes : list IModelContentChange) (t : Tree) : Tree :=
  foldl (fun t change => treeEdit t (inputEdit model change)) t changes.

(** Where the callback stands after the yield of a pass returns. *)
Definition afterYield (s : State) (turn : Turn) (tree : option Tree) (passes : nat)
    (parseType : TelemetryParseType) : Await :=
  if modelDisposed s || _isDisposed s then AwaitParse (Normal None)
  else if negb (truthy tree) && negb (_newEdits s)
  then AwaitTimeout (parsePass turn tree) (S passes) parseType
  else match telemetryFault turn with
       | Some e => AwaitParse (Throw e)
       | None => AwaitParse (Normal tree)
       end.

End SessionSteps.

Definition exampleRegistered : gmap string string :=
  {[ "typescript" := "tree-sitter-typescript" ]}.

Definition fetchFailure : Error := Rejection 404.

(** The edited session once its queued reparse has run one pass that
    produced [exampleNew]. *)
Definition examplePass : Session.State :=
  Session.run markingEdit (exampleEdited markingEdit)
    [ Session.Resume (quietTurn (Some exampleNew)) ].

(** ** Further properties: shapes of trees *)

Section Covered.
Variable cov : SyntaxNode -> SyntaxNode -> bool.
Fixpoint allCovered (ns os : list SyntaxNode) : bool :=
  match ns with
  | [] => true
  | n :: ns' =>
      match os with
      | [] => false
      | o :: os' => cov n o && allCovered ns' os'
      end
  end.
End Covered.

(** The old tree has a node wherever the new tree has one: every child of
    a new node has an old node at the same index, and so on below. *)
Fixpoint covers (n o : SyntaxNode) : bool :=
  match n with
  | mkNode _ _ _ _ _ _ cs => allCovered covers cs (children o)
  end.

(** No node of the tree other than the root carries the marker. *)
Definition unmarkedBelowRoot (t : Tree) : bool :=
  forallb (fun d => negb (hasChanges d)) (concat (map nodes (children (rootNode t)))).

Section SessionOrder.
Import Session.

(** Callbacks wait in the order of their calls, and a resolved promise
    belongs to a call made before every call still waiting. *)
Definition inOrder (s : State) : Prop :=
  StronglySorted lt (call <$> inflight s) /\
  forall c v j, promises s !! c = Some (Fulfilled v) -> j ∈ inflight s ->
                (c < call j)%nat.

(** A disposed session whose callback in progress, if any, has not been
    handed a tree by [_parseAndYield]. *)
Definition disposedBeforeCommit (s : State) : Prop :=
  _isDisposed s = true /\
  match running s with
  | Some {| at_ := AwaitParse (Normal (Some _)) |} => False
  | _ => True
  end.

End SessionOrder.

(** The events of [exampleParsed], then the edit and its whole reparse. *)
Definition exampleReparsedEvents : list Session.Event :=
  [ Session.OnDidChangeContent exampleModel [];
    Session.Resume (quietTurn (Some exampleOld));
    Session.Resume (quietTurn None);
    Session.Resume (quietTurn None);
    Session.Resume (quietTurn None);
    Session.OnDidChangeContent exampleModel [exampleChange];
    Session.Resume (quietTurn (Some exampleNew));
    Session.Resume (quietTurn None);
    Session.Resume (quietTurn None);
    Session.Resume (quietTurn None) ].

Section CatalogConsistency.
Import Languages.

(** What [PromiseWithSyncAccess] recorded agrees with the promise it
    wraps. *)
Definition recorded {T : Type} (p : PromiseWithSyncAccess T) : Prop :=
  match _result p with
  | None => True
  | Some r =>
      match promise p with
      | Pending => False
      | Fulfilled v => r = mkPromiseResult (Some v) None
      | Rejected e => r = mkPromiseResult None (Some e)
      end
  end.

Definition allRecorded (s : State) : Prop :=
  forall languageId p, _languages s !! languageId = Some p -> recorded p.

(** The suspended calls of [getLanguage] own distinct pending promises and
    wait for loads that have not been recorded yet. *)
Definition waitsInv (s : State) : Prop :=
  NoDup (fst ∘ fst <$> getLanguageWaits s) /\
  forall c languageId await, (c, languageId, await) ∈ getLanguageWaits s ->
    results s !! c = Some Pending /\
    exists p, _languages s !! languageId = Some p /\ _result p = None.

(** The grammar that the synchronous accessor can see for an identifier. *)
Definition loadedLanguage (s : State) (languageId : string) : option Language :=
  match _languages s !! languageId with
  | Some {| promise := Fulfilled (Some language); _result := Some _ |} => Some language
  | _ => None
  end.

End CatalogConsistency.

(** A catalog whose load of [typescript] has failed. *)
Definition exampleFailedCatalog : Languages.State :=
  Languages.run "node_modules" (Languages.init exampleRegistered)
    [ Languages.GetOrInitLanguage "typescript";
      Languages.FetchSettles "typescript" (Throw fetchFailure) ].

(** ** [TreeSitterTextModelService]: the configured grammars and the start of the parser

    The service owns the map of registered grammars that the catalog
    reads, rewrites it whenever the setting changes, and starts the parser
    the first time the setting names a language. *)

Module Service.

(** What [IConfigurationService.getValue] answers for the two settings. *)
Record Configuration := mkConfiguration {
  preferTreeSitter : option (list string);  (* [EDITOR_EXPERIMENTAL_PREFER_TREESITTER] *)
  treeSitterTelemetry : option bool         (* [EDITOR_TREESITTER_TELEMETRY] *)
}.

(** The promise held in [_init]. *)
Inductive Init :=
| DoInitParser (call : nat)  (* returned by the [call]-th [_doInitParser()] *)
| ResolvedFalse              (* [Promise.resolve(false)] *).

Record State := mkState {
  _treeSitterLanguages : Languages.State;  (* it shares [_registeredLanguages] *)
  _hasInit : bool;
  _init : option Init;
  doInitParserCalls : nat;                 (* invocations of [_doInitParser] *)
  listenerRegistrations : list Init
    (* [_init.then(() => this._registerModelServiceListeners())] *)
}.

Inductive Event :=
| ConfigurationChanged (cfg : Configuration) (affectsPreferTreeSitter : bool)
| GetOrInitLanguage (languageId : string)
    (* [getOrInitLanguage], of the service or of a [TextModelTreeSitter] on
       the catalog they share *)
| GetLanguage (languageId : string) (init : Completion bool)
    (* [getLanguage], also behind [getTree] and [getTextModelTreeSitter],
       resumed from [await this._init], which settled as [init] *)
| FetchSettles (languageId : string) (outcome : Completion Languages.Language)
| React (languageId : string).

Definition with_languages (s : State) (l : Languages.State) : State :=
  mkState l (_hasInit s) (_init s) (doInitParserCalls s) (listenerRegistrations s).

Definition _getSetting (cfg : Configuration) : list string :=
  let setting := preferTreeSitter cfg in
  if truthy setting && (0 <? length (default [] setting))%nat then default [] setting
  else
    let expSetting := treeSitterTelemetry cfg in
    if default false expSetting then ["typescript"] else [].

Definition _initParser (s : State) (hasLanguages : bool) : State * option Init :=
  if _hasInit s then (s, _init s)
  else if hasLanguages then
    let init := DoInitParser (doInitParserCalls s) in
    (mkState (_treeSitterLanguages s) true (Some init) (S (doInitParserCalls s))
       (listenerRegistrations s ++ [init]),
     Some init)
  else
    (mkState (_treeSitterLanguages s) (_hasInit s) (Some ResolvedFalse)
       (doInitParserCalls s) (listenerRegistrations s),
     Some ResolvedFalse).

Definition _supportedLanguagesChanged (cfg : Configuration) (s : State)
  : State * option Init :=
  let setting := _getSetting cfg in
  let hasLanguages := negb (length setting =? 0)%nat in
  let s :=
    if bool_decide ("typescript" ∈ setting)
    then with_languages s
           (Languages._addGrammar (_treeSitterLanguages s) "typescript"
              "tree-sitter-typescript")
    else with_languages s (Languages._removeGrammar (_treeSitterLanguages s) "typescript") in
  _initParser s hasLanguages.

(** The constructor: the catalog is created over the empty map, and
    [_supportedLanguagesChanged] runs once. *)
Definition new (cfg : Configuration) : State :=
  fst (_supportedLanguagesChanged cfg
         (mkState (Languages.init ∅) false None O [])).

Section WithEnvironment.
Variable nodeModules : string.

Definition getOrInitLanguage (s : State) (languageId : string)
  : Completion (State * option Languages.Language) :=
  '(l, language) ← Languages.getOrInitLanguage nodeModules (_treeSitterLanguages s) languageId;
  Normal (with_languages s l, language).

(** [getLanguage] after [await this._init]: a rejected [_init] rejects
    the call before it reaches the catalog. *)
Definition getLanguage (s : State) (languageId : string) (init : Completion bool)
  : State :=
  match init with
  | Normal _ =>
      with_languages s
        (Languages.getLanguage nodeModules (_treeSitterLanguages s) languageId)
  | Throw _ => s
  end.

Definition step (s : State) (ev : Event) : State :=
  match ev with
  | ConfigurationChanged cfg affectsPreferTreeSitter =>
      if affectsPreferTreeSitter then fst (_supportedLanguagesChanged cfg s) else s
  | GetOrInitLanguage languageId =>
      match getOrInitLanguage s languageId with
      | Normal (s1, _) => s1
      | Throw _ => s
      end
  | GetLanguage languageId init => getLanguage s languageId init
  | FetchSettles languageId outcome =>
      with_languages s (Languages.fetchSettles (_treeSitterLanguages s) languageId outcome)
  | React languageId =>
      with_languages s (Languages.react (_treeSitterLanguages s) languageId)
  end.

Definition run (s : State) (evs : list Event) : State := foldl step s evs.

End WithEnvironment.

End Service.

Section ServiceConfiguration.
Import Service.

(** The configurations that [_supportedLanguagesChanged] has read: the one
    at construction, then one for each change that affects the setting. *)
Definition applied (cfg : Configuration) (evs : list Event) : list Configuration :=
  cfg :: (evs ≫= fun ev =>
            match ev with
            | ConfigurationChanged cfg true => [cfg]
            | _ => []
            end).

(** The configuration that [_supportedLanguagesChanged] has read last. *)
Definition latest (cfg : Configuration) (evs : list Event) : Configuration :=
  foldl (fun latest ev =>
           match ev with
           | ConfigurationChanged cfg true => cfg
           | _ => latest
           end) cfg evs.

(** The registered grammars that a setting calls for. *)
Definition registryFor (setting : list string) : gmap string string :=
  if bool_decide ("typescript" ∈ setting)
  then {[ "typescript" := "tree-sitter-typescript" ]}
  else ∅.

Definition namesLanguages (cfg : Configuration) : bool :=
  negb (length (_getSetting cfg) =? 0)%nat.

(** The parser has been started once, or not at all. *)
Definition started (s : State) : Prop :=
  if _hasInit s
  then doInitParserCalls s = 1%nat /\ _init s = Some (DoInitParser O) /\
       listenerRegistrations s = [DoInitParser O]
  else doInitParserCalls s = O /\ _init s = Some ResolvedFalse /\
       listenerRegistrations s = [].

End ServiceConfiguration.

(** ** [TreeSitterImporter]: the lazily imported parser class

    Both methods are [async] and cache what they awaited in a field. The
    events are a call of [getParserClass], the settlement of one
    [importAMDNodeModule] promise (with the resumption of
    [_getTreeSitterImport] behind it), and the resumption of a suspended
    [getParserClass]. *)

Module Importer.

(** What the import resolves to; [Parser] is the parser class in it. *)
Record TreeSitterModule := mkModule { Parser : Z }.

Inductive Activation :=
| AwaitImport (call import : nat)
    (* in [_getTreeSitterImport], at [await importAMDNodeModule(...)] *)
| AwaitGetTreeSitterImport (call : nat) (inner : Completion TreeSitterModule)
    (* in [getParserClass], at [await this._getTreeSitterImport()], which has
       returned or thrown *).

Record State := mkState {
  _treeSitterImport : option TreeSitterModule;
  _parserClass : option Z;
  imports : nat;                     (* invocations of [importAMDNodeModule] *)
  activations : list Activation;
  results : list (PromiseState Z)    (* the promise of each [getParserClass] call *)
}.

Definition init : State := mkState None None O [] [].

Inductive Event :=
| GetParserClass
| ImportSettles (import : nat) (outcome : Completion TreeSitterModule)
| Resume (call : nat).

(** [_getTreeSitterImport] up to its first [await], called by [call]:
    the import starts unless the field is set. *)
Definition _getTreeSitterImport (s : State) (call : nat) : State :=
  match _treeSitterImport s with
  | None =>
      mkState (_treeSitterImport s) (_parserClass s) (S (imports s))
        (activations s ++ [AwaitImport call (imports s)]) (results s)
  | Some m =>
      mkState (_treeSitterImport s) (_parserClass s) (imports s)
        (activations s ++ [AwaitGetTreeSitterImport call (Normal m)]) (results s)
  end.

(** [getParserClass] up to its first [await]. *)
Definition getParserClass (s : State) : State :=
  let call := length (results s) in
  match _parserClass s with
  | None =>
      let s1 := _getTreeSitterImport s call in
      mkState (_treeSitterImport s1) (_parserClass s1) (imports s1) (activations s1)
        (results s1 ++ [Pending])
  | Some parserClass =>
      mkState (_treeSitterImport s) (_parserClass s) (imports s) (activations s)
        (results s ++ [Fulfilled parserClass])
  end.

(** [_getTreeSitterImport] resumes with the settled import: it stores the
    module and returns it, or throws. *)
Definition importSettles (s : State) (import : nat) (outcome : Completion TreeSitterModule)
  : State :=
  let waiting a := match a with
                   | AwaitImport _ i => Nat.eqb i import
                   | _ => false
                   end in
  if existsb waiting (activations s) then
    mkState (match outcome with
             | Normal m => Some m
             | Throw _ => _treeSitterImport s
             end)
      (_parserClass s) (imports s)
      ((fun a => match a with
                 | AwaitImport call i =>
                     if Nat.eqb i import then AwaitGetTreeSitterImport call outcome else a
                 | _ => a
                 end) <$> activations s)
      (results s)
  else s.

(** A suspended [getParserClass] resumes with what
    [_getTreeSitterImport] returned or threw. *)
Definition resumeOne (s : State) (a : Activation) : State :=
  match a with
  | AwaitGetTreeSitterImport call (Normal m) =>
      mkState (_treeSitterImport s) (Some (Parser m)) (imports s) (activations s)
        (<[call := Fulfilled (Parser m)]> (results s))
  | AwaitGetTreeSitterImport call (Throw e) =>
      mkState (_treeSitterImport s) (_parserClass s) (imports s) (activations s)
        (<[call := Rejected e]> (results s))
  | AwaitImport _ _ => s
  end.

Definition resumable (call : nat) (a : Activation) : bool :=
  match a with
  | AwaitGetTreeSitterImport c _ => Nat.eqb c call
  | AwaitImport _ _ => false
  end.

Definition resume (s : State) (call : nat) : State :=
  match filter (fun a => resumable call a = true) (activations s) with
  | a :: _ =>
      let s1 := resumeOne s a in
      mkState (_treeSitterImport s1) (_parserClass s1) (imports s1)
        (filter (fun a => resumable call a = false) (activations s1)) (results s1)
  | [] => s
  end.

Definition step (s : State) (ev : Event) : State :=
  match ev with
  | GetParserClass => getParserClass s
  | ImportSettles import outcome => importSettles s import outcome
  | Resume call => resume s call
  end.

Definition run (s : State) (evs : list Event) : State := foldl step s evs.

End Importer.

Section ImporterEvents.
Import Importer.

Definition isGetParserClass (ev : Event) : bool :=
  match ev with
  | GetParserClass => true
  | _ => false
  end.

(** An import that delivers the module. *)
Definition delivers (ev : Event) : bool :=
  match ev with
  | ImportSettles _ (Normal _) => true
  | _ => false
  end.

(** Neither field is set and no activation holds a module. *)
Definition unloaded (s : State) : Prop :=
  _treeSitterImport s = None /\ _parserClass s = None /\
  Forall (fun a => match a with
                   | AwaitGetTreeSitterImport _ (Normal _) => False
                   | _ => True
                   end) (activations s).

End ImporterEvents.

Definition exampleModule : Importer.TreeSitterModule := Importer.mkModule 7.

(** ** [ObservableCodeEditor]: the update counter and the widget ids

    The facade opens one transaction for a group of nested updates and
    hands it to every observable it sets in between. The observables, the
    signals and a caller's callback belong to the observable library; each
    call into them is recorded with the transaction it was handed, and may
    throw. *)

Module ObservableCodeEditor.

(** What a handler hands the current transaction to. *)
Inductive Target :=
| Model         (* [this._model.set] *)
| VersionId     (* [this._versionId.set] *)
| Selections    (* [this._selections.set] *)
| OnDidType     (* [this.onDidType.trigger] *)
| OnDidPaste    (* [this.onDidPaste.trigger] *)
| Callback      (* the [cb] of [forceUpdate] *).

Record Call := mkCall { target : Target; tx : option nat }.

Record State := mkState {
  _updateCounter : Z;
  _currentTransaction : option nat;  (* a [TransactionImpl], by order of creation *)
  _widgetCounter : nat;
  created : nat;                     (* [new TransactionImpl(...)] *)
  finished : list nat;               (* [t.finish()] *)
  calls : list Call;
  overlayWidgets : list string;      (* [getId()] of each [editor.addOverlayWidget(w)] *)
  contentWidgets : list string       (* [getId()] of each [editor.addContentWidget(w)] *)
}.

Definition init : State := mkState 0 None O O [] [] [] [].

Inductive Event :=
| OnBeginUpdate
| OnEndUpdate
| OnDidChangeModel
| OnDidTypeEvent
| OnDidPasteEvent
| OnDidChangeModelContent
| OnDidChangeCursorSelection
| ForceUpdate (cb : bool)     (* [forceUpdate()] or [forceUpdate(cb)] *)
| CreateOverlayWidget
| ObservePosition
| ObserveLineOffsetRange.

(** A piece of a method body: it changes the state and completes or
    throws. *)
Definition Body : Type := State -> State * Completion unit.

Definition skip : Body := fun s => (s, Normal tt).

Definition andThen (a b : Body) : Body := fun s =>
  match a s with
  | (s1, Normal _) => b s1
  | (s1, Throw e) => (s1, Throw e)
  end.

(** [try { body } finally { final }]. *)
Definition tryFinally (body final : Body) : Body := fun s =>
  let '(s1, result) := body s in
  match final s1 with
  | (s2, Normal _) => (s2, result)
  | (s2, Throw e) => (s2, Throw e)
  end.

Definition _beginUpdate (s : State) : State :=
  let counter := _updateCounter s + 1 in
  if counter =? 1 then
    mkState counter (Some (created s)) (_widgetCounter s) (S (created s)) (finished s)
      (calls s) (overlayWidgets s) (contentWidgets s)
  else
    mkState counter (_currentTransaction s) (_widgetCounter s) (created s) (finished s)
      (calls s) (overlayWidgets s) (contentWidgets s).

(** [t.finish()] on [undefined] is a [TypeError]. *)
Definition _endUpdate : Body := fun s =>
  let counter := _updateCounter s - 1 in
  if counter =? 0 then
    match _currentTransaction s with
    | Some t =>
        (mkState counter None (_widgetCounter s) (created s) (finished s ++ [t])
           (calls s) (overlayWidgets s) (contentWidgets s),
         Normal tt)
    | None =>
        (mkState counter None (_widgetCounter s) (created s) (finished s)
           (calls s) (overlayWidgets s) (contentWidgets s),
         Throw (Err "TypeError"))
    end
  else
    (mkState counter (_currentTransaction s) (_widgetCounter s) (created s) (finished s)
       (calls s) (overlayWidgets s) (contentWidgets s),
     Normal tt).

Definition widgetId (prefix : string) (counter : nat) : string :=
  prefix +:+ pretty counter.

Definition createOverlayWidget (s : State) : State :=
  let overlayWidgetId := widgetId "observableOverlayWidget" (_widgetCounter s) in
  mkState (_updateCounter s) (_currentTransaction s) (S (_widgetCounter s)) (created s)
    (finished s) (calls s) (overlayWidgets s ++ [overlayWidgetId]) (contentWidgets s).

Definition observePosition (s : State) : State :=
  let contentWidgetId := widgetId "observablePositionWidget" (_widgetCounter s) in
  mkState (_updateCounter s) (_currentTransaction s) (S (_widgetCounter s)) (created s)
    (finished s) (calls s) (overlayWidgets s) (contentWidgets s ++ [contentWidgetId]).

(** [start] and [end] are observed as two positions. *)
Definition observeLineOffsetRange (s : State) : State :=
  observePosition (observePosition s).

Section WithFaults.

(** Whether the call into the observable library with this number
    throws. *)
Variable throws : nat -> bool.

(** [target.set(..., this._currentTransaction)] and the like. *)
Definition call (target : Target) : Body := fun s =>
  (mkState (_updateCounter s) (_currentTransaction s) (_widgetCounter s) (created s)
     (finished s) (calls s ++ [mkCall target (_currentTransaction s)])
     (overlayWidgets s) (contentWidgets s),
   if throws (length (calls s)) then Throw (Err "observer failed") else Normal tt).

(** [this._beginUpdate(); try { body } finally { this._endUpdate(); }] *)
Definition update (body : Body) : Body := fun s =>
  tryFinally body _endUpdate (_beginUpdate s).

Definition _forceUpdate : Body :=
  update (andThen (call Model) (andThen (call VersionId) (call Selections))).

Definition forceUpdate (cb : bool) : Body :=
  update (andThen _forceUpdate (if cb then call Callback else skip)).

Definition handler (ev : Event) : Body :=
  match ev with
  | OnBeginUpdate => fun s => (_beginUpdate s, Normal tt)
  | OnEndUpdate => _endUpdate
  | OnDidChangeModel => update (andThen (call Model) _forceUpdate)
  | OnDidTypeEvent => update (andThen _forceUpdate (call OnDidType))
  | OnDidPasteEvent => update (andThen _forceUpdate (call OnDidPaste))
  | OnDidChangeModelContent => update (andThen (call VersionId) _forceUpdate)
  | OnDidChangeCursorSelection => update (andThen (call Selections) _forceUpdate)
  | ForceUpdate cb => forceUpdate cb
  | CreateOverlayWidget => fun s => (createOverlayWidget s, Normal tt)
  | ObservePosition => fun s => (observePosition s, Normal tt)
  | ObserveLineOffsetRange => fun s => (observeLineOffsetRange s, Normal tt)
  end.

(** The state an event leaves behind, whether its handler completed or
    threw. *)
Definition step (s : State) (ev : Event) : State := fst (handler ev s).

Definition run (s : State) (evs : list Event) : State := foldl step s evs.

End WithFaults.

End ObservableCodeEditor.

Section EditorUpdates.
Import ObservableCodeEditor.

(** Updates the editor has begun and not ended. *)
Definition openUpdates (evs : list Event) : Z :=
  foldl (fun n ev =>
           match ev with
           | OnBeginUpdate => n + 1
           | OnEndUpdate => n - 1
           | _ => n
           end) 0 evs.

(** The editor never ends an update it has not begun. *)
Fixpoint nested (n : Z) (evs : list Event) : bool :=
  match evs with
  | [] => true
  | OnBeginUpdate :: evs => nested (n + 1) evs
  | OnEndUpdate :: evs => (1 <=? n) && nested (n - 1) evs
  | _ :: evs => nested n evs
  end.

(** The transaction is there exactly while an update is open; the
    transactions were finished in the order of their creation, the open one
    being the newest. *)
Definition transactional (s : State) : Prop :=
  (is_Some (_currentTransaction s) <-> 1 <= _updateCounter s) /\
  finished s ++ option_list (_currentTransaction s) = seq 0 (created s).

(** A body that keeps the counter and hands the open transaction to
    every call it makes. *)
Definition keepsTransaction (m : Body) : Prop :=
  forall s, transactional s ->
    transactional (fst (m s)) /\
    _updateCounter (fst (m s)) = _updateCounter s /\
    _widgetCounter (fst (m s)) = _widgetCounter s /\
    overlayWidgets (fst (m s)) = overlayWidgets s /\
    contentWidgets (fst (m s)) = contentWidgets s /\
    exists new, calls (fst (m s)) = calls s ++ new /\
      (1 <= _updateCounter s -> Forall (fun c => is_Some (tx c)) new).

(** The same for a body that opens an update of its own. *)
Definition opensUpdate (m : Body) : Prop :=
  forall s, transactional s ->
    transactional (fst (m s)) /\
    _updateCounter (fst (m s)) = _updateCounter s /\
    _widgetCounter (fst (m s)) = _widgetCounter s /\
    overlayWidgets (fst (m s)) = overlayWidgets s /\
    contentWidgets (fst (m s)) = contentWidgets s /\
    exists new, calls (fst (m s)) = calls s ++ new /\
      (0 <= _updateCounter s -> Forall (fun c => is_Some (tx c)) new).

(** The widget ids handed to the editor so far. *)
Definition widgetIds (s : State) : list string :=
  overlayWidgets s ++ contentWidgets s.

End EditorUpdates.

(** The second call into the observables fails. *)
Definition secondCallThrows (n : nat) : bool := Nat.eqb n 1.

Section EditorWidgets.
Import ObservableCodeEditor.

(** Every id handed out so far was made from a value of the widget counter
    below the present one, and no value was used twice. *)
Definition numbered (s : State) : Prop :=
  exists overlays positions : list nat,
    overlayWidgets s = widgetId "observableOverlayWidget" <$> overlays /\
    contentWidgets s = widgetId "observablePositionWidget" <$> positions /\
    NoDup (overlays ++ positions) /\
    Forall (fun k => (k < _widgetCounter s)%nat) (overlays ++ positions).

End EditorWidgets.

(** ** [TextModelTreeSitter]: what a content change fires *)

Module TextModelTreeSitter.

(** The document, as far as the coordinator reads it. *)
Record Model := mkModel {
  model : ITextModel;
  getFullModelRange : Range;
  getValueLength : Z
}.

(** [_onDidChangeContent] from the settlement of the promise it awaits:
    the ranges it fires on [onDidChangeParseResult], if it gets to fire. A
    pending promise leaves it suspended and a rejected one makes it
    throw. *)
Definition _onDidChangeContent (m : Model)
    (settled : PromiseState (option (list RangeChange))) : option (list RangeChange) :=
  match settled with
  | Fulfilled changedNodes =>
      Some (match changedNodes with
            | Some ranges => ranges
            | None => [ {| newRange := getFullModelRange m;
                           oldRangeLength := getValueLength m |} ]
            end)
  | _ => None
  end.

End TextModelTreeSitter.

(** [exampleModel] as the coordinator sees it: one line, one character. *)
Definition exampleDocument : TextModelTreeSitter.Model :=
  TextModelTreeSitter.mkModel exampleModel (mkRange 1 1 1 2) 1.

Section SessionProvenance.
Import Session.

(** The trees the parser has returned in the turns of a run. *)
Definition parserTrees (evs : list Event) : list Tree :=
  evs ≫= fun ev =>
    match ev with
    | Resume {| parse := Returns (Some t) |} => [t]
    | _ => []
    end.

(** The tree that the callback in progress carries towards the setter. *)
Definition carried (s : State) : option Tree :=
  match running s with
  | Some {| at_ := AwaitTimeout tree _ _ |} => tree
  | Some {| at_ := AwaitParse (Normal tree) |} => tree
  | _ => None
  end.

(** Every tree installed or on its way to the setter is one of [known]. *)
Definition fromParser (known : list Tree) (s : State) : Prop :=
  (forall t, Some t ∈ treeSets s -> t ∈ known) /\
  (forall t, carried s = Some t -> t ∈ known).

End SessionProvenance.

(** ** [ObservableCodeEditor.get]: one facade per editor

    The static map from editors to facades, the [onDidDispose] listeners
    that [get] registers on the editors, and the facades disposed so far.
    Editors and facades are numbered; a listener is named by the editor it
    is registered on and the facade whose creation registered it. *)

Module FacadeMap.

Record State := mkState {
  _map : gmap nat nat;
  listeners : list (nat * nat);
  constructed : nat;         (* [new ObservableCodeEditor(editor)] *)
  disposed : list nat        (* [item.dispose()] *)
}.

Definition init : State := mkState ∅ [] O [].

Inductive Event :=
| Get (editor : nat)
| OnDidDispose (editor : nat).

Definition get (s : State) (editor : nat) : State * nat :=
  match _map s !! editor with
  | Some result => (s, result)
  | None =>
      let result := constructed s in
      (mkState (<[editor := result]> (_map s)) (listeners s ++ [(editor, result)])
         (S (constructed s)) (disposed s),
       result)
  end.

(** The listener of [get]; [d.dispose()] takes the listener itself off
    the editor. *)
Definition listener (s : State) (d : nat * nat) : State :=
  let editor := fst d in
  match _map s !! editor with
  | Some item =>
      mkState (delete editor (_map s))
        (filter (fun l => l <> d) (listeners s))
        (constructed s) (disposed s ++ [item])
  | None => s
  end.

(** The editor fires [onDidDispose]: the listeners registered on it run. *)
Definition onDidDispose (s : State) (editor : nat) : State :=
  foldl (fun s d => if Nat.eqb (fst d) editor then listener s d else s) s (listeners s).

Definition step (s : State) (ev : Event) : State :=
  match ev with
  | Get editor => fst (get s editor)
  | OnDidDispose editor => onDidDispose s editor
  end.

Definition run (s : State) (evs : list Event) : State := foldl step s evs.

End FacadeMap.

Section FacadeInvariant.
Import FacadeMap.

(** The listeners are those of the facades in the map, one for each; the
    facades in the map are distinct and none of them has been disposed. *)
Definition registered (s : State) : Prop :=
  NoDup (fst <$> listeners s) /\
  (forall editor facade,
     ((editor, facade) ∈ listeners s) <-> (_map s !! editor = Some facade)) /\
  (forall editor facade, _map s !! editor = Some facade ->
     (facade < constructed s)%nat /\ (facade ∉ disposed s) /\
     forall editor', _map s !! editor' = Some facade -> editor' = editor) /\
  NoDup (disposed s) /\
  Forall (fun facade => (facade < constructed s)%nat) (disposed s).

End FacadeInvariant.

(** ** [observeLineOffsetRange]: the vertical extent of a line range *)

Module LineOffsets.

(** A [LineRange], as far as it is read here. *)
Record LineRange := mkLineRange {
  startLineNumber : Z;
  endLineNumberExclusive : Z;
  isEmpty : bool
}.

Section WithEditor.

(** The pixel offsets of the layout are JavaScript numbers (binary64, not
    integers in general). The function only subtracts them, so they are
    kept abstract here, with their subtraction. *)
Variable number : Type.
Variable minus : number -> number -> number.

(** [editor.getTopForLineNumber] and [editor.getBottomForLineNumber]. *)
Variable getTopForLineNumber getBottomForLineNumber : Z -> number.

(** The function under [derived]: the two arguments of
    [new OffsetRange(s, e)], from the range, the line count of the model
    (if there is a model) and the scroll position. *)
Definition observeLineOffsetRange (range : LineRange) (lineCount : option Z)
    (scrollTop : number) : number * number :=
  let s :=
    minus
      (match lineCount with
       | Some lineCount =>
           if startLineNumber range >? lineCount
           then getBottomForLineNumber lineCount
           else getTopForLineNumber (startLineNumber range)
       | None => getTopForLineNumber (startLineNumber range)
       end)
      scrollTop in
  let e :=
    if isEmpty range then s
    else minus (getBottomForLineNumber (endLineNumberExclusive range - 1)) scrollTop in
  (s, e).

End WithEditor.

End LineOffsets.

Section CatalogReads.
Import Languages.
Variable nodeModules : string.

(** The reads of a grammar file that were started for [languageId]. *)
Definition readsFor (languageId : string) (s : State) : list (string * string) :=
  filter (fun r => fst r = languageId) (readFiles s).

(** The events before the first request for [languageId], if it is
    requested at all. *)
Fixpoint beforeFirstRequest (languageId : string) (evs : list Event)
  : option (list Event) :=
  match evs with
  | [] => None
  | ev :: evs =>
      if requests languageId ev then Some []
      else cons ev <$> beforeFirstRequest languageId evs
  end.

(** The read that a load of [languageId] starts under a registry: the
    grammar file in the module location, and none when the registry has no
    grammar name for it. *)
Definition grammarRead (registry : gmap string string) (languageId : string)
  : list (string * string) :=
  match registry !! languageId with
  | Some grammarName =>
      if String.eqb grammarName "" then []
      else [(languageId,
             getModuleLocation nodeModules +:+ "/" +:+ grammarName +:+ ".wasm")]
  | None => []
  end.

(** The promise that [_fetchLanguage] returns under a registry: pending
    while the file is read, resolved to [undefined] at once without a
    grammar name. *)
Definition startedLoad (registry : gmap string string) (languageId : string)
  : PromiseState (option Language) :=
  match grammarRead registry languageId with
  | [] => Fulfilled None
  | _ => Pending
  end.

(** Whether an event settles the load of [languageId]. *)
Definition settles (languageId : string) (ev : Event) : bool :=
  match ev with
  | FetchSettles k _ => bool_decide (k = languageId)
  | _ => false
  end.

End CatalogReads.

(** * Proofs *)

(** ** Facts about the diff *)

Lemma SyntaxNode_ind (P : SyntaxNode -> Prop) :
  (forall i h sp ep si ei cs, Forall P cs -> P (mkNode i h sp ep si ei cs)) ->
  forall n, P n.
Proof.
  intros step. fix IH 1. intros [i h sp ep si ei cs]. apply step.
  induction cs as [|c cs IHcs]; constructor; [apply IH | exact IHcs].
Qed.

Lemma bind_assoc_app (a b c : Completion (list ChangedNode)) (acc : list ChangedNode) :
  (l ← (x ← a; y ← b; Normal (x ++ y)); l' ← c; Normal (acc ++ l ++ l'))
  = (l ← a; l' ← (x ← b; y ← c; Normal (x ++ y)); Normal (acc ++ l ++ l')).
Proof.
  destruct a as [x|e]; [|reflexivity]. destruct b as [y|e]; [|reflexivity].
  destruct c as [z|e]; [|reflexivity]. cbn. by rewrite <- (app_assoc x y z).
Qed.

Lemma bind_assoc (a b c : Completion (list ChangedNode)) :
  (l ← (x ← a; y ← b; Normal (x ++ y)); l' ← c; Normal (l ++ l'))
  = (l ← a; l' ← (x ← b; y ← c; Normal (x ++ y)); Normal (l ++ l')).
Proof. apply (bind_assoc_app a b c []). Qed.

Lemma bind_flat (a b : Completion (list ChangedNode)) (acc : list ChangedNode) :
  (l'' ← (l ← a; l' ← b; Normal (l ++ l')); Normal (acc ++ l''))
  = (l ← a; l' ← b; Normal (acc ++ l ++ l')).
Proof. by destruct a, b. Qed.

Lemma diffNode_unfold rootId n o :
  diffNode rootId n o =
  if hasChanges n && negb (id n =? rootId) then Normal [(n, o)]
  else pairUp (diffNode rootId) (children n) (children o).
Proof. destruct n; reflexivity. Qed.

Lemma size_unfold n : size n = S (sizeList size (children n)).
Proof. destruct n; reflexivity. Qed.

Lemma bind_ret_id {A} (c : Completion (list A)) :
  (l' ← c; Normal ([] ++ l')) = c.
Proof. by destruct c. Qed.

Lemma nextSiblingOrParentSibling_S fuel w :
  nextSiblingOrParentSibling (S fuel) w =
  if truthy (nextSibling (newCursor w)) then Some (gotoNextSibling w)
  else
    match (if truthy (parent (newCursor w)) then gotoParent w else Normal (false, w)) with
    | Throw e => Some (Throw e)
    | Normal (_, w') =>
        if truthy (nextSibling (newCursor w')) || truthy (parent (newCursor w'))
        then nextSiblingOrParentSibling fuel w'
        else Some (Normal (false, w'))
    end.
Proof. reflexivity. Qed.

Lemma climb_spec rootId : forall pn po cn co acc,
  match nextSiblingOrParentSibling (S (length pn))
          (mkWalk (mkCursor cn pn) (mkCursor co po) acc) with
  | None => False
  | Some (Throw e) => e = outOfSync /\ restUnits rootId pn po = Throw outOfSync
  | Some (Normal (true, w2)) =>
      changedNodes w2 = acc /\
      (size (currentNode (newCursor w2)) + remaining (path (newCursor w2))
       <= remaining pn)%nat /\
      restUnits rootId pn po =
        (l ← diffNode rootId (currentNode (newCursor w2)) (currentNode (oldCursor w2));
         l' ← restUnits rootId (path (newCursor w2)) (path (oldCursor w2));
         Normal (l ++ l'))
  | Some (Normal (false, w2)) =>
      changedNodes w2 = acc /\ restUnits rootId pn po = Normal []
  end.
Proof.
  induction pn as [|f up IH]; intros po cn co acc.
  - cbn. done.
  - rewrite nextSiblingOrParentSibling_S.
    cbn [newCursor path nextSibling parent truthy].
    destruct f as [ls pnode rs]. cbn [rights head parentNode].
    destruct rs as [|r rs]; cbn [head truthy].
    + (* no next sibling: go to the parent *)
      unfold gotoParent, lockstep. cbn [TreeCursor.gotoParent newCursor oldCursor path].
      destruct po as [|fo upo]; cbn [TreeCursor.gotoParent path].
      * cbn. done.
      * cbn [Bool.eqb negb andb newCursor path changedNodes parentNode].
        cbn [restUnits rights pairUp].
        change (l ← Normal []; l' ← restUnits rootId up upo; Normal (l ++ l'))
          with (l' ← restUnits rootId up upo; Normal ([] ++ l')).
        rewrite bind_ret_id.
        destruct up as [|f' up'].
        -- cbn. done.
        -- replace (truthy (nextSibling {| currentNode := pnode; path := f' :: up' |})
                    || truthy (parent {| currentNode := pnode; path := f' :: up' |}))
             with true by (cbn; by rewrite orb_true_r).
           specialize (IH upo pnode (parentNode fo) acc).
           change (length ({| lefts := ls; parentNode := pnode; rights := [] |} :: f' :: up'))
             with (S (length (f' :: up'))).
           destruct (nextSiblingOrParentSibling _ _) as [[[b w2]|e]|]; [|done|done].
           destruct b; [|done].
           destruct IH as (? & ? & ?). split_and!; [done| |done].
           cbn [remaining rights sizeList] in *. lia.
    + (* a next sibling exists *)
      unfold gotoNextSibling, lockstep.
      cbn [TreeCursor.gotoNextSibling newCursor oldCursor path rights].
      destruct po as [|[lso pnodeo rso] upo]; cbn [path rights].
      * cbn. done.
      * destruct rso as [|ro rso].
        -- cbn. done.
        -- cbn. split_and!; [done|lia|apply bind_assoc].
Qed.

Lemma changedNodesLoop_S rootId fuel w :
  changedNodesLoop rootId (S fuel) w =
  continueWith rootId fuel
    (if snd (loopBody rootId w) then Some (gotoFirstChild (fst (loopBody rootId w)))
     else nextSiblingOrParentSibling
            (S (length (path (newCursor (fst (loopBody rootId w))))))
            (fst (loopBody rootId w))).
Proof.
  unfold loopBody. cbn [changedNodesLoop].
  destruct (hasChanges _ && _); reflexivity.
Qed.

Lemma after_climb rootId fuel (IH : loopInvariant rootId fuel) cn pn co po acc :
  (remaining pn <= fuel)%nat ->
  unitsOf (continueWith rootId fuel
             (nextSiblingOrParentSibling (S (length pn))
                (mkWalk (mkCursor cn pn) (mkCursor co po) acc)))
  = Some (l' ← restUnits rootId pn po; Normal (acc ++ l')).
Proof.
  intros Hfuel.
  pose proof (climb_spec rootId pn po cn co acc) as Hclimb.
  destruct (nextSiblingOrParentSibling _ _) as [[[b w2]|e]|]; [| |done].
  - destruct b.
    + destruct Hclimb as (Hacc & Hsize & Hrest).
      cbn [continueWith]. rewrite IH by lia. by rewrite Hrest, Hacc, bind_flat.
    + destruct Hclimb as (Hacc & Hrest). cbn. rewrite Hrest. cbn.
      by rewrite Hacc, app_nil_r.
  - destruct Hclimb as (-> & Hrest). cbn. by rewrite Hrest.
Qed.

Lemma changedNodesLoop_spec rootId fuel : loopInvariant rootId fuel.
Proof.
  induction fuel as [|fuel IH]; intros [[cn pn] [co po] acc] Hfuel;
    cbn [newCursor oldCursor currentNode path changedNodes] in *.
  { rewrite size_unfold in Hfuel. lia. }
  rewrite changedNodesLoop_S. unfold loopBody.
  cbn [newCursor oldCursor currentNode path changedNodes].
  rewrite (diffNode_unfold rootId cn co).
  rewrite size_unfold in Hfuel.
  destruct (hasChanges cn && negb (id cn =? rootId)); cbn [fst snd newCursor path].
  - (* a change unit: record it, do not descend *)
    rewrite after_climb by (done || lia). cbn.
    destruct (restUnits _ _ _) as [l'|]; cbn; [|done].
    by rewrite <- app_assoc.
  - unfold childCount. destruct cn as [i h sp ep si ei [|k ks]];
      cbn [children length Nat.ltb Nat.leb] in *.
    + (* a leaf *)
      rewrite after_climb by (done || lia). cbn [pairUp].
      destruct (restUnits _ _ _) as [l'|]; done.
    + (* descend to the first child *)
      unfold gotoFirstChild, lockstep.
      destruct co as [io ho spo epo sio eio [|ko kos]]; [done|].
      cbn -[changedNodesLoop diffNode restUnits pairUp].
      rewrite IH; cbn -[diffNode restUnits pairUp size] in *; [|lia].
      cbn [restUnits rights pairUp]. f_equal. symmetry. apply bind_assoc_app.
Qed.

Lemma pairUp_ext (f g : SyntaxNode -> SyntaxNode -> Completion (list ChangedNode)) ns :
  Forall (fun n => forall o, f n o = g n o) ns ->
  forall os, pairUp f ns os = pairUp g ns os.
Proof.
  induction 1 as [|n ns Hn _ IH]; intros os; [done|].
  destruct os as [|o os]; [done|]. cbn. by rewrite Hn, IH.
Qed.

Lemma nodes_unfold n : nodes n = n :: concat (map nodes (children n)).
Proof. by destruct n. Qed.

Lemma diffNode_changeUnits_inner rootId n :
  Forall (fun d => id d <> rootId) (nodes n) ->
  forall o, diffNode rootId n o = changeUnits false n o.
Proof.
  induction n as [i h sp ep si ei cs IH] using SyntaxNode_ind.
  intros Hids o. rewrite nodes_unfold in Hids. cbn [children] in Hids.
  apply Forall_cons in Hids as [Hi Hcs]. cbn [id] in Hi.
  cbn [diffNode changeUnits].
  replace (i =? rootId) with false by (symmetry; by apply Z.eqb_neq).
  destruct (h && negb false); [done|].
  apply pairUp_ext.
  induction IH as [|c cs Hc _ IHcs]; [done|].
  cbn [map concat] in Hcs. apply Forall_app in Hcs as [Hc' Hcs'].
  constructor; [by apply Hc | by apply IHcs].
Qed.

Lemma diffNode_changeUnits t o :
  uniqueIds t ->
  diffNode (id (rootNode t)) (rootNode t) o = changeUnits true (rootNode t) o.
Proof.
  unfold uniqueIds. destruct t as [[i h sp ep si ei cs]].
  cbn [rootNode id nodes map diffNode changeUnits].
  intros Hnd. apply NoDup_cons in Hnd as [Hi _].
  rewrite Z.eqb_refl, andb_false_r. cbn [negb].
  apply pairUp_ext. apply Forall_forall. intros c Hc o'.
  apply diffNode_changeUnits_inner. apply Forall_forall. intros d Hd Heq.
  apply Hi. rewrite <- Heq. apply list_elem_of_In, in_map, in_concat.
  exists (nodes c). split; [apply in_map|]; by apply list_elem_of_In.
Qed.

Lemma findChangedNodes_diffNode fuel newTree oldTree :
  (size (rootNode newTree) <= fuel)%nat ->
  findChangedNodes fuel newTree oldTree =
  Some (diffNode (id (rootNode newTree)) (rootNode newTree) (rootNode oldTree)).
Proof.
  intros Hfuel. unfold findChangedNodes.
  pose proof (changedNodesLoop_spec (id (rootNode newTree)) fuel
                {| newCursor := walk newTree; oldCursor := walk oldTree;
                   changedNodes := [] |}) as Hloop.
  cbn [newCursor oldCursor walk currentNode path changedNodes remaining restUnits] in Hloop.
  specialize (Hloop ltac:(lia)). unfold unitsOf in Hloop.
  destruct (changedNodesLoop _ _ _) as [[w|e]|]; rewrite Hloop;
    destruct (diffNode _ _ _); cbn; by rewrite ?app_nil_r.
Qed.

Lemma elem_of_childPaths f k ns p :
  p ∈ childPaths f k ns <->
  exists i c p', p = (k + i)%nat :: p' /\ ns !! i = Some c /\ p' ∈ f c.
Proof.
  revert k. induction ns as [|n ns IH]; intros k; cbn [childPaths].
  - split; [by intros ?%elem_of_nil | by intros (i & c & p' & _ & ? & _)].
  - rewrite elem_of_app, IH. split.
    + intros [Hin | (i & c & p' & -> & Hc & Hp')].
      * apply list_elem_of_In, in_map_iff in Hin as (p' & <- & Hp').
        exists O, n, p'. rewrite Nat.add_0_r. split_and!; [done..|].
        by apply list_elem_of_In.
      * exists (S i), c, p'. split_and!; [f_equal; lia|done..].
    + intros (i & c & p' & -> & Hc & Hp'). destruct i as [|i].
      * left. cbn in Hc. injection Hc as ->. rewrite Nat.add_0_r.
        apply list_elem_of_In, in_map. by apply list_elem_of_In.
      * right. exists i, c, p'. split_and!; [f_equal; lia|done..].
Qed.

Lemma unitPaths_unfold isRoot n :
  unitPaths isRoot n =
  if hasChanges n && negb isRoot then [[]]
  else childPaths (unitPaths false) 0 (children n).
Proof. by destruct n. Qed.

Lemma changeUnits_unfold isRoot n o :
  changeUnits isRoot n o =
  if hasChanges n && negb isRoot then Normal [(n, o)]
  else pairUp (changeUnits false) (children n) (children o).
Proof. by destruct n. Qed.

Lemma reported_child isRoot n i p' :
  hasChanges n && negb isRoot = false ->
  reported isRoot n (i :: p') <->
  exists c, children n !! i = Some c /\ reported false c p'.
Proof.
  intros Hn. split.
  - intros (_ & (m & Hm & Hch) & Hpre). cbn [nodeAt] in Hm.
    destruct (children n !! i) as [c|] eqn:Hc; [|done]. cbn in Hm.
    exists c. split; [done|]. split_and!; [done|by exists m|].
    intros q m' _ Hq Hne Hm'. apply (Hpre (i :: q) m'); [done| |congruence|].
    + by apply prefix_cons.
    + cbn [nodeAt]. by rewrite Hc.
  - intros (c & Hc & (_ & (m & Hm & Hch) & Hpre)). split_and!; [done| |].
    + exists m. cbn [nodeAt]. by rewrite Hc.
    + intros q m' Hroot Hq Hne Hm'. destruct q as [|j q].
      * cbn in Hm'. injection Hm' as <-.
        destruct isRoot; [by specialize (Hroot eq_refl)|].
        by rewrite andb_true_r in Hn.
      * apply prefix_cons_inv_1 in Hq as Hj. subst j.
        apply prefix_cons_inv_2 in Hq. cbn [nodeAt] in Hm'. rewrite Hc in Hm'.
        apply (Hpre q m'); [done|done|congruence|done].
Qed.

Lemma elem_of_unitPaths isRoot n p :
  p ∈ unitPaths isRoot n <-> reported isRoot n p.
Proof.
  revert isRoot p.
  induction n as [i h sp ep si ei cs IH] using SyntaxNode_ind. intros isRoot p.
  rewrite unitPaths_unfold. cbn [hasChanges children].
  destruct (h && negb isRoot) eqn:Hmark.
  - apply andb_true_iff in Hmark as [-> HnotRoot].
    apply negb_true_iff in HnotRoot as ->.
    rewrite list_elem_of_singleton. split.
    + intros ->. split_and!; [done|by eexists|].
      intros q m _ Hq Hne. apply prefix_nil_inv in Hq. done.
    + intros (_ & _ & Hpre). destruct p as [|j p]; [done|].
      specialize (Hpre [] _ ltac:(done) (prefix_nil _) ltac:(done) eq_refl). done.
  - rewrite elem_of_childPaths. split.
    + intros (j & c & p' & -> & Hc & Hp'). rewrite Nat.add_0_l.
      apply reported_child; [done|]. exists c. split; [done|].
      rewrite Forall_forall in IH. apply IH; [|done].
      by eapply list_elem_of_lookup_2.
    + intros Hrep. destruct p as [|j p'].
      * destruct Hrep as (Hroot & (m & Hm & Hch) & _). cbn in Hm. injection Hm as <-.
        cbn in Hch. subst h. destruct isRoot; [by specialize (Hroot eq_refl)|done].
      * apply reported_child in Hrep as (c & Hc & Hrep); [|done].
        exists j, c, p'. split_and!; [done..|].
        rewrite Forall_forall in IH. apply IH; [|done].
        by eapply list_elem_of_lookup_2.
Qed.

Lemma NoDup_childPaths f k ns :
  Forall (fun n => NoDup (f n)) ns -> NoDup (childPaths f k ns).
Proof.
  intros Hns. revert k. induction Hns as [|n ns Hn _ IH]; intros k; cbn [childPaths].
  - constructor.
  - apply NoDup_app. split_and!.
    + change (map (cons k) (f n)) with (cons k <$> f n).
      by apply (NoDup_fmap_2 _).
    + intros p Hp Hp'.
      apply list_elem_of_In, in_map_iff in Hp as (p1 & <- & _).
      apply elem_of_childPaths in Hp' as (i & c & p2 & Heq & _).
      injection Heq as Hk _. lia.
    + apply IH.
Qed.

Lemma NoDup_unitPaths isRoot n : NoDup (unitPaths isRoot n).
Proof.
  revert isRoot. induction n as [i h sp ep si ei cs IH] using SyntaxNode_ind.
  intros isRoot. cbn [unitPaths]. destruct (h && negb isRoot).
  - apply NoDup_singleton.
  - apply NoDup_childPaths. eapply Forall_impl; [exact IH|]. intros c Hc. apply Hc.
Qed.

Lemma unitAt_cons new old i p n o :
  children new !! i = Some n -> children old !! i = Some o ->
  unitAt new old (i :: p) = unitAt n o p.
Proof. intros Hn Ho. unfold unitAt. cbn [nodeAt]. by rewrite Hn, Ho. Qed.

Lemma pairUp_positions ns : 
  Forall (fun n => forall o l, changeUnits false n o = Normal l ->
            Forall2 (fun p u => unitAt n o p = Some u) (unitPaths false n) l) ns ->
  forall os k l,
    pairUp (changeUnits false) ns os = Normal l ->
    Forall2 (fun p u => exists i p' n o, p = (k + i)%nat :: p' /\
                          ns !! i = Some n /\ os !! i = Some o /\
                          unitAt n o p' = Some u)
            (childPaths (unitPaths false) k ns) l.
Proof.
  induction 1 as [|n ns Hn _ IH]; intros os k l Hl; cbn [pairUp childPaths] in *.
  - injection Hl as <-. constructor.
  - destruct os as [|o os]; [done|].
    destruct (changeUnits false n o) as [l1|] eqn:H1; [|done]. cbn in Hl.
    destruct (pairUp _ ns os) as [l2|] eqn:H2; [|done]. cbn in Hl.
    injection Hl as <-. apply Forall2_app.
    + change (map (cons k) (unitPaths false n)) with (cons k <$> unitPaths false n).
      apply Forall2_fmap_l. eapply Forall2_impl; [by apply Hn|].
      intros p u Hu. exists O, p, n, o. rewrite Nat.add_0_r. done.
    + eapply Forall2_impl; [by apply IH|].
      intros p u (i & p' & n' & o' & -> & Hn' & Ho' & Hu).
      exists (S i), p', n', o'. split_and!; [f_equal; lia|done..].
Qed.

Lemma changeUnits_positions isRoot n :
  forall o l, changeUnits isRoot n o = Normal l ->
    Forall2 (fun p u => unitAt n o p = Some u) (unitPaths isRoot n) l.
Proof.
  revert isRoot. induction n as [i h sp ep si ei cs IH] using SyntaxNode_ind.
  intros isRoot o l. rewrite changeUnits_unfold, unitPaths_unfold.
  cbn [hasChanges children]. destruct (h && negb isRoot).
  - intros [= <-]. by repeat constructor.
  - intros Hl. eapply Forall2_impl.
    + eapply (pairUp_positions cs); [|exact Hl].
      eapply Forall_impl; [exact IH|]. intros c Hc. apply Hc.
    + intros p u (j & p' & n' & o' & -> & Hn' & Ho' & Hu).
      rewrite Nat.add_0_l. by erewrite unitAt_cons.
Qed.

(** ** Facts about the session *)

Section SessionFacts.
Import Session.
Variable treeEdit : Tree -> InputEdit.t -> Tree.

Local Abbreviation step := (Session.step treeEdit).
Local Abbreviation run := (Session.run treeEdit).
Local Abbreviation onDidChangeContent := (Session.onDidChangeContent treeEdit).
Local Abbreviation changedRanges := (Session.changedRanges treeEdit).
Local Abbreviation _applyEdits := (Session._applyEdits treeEdit).

Lemma applyEdits_frame s model changes :
  let s' := _applyEdits s model changes in
  _isDisposed s' = _isDisposed s /\ modelDisposed s' = modelDisposed s /\
  queue s' = queue s /\ running s' = running s /\ promises s' = promises s /\
  treeSets s' = treeSets s /\ errorLog s' = errorLog s /\ telemetry s' = telemetry s.
Proof.
  revert s. induction changes as [|c cs IH]; intros s; cbn; [done|].
  destruct (IH (with_newEdits
                  (with_tree s (flip treeEdit (inputEdit model c) <$> _tree s)) true))
    as (-> & -> & -> & -> & -> & -> & -> & ->).
  done.
Qed.

Lemma changedRanges_state s model changes :
  (changedRanges s model changes).1 = _applyEdits s model changes.
Proof.
  unfold Session.changedRanges.
  destruct (_tree (_applyEdits s model changes)), (_tree s); done.
Qed.

Lemma inflight_applyEdits s model changes :
  inflight (_applyEdits s model changes) = inflight s.
Proof.
  unfold inflight.
  by destruct (applyEdits_frame s model changes) as (_ & _ & -> & -> & _).
Qed.

Lemma wf_call_lt s j : wf s -> j ∈ inflight s -> (call j < length (promises s))%nat.
Proof. intros [_ Hp] Hj. by eapply lookup_lt_Some, Hp. Qed.

Lemma wf_init : wf init.
Proof. split; [constructor | by intros j ?%elem_of_nil]. Qed.

Lemma wf_onDidChangeContent s model changes :
  wf s -> wf (onDidChangeContent s model changes).
Proof.
  intros Hwf. unfold Session.onDidChangeContent.
  pose proof (changedRanges_state s model changes) as Hst.
  destruct (changedRanges s model changes) as [s1 [r|e]]; cbn in Hst; subst s1.
  all: destruct (applyEdits_frame s model changes)
         as (_ & _ & Hq & Hr & Hp & _).
  all: destruct Hwf as [Hnd Hpend]; unfold wf, inflight in *; cbn; rewrite Hq, Hr, Hp.
  - split.
    + rewrite app_assoc, fmap_app. cbn. apply NoDup_app. split_and!; [done| |apply NoDup_singleton].
      intros c Hc ->%list_elem_of_singleton.
      apply list_elem_of_fmap in Hc as (j & Hj & Hin).
      apply Hpend, lookup_lt_Some in Hin. lia.
    + intros j. rewrite app_assoc, elem_of_app. intros [Hj | ->%list_elem_of_singleton].
      * rewrite lookup_app_l; [by apply Hpend|]. by eapply lookup_lt_Some, Hpend.
      * cbn. by rewrite lookup_app_r, Nat.sub_diag.
  - split; [done|]. intros j Hj.
    rewrite lookup_app_l; [by apply Hpend|]. by eapply lookup_lt_Some, Hpend.
Qed.

Lemma wf_resume s turn : wf s -> wf (resume s turn).
Proof.
  intros [Hnd Hpend]. unfold resume, wf, inflight in *.
  destruct s as [t d ne md q r ps ts el tm]; cbn in *.
  destruct r as [[j a]|]; cbn in *.
  - unfold resumeJob; cbn.
    destruct a as [tree passes pt | [tree|e] | [[]|e]]; cbn.
    + destruct (md || d); cbn; [done|].
      destruct (negb (truthy tree) && negb ne); cbn; [done|].
      destruct (telemetryFault turn); done.
    + destruct (negb ne); done.
    + done.
    + apply NoDup_cons in Hnd as [Hj Hnd]. split; [done|].
      intros j' Hj'. rewrite list_lookup_insert_ne.
      * apply Hpend. by right.
      * intros Heq. apply Hj. rewrite Heq. by apply list_elem_of_fmap_2.
    + apply NoDup_cons in Hnd as [Hj Hnd]. split; [done|].
      intros j' Hj'. apply Hpend. by right.
  - destruct q as [|j q]; cbn; [done|]. unfold startJob; cbn.
    destruct d; cbn; [|done].
    apply NoDup_cons in Hnd as [Hj Hnd]. split; [done|].
    intros j' Hj'. apply Hpend. by right.
Qed.

Lemma wf_step s ev : wf s -> wf (step s ev).
Proof.
  destruct ev; cbn; [apply wf_onDidChangeContent| | |apply wf_resume];
    by destruct s.
Qed.

Lemma wf_run s evs : wf s -> wf (run s evs).
Proof.
  revert s. induction evs as [|ev evs IH]; intros s Hwf; [done|].
  cbn. by apply IH, wf_step.
Qed.

Lemma tracked_lt c r s : wf s -> tracked c r s -> (c < length (promises s))%nat.
Proof.
  intros Hwf [Hj | [_ [Hp | Hp]]]; [|by eapply lookup_lt_Some..].
  by apply (wf_call_lt s (mkJob c r)).
Qed.

Lemma tracked_onDidChangeContent c r s model changes :
  wf s -> tracked c r s -> tracked c r (onDidChangeContent s model changes).
Proof.
  intros Hwf Htr. pose proof (tracked_lt c r s Hwf Htr) as Hlt.
  unfold Session.onDidChangeContent.
  pose proof (changedRanges_state s model changes) as Hst.
  destruct (changedRanges s model changes) as [s1 [r'|e]]; cbn in Hst; subst s1.
  all: destruct (applyEdits_frame s model changes) as (_ & _ & Hq & Hr & Hp & _).
  all: unfold tracked, inflight in *; cbn; rewrite Hq, Hr, Hp.
  all: rewrite (lookup_app_l (promises s)) by done.
  - destruct Htr as [Hj | [Hc Hpr]].
    + left. rewrite app_assoc, elem_of_app. by left.
    + right. split; [|done]. rewrite app_assoc, fmap_app, elem_of_app.
      intros [?|Heq%list_elem_of_singleton]; [done|]. cbn in Heq. lia.
  - done.
Qed.

Lemma tracked_resume c r s turn :
  wf s -> tracked c r s -> tracked c r (resume s turn).
Proof.
  intros Hwf Htr. pose proof (tracked_lt c r s Hwf Htr) as Hlt.
  destruct Hwf as [Hnd Hpend]. unfold resume, tracked, inflight in *.
  destruct s as [t d ne md q rn ps ts el tm]; cbn in *.
  destruct rn as [[j a]|]; cbn in *.
  - unfold resumeJob; cbn.
    destruct a as [tree passes pt | [tree|e] | [[]|e]]; cbn.
    + destruct (md || d); cbn; [done|].
      destruct (negb (truthy tree) && negb ne); cbn; [done|].
      destruct (telemetryFault turn); done.
    + destruct (negb ne); done.
    + done.
    + apply NoDup_cons in Hnd as [Hj Hnd].
      destruct Htr as [[<-|Hin]%elem_of_cons | [Hc Hpr]].
      * right. cbn in *. split; [done|]. right. by apply list_lookup_insert_eq.
      * by left.
      * apply not_elem_of_cons in Hc as [Hne Hc].
        right. split; [done|]. by rewrite list_lookup_insert_ne.
    + apply NoDup_cons in Hnd as [Hj Hnd].
      destruct Htr as [[<-|Hin]%elem_of_cons | [Hc Hpr]].
      * right. cbn in *. split; [done|]. left. apply (Hpend (mkJob c r)). by left.
      * by left.
      * apply not_elem_of_cons in Hc as [Hne Hc]. by right.
  - destruct q as [|j q]; cbn; [done|]. unfold startJob; cbn.
    destruct d; cbn; [|done].
    apply NoDup_cons in Hnd as [Hj Hnd].
    destruct Htr as [[<-|Hin]%elem_of_cons | [Hc Hpr]].
    + right. cbn in *. split; [done|]. left. apply (Hpend (mkJob c r)). by left.
    + by left.
    + apply not_elem_of_cons in Hc as [Hne Hc]. by right.
Qed.

Lemma tracked_step c r s ev : wf s -> tracked c r s -> tracked c r (step s ev).
Proof.
  destruct ev; cbn; [apply tracked_onDidChangeContent| | |apply tracked_resume];
    by destruct s.
Qed.

Lemma tracked_run c r s evs : wf s -> tracked c r s -> tracked c r (run s evs).
Proof.
  revert s. induction evs as [|ev evs IH]; intros s Hwf Htr; [done|].
  cbn. apply IH; [by apply wf_step | by apply tracked_step].
Qed.

Lemma abandoned_onDidChangeContent c s model changes :
  wf s -> abandoned c s -> abandoned c (onDidChangeContent s model changes).
Proof.
  intros Hwf [Hp Hab]. pose proof (lookup_lt_Some _ _ _ Hp) as Hlt.
  unfold Session.onDidChangeContent.
  pose proof (changedRanges_state s model changes) as Hst.
  destruct (changedRanges s model changes) as [s1 [r'|e]]; cbn in Hst; subst s1.
  all: destruct (applyEdits_frame s model changes) as (Hd & _ & Hq & Hr & Hps & _).
  all: unfold abandoned, inflight in *; cbn; rewrite ?Hd, Hq, Hr, Hps.
  all: rewrite (lookup_app_l (promises s)) by done.
  all: split; [done|].
  - destruct Hab as [Hc | [[Hdis Hc] | Hthrow]].
    + left. rewrite app_assoc, fmap_app, elem_of_app.
      intros [?|Heq%list_elem_of_singleton]; [done|]. cbn in Heq. lia.
    + right; left. split; [done|]. rewrite fmap_app, elem_of_app. by left.
    + by right; right.
  - done.
Qed.

Lemma abandoned_resume c s turn :
  wf s -> abandoned c s -> abandoned c (resume s turn).
Proof.
  intros [Hnd Hpend] [Hp Hab]. pose proof (lookup_lt_Some _ _ _ Hp) as Hlt.
  unfold resume, abandoned, inflight in *.
  destruct s as [t d ne md q rn ps ts el tm]; cbn in *.
  destruct rn as [[j a]|]; cbn in *.
  - unfold resumeJob; cbn.
    apply NoDup_cons in Hnd as [Hj Hnd].
    destruct a as [tree passes pt | [tree|e] | [[]|e]]; cbn.
    + assert (c ∉ call j :: (call <$> q) \/ d = true /\ c ∈ call <$> q) as Hab'.
      { destruct Hab as [?|[?|(j' & e' & _ & [?|?])]]; by eauto. }
      destruct (md || d); cbn; [by split; [|destruct Hab'; eauto]|].
      destruct (negb (truthy tree) && negb ne); cbn; [by split; [|destruct Hab'; eauto]|].
      destruct (telemetryFault turn); cbn; (split; [done|]).
      * destruct Hab' as [Hc|?]; [|by eauto].
        left. done.
      * destruct Hab'; by eauto.
    + assert (c ∉ call j :: (call <$> q) \/ d = true /\ c ∈ call <$> q) as Hab'.
      { destruct Hab as [?|[?|(j' & e' & _ & [?|?])]]; by eauto. }
      destruct (negb ne); cbn; (split; [done|]); destruct Hab'; by eauto.
    + split; [done|]. destruct Hab as [?|[?|(j' & e' & Hc & [[= <- <-]|?])]]; [by eauto..| |done].
      right; right. exists j, e. by eauto.
    + assert (c <> call j) as Hne.
      { intros ->. destruct Hab as [Hc|[[_ Hc]|(j' & e' & _ & [?|?])]]; [|done..].
        apply Hc. by left. }
      rewrite list_lookup_insert_ne by done. split; [done|].
      destruct Hab as [Hc|[?|(j' & e' & _ & [?|?])]]; [|by eauto|done..].
      left. by apply not_elem_of_cons in Hc as [_ ?].
    + split; [done|]. 
      destruct Hab as [Hc|[[Hd Hc]|(j' & e' & Hc & [?|[= <- <-]])]]; [|by eauto|done|].
      * left. by apply not_elem_of_cons in Hc as [_ ?].
      * left. by subst c.
  - destruct q as [|j q]; cbn; [done|]. unfold startJob; cbn.
    apply NoDup_cons in Hnd as [Hj Hnd].
    destruct d; cbn; (split; [done|]).
    + destruct Hab as [Hc|[[_ Hc]|(j' & e' & _ & [?|?])]]; [| |done..].
      * left. by apply not_elem_of_cons in Hc as [_ ?].
      * apply elem_of_cons in Hc as [->|Hc]; [by left|]. right; left. done.
    + destruct Hab as [Hc|[[? _]|(j' & e' & _ & [?|?])]]; [|done..].
      left. done.
Qed.

Lemma abandoned_step c s ev : wf s -> abandoned c s -> abandoned c (step s ev).
Proof.
  destruct ev; cbn; [apply abandoned_onDidChangeContent| | |apply abandoned_resume];
    destruct s; cbn; try done.
  all: intros _ [Hp Hab]; split; [done|]; cbn in *.
  all: destruct Hab as [?|[[? ?]|?]]; by eauto.
Qed.

Lemma abandoned_run c s evs : wf s -> abandoned c s -> abandoned c (run s evs).
Proof.
  revert s. induction evs as [|ev evs IH]; intros s Hwf Hab; [done|].
  cbn. apply IH; [by apply wf_step | by apply abandoned_step].
Qed.

Lemma run_app s evs1 evs2 : run s (evs1 ++ evs2) = run (run s evs1) evs2.
Proof. apply foldl_app. Qed.

Lemma applyEdits_newEdits s model changes :
  _newEdits (_applyEdits s model changes) =
  _newEdits s || match changes with [] => false | _ => true end.
Proof.
  destruct changes as [|c cs]; cbn; [by rewrite orb_false_r|].
  rewrite orb_true_r.
  generalize (with_tree s (flip treeEdit (inputEdit model c) <$> _tree s)).
  intros s1. assert (_newEdits (with_newEdits s1 true) = true) as H by done.
  revert H. generalize (with_newEdits s1 true). clear.
  induction cs as [|c cs IH]; intros s H; cbn; [done|]. by apply IH.
Qed.

Lemma arrival_frame s ev :
  arrival ev = true ->
  running (step s ev) = running s /\ treeSets (step s ev) = treeSets s /\
  errorLog (step s ev) = errorLog s /\
  _newEdits (step s ev) = _newEdits s || appliesEdits ev.
Proof.
  destruct ev as [model changes| | |turn]; [| | |done]; intros _; cbn.
  - unfold Session.onDidChangeContent.
    pose proof (changedRanges_state s model changes) as Hst.
    destruct (changedRanges s model changes) as [s1 [r|e]]; cbn in Hst; subst s1.
    all: destruct (applyEdits_frame s model changes)
           as (_ & _ & _ & Hr & _ & Hts & Hel & _).
    all: cbn; rewrite Hr, Hts, Hel, applyEdits_newEdits; by destruct changes.
  - by rewrite orb_false_r.
  - by rewrite orb_false_r.
Qed.

Lemma arrivals_frame s evs :
  forallb arrival evs = true ->
  running (run s evs) = running s /\ treeSets (run s evs) = treeSets s /\
  errorLog (run s evs) = errorLog s /\
  _newEdits (run s evs) = _newEdits s || existsb appliesEdits evs.
Proof.
  revert s. induction evs as [|ev evs IH]; intros s Hq.
  - cbn. by rewrite orb_false_r.
  - cbn in Hq. apply andb_true_iff in Hq as [Hev Hevs].
    change (run s (ev :: evs)) with (run (step s ev) evs). cbn [existsb].
    destruct (arrival_frame s ev Hev) as (Hr & Hts & Hel & Hne).
    destruct (IH (step s ev) Hevs) as (-> & -> & -> & ->).
    by rewrite Hr, Hts, Hel, Hne, orb_assoc.
Qed.

Lemma diffNode_throws rootId n :
  forall o e, diffNode rootId n o = Throw e -> e = outOfSync.
Proof.
  induction n as [i h sp ep si ei cs IH] using SyntaxNode_ind. intros o e.
  cbn [diffNode]. destruct (h && negb (i =? rootId)); [done|].
  generalize (children o). induction IH as [|c cs Hc _ IHcs]; intros os; cbn; [done|].
  destruct os as [|o' os]; [by intros [= <-]|].
  destruct (diffNode rootId c o') as [l|e'] eqn:Hd; cbn.
  - destruct (pairUp _ cs os) as [l'|e'] eqn:Hp; cbn; [done|].
    intros [= <-]. by eapply IHcs.
  - intros [= <-]. by eapply Hc.
Qed.

Lemma changedNodesOf_diffNode newTree oldTree :
  changedNodesOf newTree oldTree =
  diffNode (id (rootNode newTree)) (rootNode newTree) (rootNode oldTree).
Proof. unfold changedNodesOf. by rewrite findChangedNodes_diffNode. Qed.

Lemma changedRanges_throws s model changes s1 e :
  changedRanges s model changes = (s1, Throw e) -> e = outOfSync.
Proof.
  unfold Session.changedRanges.
  destruct (_tree (_applyEdits s model changes)) as [t|]; [|done].
  destruct (_tree s) as [t0|]; [|done].
  rewrite changedNodesOf_diffNode.
  destruct (diffNode _ _ _) as [l|e'] eqn:Hd; cbn; [done|].
  intros [= _ <-]. by eapply diffNode_throws.
Qed.

End SessionFacts.

(** ** Facts about the cache and the catalog *)

Section CacheFacts.
Context {TKey : Type} `{Countable TKey} {T : Type}.
Implicit Types (c : gmap TKey (PromiseWithSyncAccess T)) (k : TKey).

Lemma getSyncIfCached_normal c k :
  AsyncCache.getSyncIfCached c k =
  Normal (match c !! k with
          | Some p => match _result p with
                      | Some r => data r
                      | None => None
                      end
          | None => None
          end).
Proof.
  unfold AsyncCache.getSyncIfCached, optChain.
  destruct (c !! k) as [p|]; [|done]. by destruct (_result p).
Qed.

Lemma isCached_normal c k :
  AsyncCache.isCached c k =
  Normal (match c !! k with
          | Some p => truthy (_result p)
          | None => false
          end).
Proof. unfold AsyncCache.isCached, optChain. by destruct (c !! k). Qed.

Lemma get_normal c k : AsyncCache.get c k = Normal (promise <$> c !! k).
Proof. unfold AsyncCache.get, optChain. by destruct (c !! k). Qed.

End CacheFacts.

Section LanguagesFacts.
Import Languages.
Variable nodeModules : string.

Local Abbreviation step := (Languages.step nodeModules).
Local Abbreviation run := (Languages.run nodeModules).

Lemma occurrences_snoc languageId l k :
  occurrences languageId (l ++ [k]) =
  (occurrences languageId l + if bool_decide (k = languageId) then 1 else 0)%nat.
Proof.
  unfold occurrences. rewrite filter_app, length_app. f_equal.
  rewrite filter_cons, filter_nil.
  destruct (decide (k = languageId));
    [by rewrite bool_decide_true | by rewrite bool_decide_false].
Qed.

Lemma addLanguage_effect s k :
  _addLanguage nodeModules s k =
  Normal (match _languages s !! k with
          | Some _ => (s, false)
          | None =>
              let '(s1, fetching) := _fetchLanguage nodeModules s k in
              (mkState (AsyncCache.set (_languages s1) k fetching)
                 (_registeredLanguages s1) (addLanguageWaits s1 ++ [k])
                 (getLanguageWaits s1) (results s1) (fired s1) (fetched s1)
                 (readFiles s1), true)
          end).
Proof.
  unfold _addLanguage. rewrite get_normal. cbn.
  destruct (_languages s !! k); cbn; [done|].
  by destruct (_fetchLanguage nodeModules s k).
Qed.

Lemma fetchLanguage_frame s k :
  let '(s1, fetching) := _fetchLanguage nodeModules s k in
  _languages s1 = _languages s /\ addLanguageWaits s1 = addLanguageWaits s /\
  fired s1 = fired s /\ fetched s1 = fetched s ++ [k] /\
  results s1 = results s /\ getLanguageWaits s1 = getLanguageWaits s.
Proof.
  unfold _fetchLanguage. cbn.
  by destruct (negb _ || negb _).
Qed.

Lemma catalogInv_addLanguage languageId s k s1 started :
  _addLanguage nodeModules s k = Normal (s1, started) ->
  catalogInv languageId s -> catalogInv languageId s1.
Proof.
  rewrite addLanguage_effect. intros [= Heq]. revert Heq.
  destruct (_languages s !! k) as [p|] eqn:Hk; [by intros [= <- _]|].
  pose proof (fetchLanguage_frame s k) as Hfr.
  destruct (_fetchLanguage nodeModules s k) as [s0 fetching].
  destruct Hfr as (Hl & Hw & Hf & Hfe & _). intros [= <- _].
  unfold catalogInv, firedFor, AsyncCache.set.
  cbn [_languages fetched fired addLanguageWaits]. rewrite Hl, Hw, Hf, Hfe.
  rewrite !occurrences_snoc. destruct (decide (k = languageId)) as [->|Hne].
  - rewrite lookup_insert_eq, Hk, bool_decide_true by done. cbn.
    intros (-> & -> & ->). done.
  - rewrite lookup_insert_ne, bool_decide_false, !Nat.add_0_r by done. done.
Qed.

Lemma catalogInv_init languageId registered : catalogInv languageId (init registered).
Proof. unfold catalogInv. cbn. by rewrite lookup_empty. Qed.

Lemma getOrInitLanguage_state s k :
  (is_Some (_languages s !! k) /\ step s (GetOrInitLanguage k) = s) \/
  exists started, _addLanguage nodeModules s k = Normal (step s (GetOrInitLanguage k), started).
Proof.
  cbn. unfold getOrInitLanguage. rewrite isCached_normal, getSyncIfCached_normal. cbn.
  destruct (_languages s !! k) as [p|] eqn:Hk.
  - left. split; [done|]. destruct (truthy (_result p)); cbn; [done|].
    rewrite addLanguage_effect. cbn. by rewrite Hk.
  - right. cbn. rewrite addLanguage_effect. cbn. rewrite Hk.
    destruct (_fetchLanguage nodeModules s k). by eexists.
Qed.

Lemma getLanguage_state s k :
  exists s1,
    ((is_Some (_languages s !! k) /\ s1 = s) \/
     exists started, _addLanguage nodeModules s k = Normal (s1, started)) /\
    _languages (step s (GetLanguage k)) = _languages s1 /\
    addLanguageWaits (step s (GetLanguage k)) = addLanguageWaits s1 /\
    fired (step s (GetLanguage k)) = fired s1 /\
    fetched (step s (GetLanguage k)) = fetched s1 /\
    readFiles (step s (GetLanguage k)) = readFiles s1.
Proof.
  cbn. unfold getLanguage, getLanguageBody.
  rewrite isCached_normal, getSyncIfCached_normal. cbn.
  destruct (_languages s !! k) as [p|] eqn:Hk.
  - exists s. split; [by left|]. destruct (truthy (_result p)); cbn; [done|].
    rewrite addLanguage_effect. cbn. by rewrite Hk.
  - cbn. rewrite addLanguage_effect. cbn. rewrite Hk.
    destruct (_fetchLanguage nodeModules s k) as [s0 fetching]. cbn.
    eexists. split; [right; by eexists|]. done.
Qed.

Lemma catalogInv_frame languageId s s' :
  _languages s' = _languages s -> addLanguageWaits s' = addLanguageWaits s ->
  fired s' = fired s -> fetched s' = fetched s ->
  catalogInv languageId s -> catalogInv languageId s'.
Proof. unfold catalogInv, firedFor. by intros -> -> -> ->. Qed.

Lemma firedFor_app languageId s extra :
  filter (fun b => fst b = languageId) (fired s ++ extra) =
  firedFor languageId s ++ filter (fun b => fst b = languageId) extra.
Proof. unfold firedFor. by rewrite filter_app. Qed.

Lemma occurrences_filter_ne languageId k l :
  occurrences languageId (filter (fun x => x <> k) l) =
  if bool_decide (k = languageId) then O else occurrences languageId l.
Proof.
  unfold occurrences. induction l as [|x l IH]; [by case_bool_decide|].
  rewrite !filter_cons. destruct (decide (x <> k)) as [Hx|Hx].
  - rewrite filter_cons. destruct (decide (x = languageId)) as [->|Hx'].
    + cbn. rewrite IH. by rewrite !bool_decide_false by done.
    + rewrite IH. done.
  - apply dec_stable in Hx as ->. rewrite IH.
    destruct (decide (k = languageId)) as [->|Hne].
    + by rewrite !bool_decide_true.
    + by rewrite !bool_decide_false.
Qed.

Lemma resumes_for languageId k load (adds : list string) :
  filter (fun b : string * Language => fst b = languageId)
         (adds ≫= (fun _ => addLanguageResumes k load)) =
  if bool_decide (k = languageId) then adds ≫= (fun _ => addLanguageResumes k load) else [].
Proof.
  induction adds as [|a adds IH]; cbn; [by case_bool_decide|].
  rewrite filter_app, IH. unfold addLanguageResumes at 1 3.
  destruct load as [|[l|]|e]; [done| |done..].
  rewrite filter_cons, filter_nil. cbn [fst].
  destruct (decide (k = languageId)) as [->|Hne].
  - by rewrite bool_decide_true.
  - by rewrite bool_decide_false.
Qed.

Lemma catalogInv_react languageId s k :
  catalogInv languageId s -> catalogInv languageId (react s k).
Proof.
  intros Hinv. unfold react.
  destruct (_languages s !! k) as [p|] eqn:Hk; [|done].
  assert (forall load, promise p = load -> load <> Pending -> _result p = None ->
    catalogInv languageId
      (mkState (AsyncCache.react (_languages s) k) (_registeredLanguages s)
         (filter (fun x => x <> k) (addLanguageWaits s))
         (filter (fun w => snd (fst w) <> k) (getLanguageWaits s))
         (settleWaits k load (getLanguageWaits s) (results s))
         (fired s ++ (filter (fun x => x = k) (addLanguageWaits s)
                      ≫= (fun _ => addLanguageResumes k load)))
         (fetched s) (readFiles s))) as Hgen.
  { intros load Hp Hload Hr.
    unfold catalogInv, firedFor, AsyncCache.react in *.
    cbn [_languages fetched fired addLanguageWaits].
    rewrite filter_app, resumes_for, occurrences_filter_ne.
    destruct (decide (k = languageId)) as [->|Hne].
    - rewrite !bool_decide_true by done. rewrite lookup_alter_eq. rewrite Hk in *. cbn.
      rewrite Hr in Hinv. destruct Hinv as (Hf & Hfired & Hw).
      assert (_result (PromiseWithSyncAccess.react p) <> None /\
              promise (PromiseWithSyncAccess.react p) = load) as [Hr' Hp'].
      { unfold PromiseWithSyncAccess.react. rewrite Hp. by destruct load. }
      destruct (_result (PromiseWithSyncAccess.react p)); [|done].
      rewrite Hp', Hfired. split_and!; [done..|].
      unfold occurrences in Hw.
      destruct (filter (fun x => x = languageId) (addLanguageWaits s)) as [|a [|b l]];
        [done| |done].
      cbn. by rewrite app_nil_r.
    - rewrite !bool_decide_false by done. rewrite lookup_alter_ne by done.
      by rewrite app_nil_r. }
  destruct (promise p) as [|v|e] eqn:Hp; [done| |];
    (destruct (_result p) as [r|] eqn:Hr; [done|]); by apply Hgen.
Qed.

Lemma catalogInv_fetchSettles languageId s k outcome :
  catalogInv languageId s -> catalogInv languageId (fetchSettles s k outcome).
Proof.
  unfold catalogInv, fetchSettles, firedFor, AsyncCache.settle.
  cbn [_languages fetched fired addLanguageWaits].
  destruct (decide (k = languageId)) as [->|Hne]; [|by rewrite lookup_alter_ne].
  rewrite lookup_alter_eq. destruct (_languages s !! languageId) as [p|]; [|done]. cbn.
  unfold PromiseWithSyncAccess.settle.
  destruct (promise p) eqn:Hp; cbn; rewrite ?Hp; try done.
  destruct (_result p); [|done]. by intros (_ & _ & ? & _).
Qed.

Lemma catalogInv_step languageId s ev :
  catalogInv languageId s -> catalogInv languageId (step s ev).
Proof.
  intros Hinv. destruct ev as [k|k|k o|k|k g|k].
  - destruct (getOrInitLanguage_state s k) as [[_ ->] | [started Hadd]]; [done|].
    by eapply catalogInv_addLanguage.
  - destruct (getLanguage_state s k) as (s1 & Hs1 & Hl & Hw & Hf & Hfe & _).
    apply (catalogInv_frame languageId s1); [done..|].
    destruct Hs1 as [[_ ->] | [started Hadd]]; [done|]. by eapply catalogInv_addLanguage.
  - by apply catalogInv_fetchSettles.
  - by apply catalogInv_react.
  - cbn. unfold _addGrammar. by destruct (negb _).
  - cbn. unfold _removeGrammar. by destruct (bool_decide _).
Qed.

Lemma catalogInv_run languageId s evs :
  catalogInv languageId s -> catalogInv languageId (run s evs).
Proof.
  revert s. induction evs as [|ev evs IH]; intros s Hinv; [done|].
  cbn. by apply IH, catalogInv_step.
Qed.

Lemma addLanguage_present s k s1 started languageId :
  _addLanguage nodeModules s k = Normal (s1, started) ->
  is_Some (_languages s1 !! languageId) <->
  is_Some (_languages s !! languageId) \/ k = languageId.
Proof.
  rewrite addLanguage_effect. intros [= Heq]. revert Heq.
  destruct (_languages s !! k) as [p|] eqn:Hk.
  - intros [= <- _]. split; [by left|]. intros [?| <-]; [done|by eexists].
  - pose proof (fetchLanguage_frame s k) as Hfr.
    destruct (_fetchLanguage nodeModules s k) as [s0 fetching].
    destruct Hfr as (Hl & _). intros [= <- _]. cbn. rewrite Hl.
    unfold AsyncCache.set. rewrite lookup_insert.
    case_decide; [subst; split; by eauto|]. split; [by left|]. by intros [?|?].
Qed.

Lemma cached_present s k :
  AsyncCache.isCached (_languages s) k = Normal true -> is_Some (_languages s !! k).
Proof. rewrite isCached_normal. by destruct (_languages s !! k). Qed.

Lemma present_step languageId s ev :
  is_Some (_languages (step s ev) !! languageId) <->
  is_Some (_languages s !! languageId) \/ requests languageId ev = true.
Proof.
  destruct ev as [k|k|k o|k|k g|k]; cbn [requests].
  - rewrite bool_decide_eq_true.
    destruct (getOrInitLanguage_state s k) as [[Hk ->] | [started Hadd]].
    + split; [by left|]. by intros [?| <-].
    + by eapply addLanguage_present.
  - rewrite bool_decide_eq_true.
    destruct (getLanguage_state s k) as (s1 & Hs1 & -> & _).
    destruct Hs1 as [[Hk ->] | [started Hadd]]; [|by eapply addLanguage_present].
    split; [by left|]. by intros [?| <-].
  - cbn. unfold AsyncCache.settle. rewrite lookup_alter.
    case_decide; subst; rewrite ?fmap_is_Some; split; by eauto || intros [?|?].
  - cbn. unfold react. destruct (_languages s !! k) as [p|] eqn:Hk;
      [|split; by eauto || intros [?|?]].
    destruct (promise p), (_result p); try (split; by eauto || intros [?|?]).
    all: cbn; unfold AsyncCache.react; rewrite lookup_alter.
    all: case_decide; subst; rewrite ?fmap_is_Some; split; by eauto || intros [?|?].
  - cbn. unfold _addGrammar. destruct (negb _); split; by eauto || intros [?|?].
  - cbn. unfold _removeGrammar. destruct (bool_decide _); split; by eauto || intros [?|?].
Qed.

Lemma present_run languageId evs : forall s,
  is_Some (_languages (run s evs) !! languageId) <->
  is_Some (_languages s !! languageId) \/ existsb (requests languageId) evs = true.
Proof.
  induction evs as [|ev evs IH]; intros s.
  - cbn. split; [by left|]. by intros [?|?].
  - change (run s (ev :: evs)) with (run (step s ev) evs).
    rewrite IH, present_step. cbn [existsb]. rewrite orb_true_iff. tauto.
Qed.

Lemma fetchLanguage_reads s k :
  let '(s1, fetching) := _fetchLanguage nodeModules s k in
  fetched s1 = fetched s ++ [k] /\
  (readFiles s1 = readFiles s \/ exists path, readFiles s1 = readFiles s ++ [(k, path)]).
Proof.
  unfold _fetchLanguage. cbn.
  destruct (negb _ || negb _); cbn; split; by eauto.
Qed.

Lemma readsInv_addLanguage languageId s k s1 started :
  _addLanguage nodeModules s k = Normal (s1, started) ->
  readsInv languageId s -> readsInv languageId s1.
Proof.
  rewrite addLanguage_effect. intros [= Heq]. revert Heq.
  destruct (_languages s !! k) as [p|] eqn:Hk; [by intros [= <- _]|].
  pose proof (fetchLanguage_reads s k) as Hfr.
  destruct (_fetchLanguage nodeModules s k) as [s0 fetching].
  destruct Hfr as (Hfe & Hrd). intros [= <- _].
  unfold readsInv. cbn [fetched readFiles]. rewrite Hfe, occurrences_snoc.
  destruct Hrd as [-> | [path ->]]; [lia|].
  rewrite fmap_app. change (fst <$> [(k, path)]) with [k]. rewrite occurrences_snoc. lia.
Qed.

Lemma readsInv_step languageId s ev :
  readsInv languageId s -> readsInv languageId (step s ev).
Proof.
  intros Hinv. destruct ev as [k|k|k o|k|k g|k].
  - destruct (getOrInitLanguage_state s k) as [[_ ->] | [started Hadd]]; [done|].
    by eapply readsInv_addLanguage.
  - destruct (getLanguage_state s k) as (s1 & Hs1 & _ & _ & _ & Hfe & Hrd).
    unfold readsInv. rewrite Hfe, Hrd.
    destruct Hs1 as [[_ ->] | [started Hadd]]; [done|]. by eapply readsInv_addLanguage.
  - done.
  - cbn. unfold react. destruct (_languages s !! k) as [p|]; [|done].
    by destruct (promise p), (_result p).
  - cbn. unfold _addGrammar. by destruct (negb _).
  - cbn. unfold _removeGrammar. by destruct (bool_decide _).
Qed.

Lemma readsInv_run languageId s evs :
  readsInv languageId s -> readsInv languageId (run s evs).
Proof.
  revert s. induction evs as [|ev evs IH]; intros s Hinv; [done|].
  cbn. by apply IH, readsInv_step.
Qed.

Lemma min_one_count {A} (f : A -> bool) (l : list A) :
  Nat.min 1 (length (filter f l)) = if existsb f l then 1%nat else O.
Proof.
  induction l as [|x l IH]; [done|]. rewrite filter_cons. cbn [existsb].
  destruct (f x); cbn; [|done]. by destruct (length (filter f l)).
Qed.

End LanguagesFacts.

Example exampleParsed_state :
  Session._tree (exampleParsed markingEdit) = Some exampleOld /\
  Session.running (exampleParsed markingEdit) = None /\
  Session.queue (exampleParsed markingEdit) = [] /\
  Session.promises (exampleParsed markingEdit) = [Fulfilled None].
Proof. vm_compute. done. Qed.

Example exampleEdited_state :
  Session.queue (exampleEdited markingEdit) = [Session.mkJob 1 exampleRanges] /\
  Session.promises (exampleEdited markingEdit) = [Fulfilled None; Pending].
Proof. vm_compute. done. Qed.

Example findChangedNodes_example :
  findChangedNodes 5 exampleNew exampleOld =
  Some (Normal [ (mkNode 1 true (mkPoint 0 0) (mkPoint 0 3) 0 3
                    [ leaf 3 true 0 2; leaf 4 false 2 3 ],
                  mkNode 1 false (mkPoint 0 0) (mkPoint 0 2) 0 2
                    [ leaf 3 false 0 1; leaf 4 false 1 2 ]) ]).
Proof. vm_compute. done. Qed.

Example findChangedNodes_out_of_sync :
  findChangedNodes 6 exampleGrown exampleOld = Some (Throw outOfSync).
Proof. vm_compute. done. Qed.

(** ** The claims about the parse session *)

Section SessionClaims.
Import Session.
Variable treeEdit : Tree -> InputEdit.t -> Tree.

Local Abbreviation step := (Session.step treeEdit).
Local Abbreviation run := (Session.run treeEdit).
Local Abbreviation changedRanges := (Session.changedRanges treeEdit).

Lemma applyEdits_tree s model changes :
  _tree (Session._applyEdits treeEdit s model changes) =
  editedTree treeEdit model changes <$> _tree s.
Proof.
  revert s. induction changes as [|c cs IH]; intros s; cbn.
  - by destruct (_tree s).
  - rewrite IH. cbn. by destruct (_tree s).
Qed.

(** C1 (amended). For a content change delivered to a session that holds a
    tree, [onDidChangeContent] computes the changed ranges from the prior
    tree and the edited tree before it returns and appends the reparse to
    the tail of the session's queue; the promise it returns is pending at
    that point, is only ever resolved with exactly those ranges, and is
    resolved only once the queued reparse has left the queue and run to its
    end. *)
Theorem onDidChangeContent_resolves_after_reparse
    (s : State) (model : ITextModel) (changes : list IModelContentChange)
    (t : Tree) (s1 : State) (r : option (list RangeChange)) :
  wf s ->
  _tree s = Some t ->
  changedRanges s model changes = (s1, Normal r) ->
  let c := length (promises s) in
  let s' := step s (OnDidChangeContent model changes) in
  (exists nodes,
      changedNodesOf (editedTree treeEdit model changes t) t = Normal nodes /\
      r = calculateRangeChange (Some nodes)) /\
  queue s' = queue s ++ [mkJob c r] /\
  promises s' !! c = Some Pending /\
  forall evs,
    promises (run s' evs) !! c = Some Pending \/
    (promises (run s' evs) !! c = Some (Fulfilled r) /\
     c ∉ call <$> inflight (run s' evs)).
Proof.
  intros Hwf Ht Hcr c s'.
  pose proof (changedRanges_state treeEdit s model changes) as Hst.
  rewrite Hcr in Hst. cbn in Hst. subst s1.
  destruct (applyEdits_frame treeEdit s model changes) as (_ & _ & Hq & Hr & Hp & _).
  assert (s' = with_promises
                 (with_queue (Session._applyEdits treeEdit s model changes)
                    (queue s ++ [mkJob c r]))
                 (promises s ++ [Pending])) as Hs'.
  { unfold s', c. cbn. unfold Session.onDidChangeContent. by rewrite Hcr, Hq, Hp. }
  split_and!.
  - revert Hcr. unfold Session.changedRanges. rewrite applyEdits_tree, Ht. cbn.
    destruct (changedNodesOf _ _) as [nodes|e]; cbn; [|done].
    intros [= <-]. by exists nodes.
  - by rewrite Hs'.
  - rewrite Hs'. cbn. by rewrite lookup_app_r, Nat.sub_diag.
  - intros evs.
    assert (wf s') as Hwf' by by apply wf_step.
    assert (tracked c r s') as Htr.
    { left. rewrite Hs'. unfold inflight. cbn. rewrite Hr.
      rewrite app_assoc, elem_of_app. right. by apply list_elem_of_singleton. }
    pose proof (wf_run treeEdit s' evs Hwf') as [_ Hpend].
    destruct (tracked_run treeEdit c r s' evs Hwf' Htr) as [Hin | [Hout [Hp'|Hp']]].
    + left. by apply (Hpend (mkJob c r)).
    + by left.
    + by right.
Qed.

Lemma resume_after_pass s turn j tree passes parseType :
  running s = Some {| job := j; at_ := AwaitTimeout tree passes parseType |} ->
  running (resume s turn) =
    Some {| job := j; at_ := afterYield s turn tree passes parseType |} /\
  treeSets (resume s turn) = treeSets s /\
  _newEdits (resume s turn) = _newEdits s.
Proof.
  intros Hrun. unfold resume, afterYield. rewrite Hrun. unfold resumeJob. cbn [at_ job].
  destruct (modelDisposed s || _isDisposed s); [done|].
  destruct (negb (truthy tree) && negb (_newEdits s)); [done|].
  by destruct (telemetryFault turn).
Qed.

Lemma resume_treeSets s turn j a :
  running s = Some {| job := j; at_ := a |} ->
  treeSets (resume s turn) =
  match a with
  | AwaitParse (Normal tree) =>
      if negb (_newEdits s) then treeSets s ++ [tree] else treeSets s
  | _ => treeSets s
  end.
Proof.
  intros Hrun. unfold resume. rewrite Hrun. unfold resumeJob. cbn [at_ job].
  destruct a as [tree passes pt | [tree|e] | [[]|e]]; try done.
  - destruct (modelDisposed s || _isDisposed s); [done|].
    destruct (negb (truthy tree) && negb (_newEdits s)); [done|].
    by destruct (telemetryFault turn).
  - by destruct (negb (_newEdits s)).
Qed.

(** C2 (amended). A parse pass has produced [tree] and yields. With [evs1]
    arriving during the yield and [evs2] before the commit check, the setter
    installs a tree [t] exactly when the pass produced [t], no edit was
    applied in [evs1] or [evs2], neither the model nor the session was
    disposed when the yield returned, and the telemetry call did not
    throw. *)
Theorem reparse_commits_iff_fresh
    (s : State) (j : Job) (tree : option Tree) (passes : nat)
    (parseType : TelemetryParseType) (evs1 evs2 : list Event) (turn1 turn2 : Turn)
    (t : Tree) :
  running s = Some {| job := j; at_ := AwaitTimeout tree passes parseType |} ->
  _newEdits s = false ->
  forallb arrival evs1 = true ->
  forallb arrival evs2 = true ->
  let s1 := run s evs1 in
  let s2 := run (step s1 (Resume turn1)) evs2 in
  let s3 := step s2 (Resume turn2) in
  treeSets s3 = treeSets s ++ [Some t] <->
  tree = Some t /\
  existsb appliesEdits evs1 = false /\ existsb appliesEdits evs2 = false /\
  modelDisposed s1 = false /\ _isDisposed s1 = false /\
  telemetryFault turn1 = None.
Proof.
  intros Hrun Hne Hq1 Hq2. cbv zeta.
  destruct (arrivals_frame treeEdit s evs1 Hq1) as (Hr1 & Hts1 & _ & Hne1).
  rewrite Hrun in Hr1. rewrite Hne in Hne1. cbn [orb] in Hne1.
  generalize dependent (run s evs1). intros s1 Hr1 Hts1 Hne1.
  change (step s1 (Resume turn1)) with (resume s1 turn1).
  destruct (resume_after_pass s1 turn1 j tree passes parseType Hr1) as (HrA & HtsA & HneA).
  destruct (arrivals_frame treeEdit (resume s1 turn1) evs2 Hq2) as (Hr2 & Hts2 & _ & Hne2).
  rewrite HrA in Hr2. rewrite HtsA, Hts1 in Hts2. rewrite HneA, Hne1 in Hne2.
  generalize dependent (run (resume s1 turn1) evs2). intros s2 Hr2 Hts2 Hne2.
  change (step s2 (Resume turn2)) with (resume s2 turn2).
  rewrite (resume_treeSets s2 turn2 _ _ Hr2), Hts2, Hne2.
  assert (forall l (x : option Tree), l <> l ++ [x]) as Hsnoc.
  { intros l x Heq. apply (f_equal length) in Heq. rewrite length_app in Heq.
    cbn in Heq. lia. }
  unfold afterYield. rewrite Hne1.
  destruct (modelDisposed s1); cbn [orb].
  { destruct (negb _).
    - split; [intros [= ?]%app_inv_head | intros (_ & _ & _ & ? & _)]; done.
    - split; [by intros ?%Hsnoc | intros (_ & _ & _ & ? & _)]; done. }
  destruct (_isDisposed s1); cbn [orb].
  { destruct (negb _).
    - split; [intros [= ?]%app_inv_head | intros (_ & _ & _ & _ & ? & _)]; done.
    - split; [by intros ?%Hsnoc | intros (_ & _ & _ & _ & ? & _)]; done. }
  destruct (negb (truthy tree) && negb (existsb appliesEdits evs1)) eqn:Hloop.
  { apply andb_true_iff in Hloop as [Htree _]. destruct tree; [done|].
    split; [by intros ?%Hsnoc | by intros (? & _)]. }
  destruct (telemetryFault turn1) as [e|].
  { split; [by intros ?%Hsnoc | by intros (_ & _ & _ & _ & _ & ?)]. }
  destruct (existsb appliesEdits evs1); cbn.
  { split; [by intros ?%Hsnoc | by intros (_ & ? & _)]. }
  destruct (existsb appliesEdits evs2); cbn.
  { split; [by intros ?%Hsnoc | by intros (_ & _ & ? & _)]. }
  split.
  - intros [= ->]%app_inv_head. done.
  - by intros (-> & _).
Qed.

(** C9 (amended). When the cursors disagree on a traversal step, the diff
    throws [Trees are out of sync] out of [onDidChangeContent] before
    anything is queued: the promise of that call is rejected with the
    error, no reparse is queued for the change, the queue's error handler
    logs nothing, and the session is not disposed; a later content change
    whose diff succeeds is queued as usual. *)
Theorem desync_rejects_the_call
    (s : State) (model : ITextModel) (changes : list IModelContentChange)
    (s1 : State) (e : Error) :
  changedRanges s model changes = (s1, Throw e) ->
  let s' := step s (OnDidChangeContent model changes) in
  e = outOfSync /\
  promises s' = promises s ++ [Rejected outOfSync] /\
  queue s' = queue s /\ running s' = running s /\
  errorLog s' = errorLog s /\ _isDisposed s' = _isDisposed s /\
  forall model' changes' s2 r,
    changedRanges s' model' changes' = (s2, Normal r) ->
    queue (step s' (OnDidChangeContent model' changes')) =
    queue s ++ [mkJob (S (length (promises s))) r].
Proof.
  intros Hcr. cbv zeta.
  pose proof (changedRanges_throws treeEdit s model changes s1 e Hcr) as ->.
  pose proof (changedRanges_state treeEdit s model changes) as Hst.
  rewrite Hcr in Hst. cbn in Hst. subst s1.
  destruct (applyEdits_frame treeEdit s model changes)
    as (Hd & _ & Hq & Hr & Hp & _ & Hel & _).
  assert (step s (OnDidChangeContent model changes) =
          with_promises (Session._applyEdits treeEdit s model changes)
            (promises s ++ [Rejected outOfSync])) as ->.
  { change (step s (OnDidChangeContent model changes))
      with (Session.onDidChangeContent treeEdit s model changes).
    unfold Session.onDidChangeContent. by rewrite Hcr, Hp. }
  split_and!; [done..|].
  intros model' changes' s2 r Hcr'.
  match type of Hcr' with changedRanges ?s0 _ _ = _ =>
    pose proof (changedRanges_state treeEdit s0 model' changes') as Hst';
    rewrite Hcr' in Hst'; cbn [fst] in Hst'; subst s2;
    destruct (applyEdits_frame treeEdit s0 model' changes') as (_ & _ & Hq' & _ & Hp' & _);
    change (step s0 (OnDidChangeContent model' changes'))
      with (Session.onDidChangeContent treeEdit s0 model' changes')
  end.
  unfold Session.onDidChangeContent at 1. rewrite Hcr'.
  cbn [queue with_promises with_queue].
  rewrite Hq', Hp'. cbn [queue promises with_promises]. rewrite Hq, length_app.
  cbn. do 3 f_equal. lia.
Qed.

(** C10 (amended). The promise returned by [onDidChangeContent] does not
    always settle: if the session is disposed while the reparse queued for
    that change has not started, or if that reparse throws, the promise
    stays pending whatever happens afterwards; the thrown error is handed
    to the queue's handler and logged. *)
Theorem onDidChangeContent_promise_may_never_settle (s : State) (c : nat) :
  wf s ->
  (_isDisposed s = true /\ c ∈ call <$> queue s) \/
  (exists j e, call j = c /\
     running s = Some {| job := j; at_ := AwaitParse (Throw e) |}) ->
  (forall evs, promises (run s evs) !! c = Some Pending) /\
  (forall j e turn1 turn2,
     running s = Some {| job := j; at_ := AwaitParse (Throw e) |} ->
     errorLog (run s [Resume turn1; Resume turn2]) = errorLog s ++ [e]).
Proof.
  intros Hwf Hcase. split.
  - intros evs. apply (abandoned_run treeEdit c s evs Hwf). split.
    + destruct Hwf as [_ Hpend].
      destruct Hcase as [[_ Hc] | (j & e & <- & Hrun)].
      * apply list_elem_of_fmap in Hc as (j & -> & Hj). apply Hpend.
        unfold inflight. apply elem_of_app. by right.
      * apply Hpend. unfold inflight. rewrite Hrun. by left.
    + destruct Hcase as [? | (j & e & ? & ?)]; [by eauto|].
      right; right. exists j, e. by eauto.
  - intros j e turn1 turn2 Hrun. cbn. unfold resume at 2. rewrite Hrun.
    unfold resumeJob. cbn [at_ job]. by destruct s.
Qed.

End SessionClaims.

(** ** The claims about the diff *)

(** C7. On trees whose ids are unique, with fuel for every node of the new
    tree, [findChangedNodes] returns what the structural recursion
    [changeUnits] returns: a node that carries the marker and is not the
    root yields exactly one unit, pairing it with the old node at the same
    position, and is not descended into; other nodes are descended into or
    passed over. The positions of the recorded units are pairwise distinct,
    none lies below another, and they are exactly the marked non-root
    positions with no marked ancestor other than the root. *)
Theorem findChangedNodes_change_units (newTree oldTree : Tree) (fuel : nat) :
  uniqueIds newTree ->
  (size (rootNode newTree) <= fuel)%nat ->
  findChangedNodes fuel newTree oldTree =
    Some (changeUnits true (rootNode newTree) (rootNode oldTree)) /\
  (forall units,
     changeUnits true (rootNode newTree) (rootNode oldTree) = Normal units ->
     Forall2 (fun p u => unitAt (rootNode newTree) (rootNode oldTree) p = Some u)
             (unitPaths true (rootNode newTree)) units) /\
  NoDup (unitPaths true (rootNode newTree)) /\
  (forall p, p ∈ unitPaths true (rootNode newTree) <->
             reported true (rootNode newTree) p) /\
  (forall p q, p ∈ unitPaths true (rootNode newTree) ->
               q ∈ unitPaths true (rootNode newTree) ->
               p `prefix_of` q -> p = q).
Proof.
  intros Hids Hfuel. split_and!.
  - by rewrite findChangedNodes_diffNode, diffNode_changeUnits.
  - intros units. apply changeUnits_positions.
  - apply NoDup_unitPaths.
  - intros p. apply elem_of_unitPaths.
  - intros p q Hp Hq Hpre. destruct (decide (p = q)) as [|Hne]; [done|].
    apply elem_of_unitPaths in Hp as (Hroot & (m & Hm & Hch) & _).
    apply elem_of_unitPaths in Hq as (_ & _ & Hblock).
    specialize (Hblock p m Hroot Hpre Hne Hm). congruence.
Qed.

Lemma findChangedNodes_change_units_witness :
  uniqueIds exampleNew /\ (size (rootNode exampleNew) <= 5)%nat /\
  findChangedNodes 5 exampleNew exampleOld =
    Some (changeUnits true (rootNode exampleNew) (rootNode exampleOld)) /\
  unitPaths true (rootNode exampleNew) = [[0%nat]].
Proof.
  assert (uniqueIds exampleNew) as Hids.
  { unfold uniqueIds. apply (bool_decide_unpack _). vm_compute. exact I. }
  assert (size (rootNode exampleNew) <= 5)%nat as Hfuel by (vm_compute; lia).
  split_and!; [exact Hids | exact Hfuel | | reflexivity].
  exact (proj1 (findChangedNodes_change_units exampleNew exampleOld 5 Hids Hfuel)).
Defined.

(** C8. Every change unit becomes one Range Change whose range is the new
    node's start and end, each zero-based row and column plus one, and
    whose old length is the old node's end index minus its start index; a
    zero-based position (2, 4) becomes (3, 5). *)
Theorem calculateRangeChange_translates (units : list ChangedNode) :
  exists ranges,
    calculateRangeChange (Some units) = Some ranges /\
    Forall2 (fun unit r =>
               startLineNumber (newRange r) = row (startPosition (fst unit)) + 1 /\
               startColumn (newRange r) = column (startPosition (fst unit)) + 1 /\
               endLineNumber (newRange r) = row (endPosition (fst unit)) + 1 /\
               endColumn (newRange r) = column (endPosition (fst unit)) + 1 /\
               oldRangeLength r = endIndex (snd unit) - startIndex (snd unit))
            units ranges /\
    calculateRangeChange
      (Some [(mkNode 7 true (mkPoint 2 4) (mkPoint 2 9) 30 35 [],
              mkNode 7 false (mkPoint 2 4) (mkPoint 2 8) 30 34 [])])
    = Some [ {| newRange := mkRange 3 5 3 10; oldRangeLength := 4 |} ].
Proof.
  exists (map rangeChangeOf units). split_and!; [done| |done].
  induction units as [|u units IH]; constructor; [done|exact IH].
Qed.

(** ** The claims about the cache and the catalog *)

(** C4. [getSyncIfCached] completes normally for every cache and key. It
    yields nothing while the stored promise is pending, the success value
    once the promise was fulfilled and the wrapper recorded it, and nothing
    once the promise was rejected. *)
Theorem getSyncIfCached_never_throws {TKey : Type} `{Countable TKey} {T : Type}
    (c : gmap TKey (PromiseWithSyncAccess T)) (k : TKey) (v : T) (e : Error) :
  (exists r, AsyncCache.getSyncIfCached c k = Normal r) /\
  AsyncCache.getSyncIfCached (AsyncCache.set c k Pending) k = Normal None /\
  AsyncCache.getSyncIfCached
    (AsyncCache.react (AsyncCache.settle (AsyncCache.set c k Pending) k (Fulfilled v)) k) k
  = Normal (Some v) /\
  AsyncCache.getSyncIfCached
    (AsyncCache.react (AsyncCache.settle (AsyncCache.set c k Pending) k (Rejected e)) k) k
  = Normal None.
Proof.
  split_and!.
  - rewrite getSyncIfCached_normal. by eexists.
  - rewrite getSyncIfCached_normal. unfold AsyncCache.set. by rewrite lookup_insert_eq.
  - rewrite getSyncIfCached_normal.
    unfold AsyncCache.react, AsyncCache.settle, AsyncCache.set.
    by rewrite !lookup_alter_eq, lookup_insert_eq.
  - rewrite getSyncIfCached_normal.
    unfold AsyncCache.react, AsyncCache.settle, AsyncCache.set.
    by rewrite !lookup_alter_eq, lookup_insert_eq.
Qed.


(** C3 (where the code departs from it). The grammar file of a registered
    identifier cannot be read: the call of [getLanguage] that started the
    load and a call that joined it are both rejected with the read error;
    only a call made after the failure was recorded resolves to no
    grammar. An identifier without a mapping resolves to no grammar. *)
Theorem getLanguage_rejects_when_fetch_fails :
  Languages.results
    (Languages.run "node_modules" (Languages.init exampleRegistered)
       [ Languages.GetLanguage "typescript";
         Languages.GetLanguage "typescript";
         Languages.FetchSettles "typescript" (Throw fetchFailure);
         Languages.React "typescript";
         Languages.GetLanguage "typescript" ])
  = [ Rejected fetchFailure; Rejected fetchFailure; Fulfilled None ] /\
  Languages.results
    (Languages.run "node_modules" (Languages.init exampleRegistered)
       [ Languages.GetLanguage "foo"; Languages.React "foo" ])
  = [ Fulfilled None ].
Proof. split; vm_compute; reflexivity. Qed.

Example examplePass_state :
  Session.running examplePass =
    Some {| Session.job := Session.mkJob 1 exampleRanges;
            Session.at_ := Session.AwaitTimeout (Some exampleNew) 1 Session.Incremental |} /\
  Session._newEdits examplePass = false.
Proof. vm_compute. done. Qed.

(** ** The session claims at concrete runs *)

Lemma wf_exampleParsed treeEdit : wf (exampleParsed treeEdit).
Proof. apply wf_run, wf_init. Qed.

Lemma wf_exampleEdited treeEdit : wf (exampleEdited treeEdit).
Proof. apply wf_step, wf_exampleParsed. Qed.

Lemma onDidChangeContent_resolves_after_reparse_witness :
  wf (exampleParsed markingEdit) /\
  Session._tree (exampleParsed markingEdit) = Some exampleOld /\
  Session.changedRanges markingEdit (exampleParsed markingEdit) exampleModel [exampleChange]
  = (Session._applyEdits markingEdit (exampleParsed markingEdit) exampleModel [exampleChange],
     Normal exampleRanges) /\
  Session.queue (exampleEdited markingEdit) = [] ++ [Session.mkJob 1 exampleRanges] /\
  Session.promises (exampleEdited markingEdit) !! 1%nat = Some Pending.
Proof.
  assert (wf (exampleParsed markingEdit)) as Hwf by apply wf_exampleParsed.
  assert (Session._tree (exampleParsed markingEdit) = Some exampleOld) as Ht
    by (vm_compute; reflexivity).
  assert (Session.changedRanges markingEdit (exampleParsed markingEdit) exampleModel
            [exampleChange]
          = (Session._applyEdits markingEdit (exampleParsed markingEdit) exampleModel
               [exampleChange], Normal exampleRanges)) as Hcr
    by (vm_compute; reflexivity).
  pose proof (onDidChangeContent_resolves_after_reparse markingEdit
                (exampleParsed markingEdit) exampleModel [exampleChange] exampleOld _ _
                Hwf Ht Hcr) as (_ & Hq & Hp & _).
  split_and!; [exact Hwf | exact Ht | exact Hcr | exact Hq | exact Hp].
Defined.

(** C1 as stated fails. The session holds a tree, the change is delivered
    and its ranges are computed and queued with the reparse; the promise is
    pending when the call returns, and when the session is then disposed
    the reparse never runs and the promise stays pending for good: the
    ranges never reach the caller. *)
Lemma onDidChangeContent_waits_for_reparse :
  Session._tree (exampleParsed markingEdit) = Some exampleOld /\
  Session.queue (exampleEdited markingEdit) = [Session.mkJob 1 exampleRanges] /\
  Session.promises (exampleEdited markingEdit) !! 1%nat = Some Pending /\
  forall evs,
    Session.promises
      (Session.run markingEdit (exampleEdited markingEdit) (Session.Dispose :: evs))
    !! 1%nat = Some Pending.
Proof.
  split_and!; [by vm_compute..|].
  intros evs.
  change (Session.run markingEdit (exampleEdited markingEdit) (Session.Dispose :: evs))
    with (Session.run markingEdit
            (Session.step markingEdit (exampleEdited markingEdit) Session.Dispose) evs).
  apply (abandoned_run markingEdit 1%nat).
  - apply wf_step, wf_exampleEdited.
  - split; [by vm_compute|]. right; left. split; [by vm_compute|].
    vm_compute. apply list_elem_of_here.
Qed.

Lemma reparse_commits_iff_fresh_witness :
  Session.running examplePass =
    Some {| Session.job := Session.mkJob 1 exampleRanges;
            Session.at_ := Session.AwaitTimeout (Some exampleNew) 1 Session.Incremental |} /\
  Session._newEdits examplePass = false /\
  forallb arrival [] = true /\
  (let s1 := Session.run markingEdit examplePass [] in
   let s2 := Session.run markingEdit
               (Session.step markingEdit s1 (Session.Resume (quietTurn None))) [] in
   let s3 := Session.step markingEdit s2 (Session.Resume (quietTurn None)) in
   Session.treeSets s3 = Session.treeSets examplePass ++ [Some exampleNew] <->
   Some exampleNew = Some exampleNew /\
   existsb appliesEdits [] = false /\ existsb appliesEdits [] = false /\
   Session.modelDisposed s1 = false /\ Session._isDisposed s1 = false /\
   Session.telemetryFault (quietTurn None) = None).
Proof.
  assert (Session.running examplePass =
    Some {| Session.job := Session.mkJob 1 exampleRanges;
            Session.at_ := Session.AwaitTimeout (Some exampleNew) 1 Session.Incremental |})
    as Hrun by (vm_compute; reflexivity).
  assert (Session._newEdits examplePass = false) as Hne by (vm_compute; reflexivity).
  assert (forallb arrival [] = true) as Hq by reflexivity.
  split_and!; [exact Hrun | exact Hne | exact Hq |].
  exact (reparse_commits_iff_fresh markingEdit examplePass
           (Session.mkJob 1 exampleRanges) (Some exampleNew) 1%nat Session.Incremental
           [] [] (quietTurn None) (quietTurn None) exampleNew Hrun Hne Hq Hq).
Defined.

(** C2 as stated fails. The pass produced [exampleNew] and no edit was
    applied, but the model was disposed during the yield: the produced
    tree is not installed, the setter is handed [undefined] instead. *)
Lemma reparse_result_dropped_on_disposal :
  Session.running examplePass =
    Some {| Session.job := Session.mkJob 1 exampleRanges;
            Session.at_ := Session.AwaitTimeout (Some exampleNew) 1 Session.Incremental |} /\
  existsb appliesEdits [Session.DisposeModel] = false /\
  Session.treeSets
    (Session.run markingEdit examplePass
       [Session.DisposeModel; Session.Resume (quietTurn None);
        Session.Resume (quietTurn None)])
  = Session.treeSets examplePass ++ [None] /\
  Session._tree
    (Session.run markingEdit examplePass
       [Session.DisposeModel; Session.Resume (quietTurn None);
        Session.Resume (quietTurn None)])
  = None.
Proof. split_and!; by vm_compute. Qed.

Lemma desync_rejects_the_call_witness :
  Session.changedRanges growingEdit (exampleParsed growingEdit) exampleModel [exampleChange]
  = (Session._applyEdits growingEdit (exampleParsed growingEdit) exampleModel [exampleChange],
     Throw outOfSync) /\
  Session.promises (exampleEdited growingEdit)
  = Session.promises (exampleParsed growingEdit) ++ [Rejected outOfSync] /\
  Session.queue (exampleEdited growingEdit) = Session.queue (exampleParsed growingEdit).
Proof.
  assert (Session.changedRanges growingEdit (exampleParsed growingEdit) exampleModel
            [exampleChange]
          = (Session._applyEdits growingEdit (exampleParsed growingEdit) exampleModel
               [exampleChange], Throw outOfSync)) as Hcr
    by (vm_compute; reflexivity).
  pose proof (desync_rejects_the_call growingEdit (exampleParsed growingEdit)
                exampleModel [exampleChange] _ _ Hcr) as (_ & Hp & Hq & _).
  split_and!; [exact Hcr | exact Hp | exact Hq].
Defined.

(** C9 as stated fails. The edited tree has a node that the copy taken
    before the edit lacks, so the cursors disagree: the error is not
    absorbed at the queue. It rejects the promise handed to the caller,
    and the queue's handler never logs it, however often the session is
    resumed. *)
Lemma desync_is_not_absorbed_at_the_queue :
  Session._tree (exampleEdited growingEdit) = Some exampleGrown /\
  Session.promises (exampleEdited growingEdit) !! 1%nat = Some (Rejected outOfSync) /\
  Session.queue (exampleEdited growingEdit) = [] /\
  Session.errorLog (exampleEdited growingEdit) = [] /\
  Session.errorLog
    (Session.run growingEdit (exampleEdited growingEdit)
       [Session.Resume (quietTurn None); Session.Resume (quietTurn None)]) = [].
Proof. split_and!; by vm_compute. Qed.

Lemma onDidChangeContent_promise_may_never_settle_witness :
  wf (Session.step markingEdit (exampleEdited markingEdit) Session.Dispose) /\
  (Session._isDisposed (Session.step markingEdit (exampleEdited markingEdit) Session.Dispose)
   = true /\
   1%nat ∈ Session.call <$>
     Session.queue (Session.step markingEdit (exampleEdited markingEdit) Session.Dispose)) /\
  Session.promises
    (Session.run markingEdit
       (Session.step markingEdit (exampleEdited markingEdit) Session.Dispose)
       [Session.Resume (quietTurn (Some exampleNew)); Session.Resume (quietTurn None)])
  !! 1%nat = Some Pending.
Proof.
  assert (wf (Session.step markingEdit (exampleEdited markingEdit) Session.Dispose))
    as Hwf by apply wf_step, wf_exampleEdited.
  assert (Session._isDisposed
            (Session.step markingEdit (exampleEdited markingEdit) Session.Dispose) = true /\
          1%nat ∈ Session.call <$>
            Session.queue
              (Session.step markingEdit (exampleEdited markingEdit) Session.Dispose))
    as Hcase.
  { split; [vm_compute; reflexivity|]. vm_compute. apply list_elem_of_here. }
  split; [exact Hwf | split; [exact Hcase |]].
  exact (proj1 (onDidChangeContent_promise_may_never_settle markingEdit _ 1%nat Hwf
                  (or_introl Hcase)) _).
Defined.

(** C10 as stated fails for the model. The model, not the session, is
    disposed before the queued reparse starts: the reparse runs one pass,
    sees the disposed model, and the promise of the call is resolved with
    the ranges. *)
Lemma model_disposal_still_resolves :
  Session._isDisposed
    (Session.run markingEdit (exampleEdited markingEdit) [Session.DisposeModel]) = false /\
  Session.queue
    (Session.run markingEdit (exampleEdited markingEdit) [Session.DisposeModel])
  = [Session.mkJob 1 exampleRanges] /\
  Session.promises
    (Session.run markingEdit (exampleEdited markingEdit)
       [ Session.DisposeModel;
         Session.Resume (quietTurn (Some exampleNew));
         Session.Resume (quietTurn None);
         Session.Resume (quietTurn None);
         Session.Resume (quietTurn None) ])
  !! 1%nat = Some (Fulfilled exampleRanges).
Proof. split_and!; by vm_compute. Qed.

(** A telemetry sink that throws once the reparse loop is left: the error
    unwinds to the queue's handler, and the promise stays pending. *)
Example reparse_throws_example :
  let s := Session.run markingEdit examplePass [Session.Resume (faultyTurn (Err "sink"))] in
  Session.running s =
    Some {| Session.job := Session.mkJob 1 exampleRanges;
            Session.at_ := Session.AwaitParse (Throw (Err "sink")) |} /\
  Session.errorLog
    (Session.run markingEdit s
       [Session.Resume (quietTurn None); Session.Resume (quietTurn None)])
  = [Err "sink"] /\
  Session.promises
    (Session.run markingEdit s
       [Session.Resume (quietTurn None); Session.Resume (quietTurn None)])
  !! 1%nat = Some Pending.
Proof. vm_compute. done. Qed.

(** ** Further properties of the diff *)

Lemma covers_unfold n o : covers n o = allCovered covers (children n) (children o).
Proof. by destruct n. Qed.

Lemma allCovered_refl ns :
  Forall (fun n => covers n n = true) ns -> allCovered covers ns ns = true.
Proof. induction 1 as [|n ns Hn _ IH]; cbn; [done|]. by rewrite Hn, IH. Qed.

Lemma covers_refl n : covers n n = true.
Proof.
  induction n as [i h sp ep si ei cs IH] using SyntaxNode_ind.
  cbn. by apply allCovered_refl.
Qed.

Lemma allCovered_trans ns :
  Forall (fun n => forall m o, covers n m = true -> covers m o = true -> covers n o = true) ns ->
  forall ms os, allCovered covers ns ms = true -> allCovered covers ms os = true ->
                allCovered covers ns os = true.
Proof.
  induction 1 as [|n ns Hn _ IH]; intros ms os Hnm Hmo; [done|].
  destruct ms as [|m ms]; [done|]. destruct os as [|o os]; [done|].
  cbn in *. apply andb_true_iff in Hnm as [? ?]. apply andb_true_iff in Hmo as [? ?].
  apply andb_true_iff. split; [by eapply Hn | by eapply IH].
Qed.

Lemma covers_trans n : forall m o,
  covers n m = true -> covers m o = true -> covers n o = true.
Proof.
  induction n as [i h sp ep si ei cs IH] using SyntaxNode_ind.
  intros m o. rewrite !covers_unfold. cbn [children]. by apply allCovered_trans.
Qed.

Lemma pairUp_covered rootId ns :
  Forall (fun n => forall o, covers n o = true -> exists l, diffNode rootId n o = Normal l) ns ->
  forall os, allCovered covers ns os = true ->
             exists l, pairUp (diffNode rootId) ns os = Normal l.
Proof.
  induction 1 as [|n ns Hn _ IH]; intros os Hcov; [by eexists|].
  destruct os as [|o os]; [done|]. cbn in *.
  apply andb_true_iff in Hcov as [Hno Hrest].
  destruct (Hn o Hno) as [l ->]. destruct (IH os Hrest) as [l' ->]. by eexists.
Qed.

Lemma diffNode_covered rootId n :
  forall o, covers n o = true -> exists l, diffNode rootId n o = Normal l.
Proof.
  induction n as [i h sp ep si ei cs IH] using SyntaxNode_ind. intros o Hcov.
  cbn [diffNode]. destruct (h && negb (i =? rootId)); [by eexists|].
  by apply pairUp_covered.
Qed.

Lemma pairUp_unmarked rootId ns :
  Forall (fun n => forall o, covers n o = true ->
                   Forall (fun d => hasChanges d = false) (nodes n) ->
                   diffNode rootId n o = Normal []) ns ->
  forall os, allCovered covers ns os = true ->
             Forall (fun d => hasChanges d = false) (concat (map nodes ns)) ->
             pairUp (diffNode rootId) ns os = Normal [].
Proof.
  induction 1 as [|n ns Hn _ IH]; intros os Hcov Hun; [done|].
  destruct os as [|o os]; [done|]. cbn in *.
  apply andb_true_iff in Hcov as [Hno Hrest]. apply Forall_app in Hun as [Hn' Hns'].
  by rewrite (Hn o Hno Hn'), (IH os Hrest Hns').
Qed.

Lemma diffNode_unmarked rootId n :
  forall o, covers n o = true ->
            Forall (fun d => hasChanges d = false) (nodes n) ->
            diffNode rootId n o = Normal [].
Proof.
  induction n as [i h sp ep si ei cs IH] using SyntaxNode_ind. intros o Hcov Hun.
  rewrite nodes_unfold in Hun. apply Forall_cons in Hun as [Hh Hcs]. cbn in Hh. subst h.
  cbn [diffNode andb]. by apply pairUp_unmarked.
Qed.

(** X1. The traversal of [findChangedNodes] always comes to an end: for
    any two trees, fuel for one loop turn per node of the new tree yields a
    result, and more fuel does not change it. *)
Theorem findChangedNodes_terminates (newTree oldTree : Tree) (extra : nat) :
  (exists result,
      findChangedNodes (size (rootNode newTree)) newTree oldTree = Some result) /\
  findChangedNodes (size (rootNode newTree) + extra) newTree oldTree =
  findChangedNodes (size (rootNode newTree)) newTree oldTree.
Proof.
  rewrite !findChangedNodes_diffNode by lia. split; [by eexists|done].
Qed.

(** X2. When the old tree has a node wherever the new tree has one (as
    after edits that keep the shape of the tree), the diff does not throw:
    it returns the list of change units. *)
Theorem findChangedNodes_covered (newTree oldTree : Tree) :
  covers (rootNode newTree) (rootNode oldTree) = true ->
  exists units,
    findChangedNodes (size (rootNode newTree)) newTree oldTree = Some (Normal units).
Proof.
  intros Hcov. rewrite findChangedNodes_diffNode by lia.
  destruct (diffNode_covered (id (rootNode newTree)) _ _ Hcov) as [l ->]. by eexists.
Qed.

Lemma findChangedNodes_covered_witness :
  covers (rootNode exampleNew) (rootNode exampleOld) = true /\
  exists units,
    findChangedNodes (size (rootNode exampleNew)) exampleNew exampleOld = Some (Normal units).
Proof.
  assert (covers (rootNode exampleNew) (rootNode exampleOld) = true) as Hcov
    by (vm_compute; reflexivity).
  split; [exact Hcov | exact (findChangedNodes_covered exampleNew exampleOld Hcov)].
Defined.

(** X3. When no node below the root carries the marker and the old tree
    has a node wherever the new tree has one, the diff reports no change
    unit at all, whether or not the root itself carries the marker. *)
Theorem findChangedNodes_unmarked (newTree oldTree : Tree) :
  covers (rootNode newTree) (rootNode oldTree) = true ->
  unmarkedBelowRoot newTree = true ->
  findChangedNodes (size (rootNode newTree)) newTree oldTree = Some (Normal []).
Proof.
  intros Hcov Hun. rewrite findChangedNodes_diffNode by lia.
  destruct newTree as [[i h sp ep si ei cs]]. unfold unmarkedBelowRoot in Hun.
  cbn [rootNode children id] in *. cbn [diffNode].
  rewrite Z.eqb_refl, andb_false_r. f_equal.
  apply pairUp_unmarked; [|done|].
  - apply Forall_forall. intros c _ o. apply diffNode_unmarked.
  - apply Forall_forall. intros d Hd.
    rewrite forallb_forall in Hun. apply negb_true_iff, Hun. by apply list_elem_of_In.
Qed.

Lemma findChangedNodes_unmarked_witness :
  covers (rootNode exampleOld) (rootNode exampleOld) = true /\
  unmarkedBelowRoot exampleOld = true /\
  findChangedNodes (size (rootNode exampleOld)) exampleOld exampleOld = Some (Normal []).
Proof.
  assert (covers (rootNode exampleOld) (rootNode exampleOld) = true) as Hcov
    by (vm_compute; reflexivity).
  assert (unmarkedBelowRoot exampleOld = true) as Hun by (vm_compute; reflexivity).
  split; [exact Hcov | split; [exact Hun |]].
  exact (findChangedNodes_unmarked exampleOld exampleOld Hcov Hun).
Defined.

(** ** Further properties of the parse session *)

Lemma markNode_covers offset n : covers (markNode offset n) n = true.
Proof.
  induction n as [i h sp ep si ei cs IH] using SyntaxNode_ind.
  cbn [markNode]. destruct ((si <=? offset) && (offset <=? ei)); [|apply covers_refl].
  cbn. induction IH as [|c cs Hc _ IHcs]; cbn; [done|]. by rewrite Hc, IHcs.
Qed.

Section SessionExtras.
Import Session.
Variable treeEdit : Tree -> InputEdit.t -> Tree.

Local Abbreviation step := (Session.step treeEdit).
Local Abbreviation run := (Session.run treeEdit).
Local Abbreviation changedRanges := (Session.changedRanges treeEdit).
Local Abbreviation _applyEdits := (Session._applyEdits treeEdit).

Lemma editedTree_covers model changes :
  (forall t e, covers (rootNode (treeEdit t e)) (rootNode t) = true) ->
  forall t, covers (rootNode (editedTree treeEdit model changes t)) (rootNode t) = true.
Proof.
  intros Hkeep. induction changes as [|c cs IH]; intros t; cbn; [apply covers_refl|].
  eapply covers_trans; [apply IH | apply Hkeep].
Qed.

(** X4. If [Tree.edit] keeps a node wherever the tree had one, no content
    change ever makes the diff throw: every call of [onDidChangeContent]
    computes its ranges and hands out a pending promise, never a rejected
    one. *)
Theorem onDidChangeContent_never_rejects_when_shape_kept
    (s : State) (model : ITextModel) (changes : list IModelContentChange) :
  (forall t e, covers (rootNode (treeEdit t e)) (rootNode t) = true) ->
  (exists r, changedRanges s model changes = (_applyEdits s model changes, Normal r)) /\
  promises (step s (OnDidChangeContent model changes)) = promises s ++ [Pending].
Proof.
  intros Hkeep.
  assert (exists r, changedRanges s model changes = (_applyEdits s model changes, Normal r))
    as [r Hr].
  { unfold Session.changedRanges. rewrite applyEdits_tree.
    destruct (_tree s) as [t|]; cbn; [|by eexists].
    rewrite changedNodesOf_diffNode.
    destruct (diffNode_covered (id (rootNode (editedTree treeEdit model changes t)))
                _ _ (editedTree_covers model changes Hkeep t)) as [l ->].
    by eexists. }
  split; [by exists r|].
  change (step s (OnDidChangeContent model changes))
    with (Session.onDidChangeContent treeEdit s model changes).
  unfold Session.onDidChangeContent. rewrite Hr. cbn.
  by destruct (applyEdits_frame treeEdit s model changes) as (_ & _ & _ & _ & -> & _).
Qed.

(** X5. [_applyEdits] applies the edits of a change in their order to the
    tree, if there is one, and raises the pending-edits flag exactly when
    the change holds an edit; applying two batches one after the other is
    the same as applying their concatenation. *)
Theorem applyEdits_in_order (s : State) (model : ITextModel)
    (changes more : list IModelContentChange) :
  _tree (_applyEdits s model changes) = editedTree treeEdit model changes <$> _tree s /\
  _newEdits (_applyEdits s model changes) =
    _newEdits s || match changes with [] => false | _ => true end /\
  _applyEdits s model (changes ++ more) = _applyEdits (_applyEdits s model changes) model more.
Proof.
  split_and!; [apply applyEdits_tree | apply applyEdits_newEdits |].
  revert s. induction changes as [|c cs IH]; intros s; [done|]. cbn. apply IH.
Qed.

End SessionExtras.

Lemma onDidChangeContent_never_rejects_when_shape_kept_witness :
  (forall t e, covers (rootNode (markingEdit t e)) (rootNode t) = true) /\
  Session.promises
    (Session.step markingEdit (exampleParsed markingEdit)
       (Session.OnDidChangeContent exampleModel [exampleChange]))
  = Session.promises (exampleParsed markingEdit) ++ [Pending].
Proof.
  assert (forall t e, covers (rootNode (markingEdit t e)) (rootNode t) = true) as Hkeep
    by (intros t e; apply markNode_covers).
  split; [exact Hkeep|].
  exact (proj2 (onDidChangeContent_never_rejects_when_shape_kept markingEdit
                  (exampleParsed markingEdit) exampleModel [exampleChange] Hkeep)).
Defined.

Section SessionOrderFacts.
Import Session.
Variable treeEdit : Tree -> InputEdit.t -> Tree.

Local Abbreviation step := (Session.step treeEdit).
Local Abbreviation run := (Session.run treeEdit).

(** What one content change does to the unfinished callbacks and the
    promises. *)
Lemma onDidChangeContent_shape s model changes :
  let s' := Session.onDidChangeContent treeEdit s model changes in
  (exists e, inflight s' = inflight s /\ promises s' = promises s ++ [Rejected e]) \/
  (exists r, inflight s' = inflight s ++ [mkJob (length (promises s)) r] /\
             promises s' = promises s ++ [Pending]).
Proof.
  cbv zeta. unfold Session.onDidChangeContent.
  pose proof (changedRanges_state treeEdit s model changes) as Hst.
  destruct (Session.changedRanges treeEdit s model changes) as [s1 [r|e]];
    cbn in Hst; subst s1.
  all: destruct (applyEdits_frame treeEdit s model changes) as (_ & _ & Hq & Hr & Hp & _).
  all: unfold inflight; cbn; rewrite Hq, Hr, Hp.
  - right. exists r. by rewrite app_assoc.
  - left. by exists e.
Qed.

(** What one resumption does to them. *)
Lemma resume_shape s turn :
  (inflight (resume s turn) = inflight s /\ promises (resume s turn) = promises s) \/
  (exists j rest,
      inflight s = j :: rest /\ inflight (resume s turn) = rest /\
      (promises (resume s turn) = promises s \/
       promises (resume s turn) = <[call j := Fulfilled (ranges j)]> (promises s))).
Proof.
  unfold resume, inflight.
  destruct s as [t d ne md q rn ps ts el tm]; cbn.
  destruct rn as [[j a]|]; cbn.
  - unfold resumeJob; cbn.
    destruct a as [tree passes pt | [tree|e] | [[]|e]]; cbn.
    + destruct (md || d); cbn; [by left|].
      destruct (negb (truthy tree) && negb ne); cbn; [by left|].
      destruct (telemetryFault turn); by left.
    + destruct (negb ne); by left.
    + by left.
    + right. exists j, q. by eauto.
    + right. exists j, q. by eauto.
  - destruct q as [|j q]; cbn; [by left|]. unfold startJob; cbn.
    destruct d; cbn; [|by left]. right. exists j, q. by eauto.
Qed.

Lemma inOrder_step s ev : wf s -> inOrder s -> inOrder (step s ev).
Proof.
  intros Hwf [Hsorted Hdone]. destruct ev as [model changes| | |turn].
  - cbn. destruct (onDidChangeContent_shape s model changes)
      as [(e & Hin & Hp) | (r & Hin & Hp)]; unfold inOrder; rewrite Hin, Hp.
    + split; [done|]. intros c v j Hc Hj. apply (Hdone c v j); [|done].
      apply lookup_app_Some in Hc as [Hc | [_ Hc]]; [done|].
      by destruct (c - length (promises s))%nat as [|[|?]].
    + assert (forall c v, (promises s ++ [Pending]) !! c = Some (Fulfilled v) ->
                          promises s !! c = Some (Fulfilled v)) as Hold.
      { intros c v Hc. apply lookup_app_Some in Hc as [Hc | [_ Hc]]; [done|].
        by destruct (c - length (promises s))%nat as [|[|?]]. }
      split.
      * rewrite fmap_app. apply StronglySorted_app_2; [|done|by repeat constructor].
        intros a b Ha ->%list_elem_of_singleton.
        apply list_elem_of_fmap in Ha as (j & -> & Hj). cbn. by apply wf_call_lt.
      * intros c v j Hc [Hj | ->%list_elem_of_singleton]%elem_of_app.
        -- by eapply Hdone, Hj; apply Hold.
        -- cbn. by eapply lookup_lt_Some, Hold.
  - by destruct s.
  - by destruct s.
  - cbn. destruct (resume_shape s turn) as [[Hin Hp] | (j & rest & Hs & Hin & Hp)];
      unfold inOrder; rewrite Hin.
    + by rewrite Hp.
    + rewrite Hs in Hsorted. cbn in Hsorted.
      apply StronglySorted_inv in Hsorted as [Hrest Hj].
      split; [done|]. intros c v j' Hc Hj'.
      destruct Hp as [Hp | Hp]; rewrite Hp in Hc.
      * apply (Hdone c v j'); [done|]. rewrite Hs. by right.
      * destruct (decide (c = call j)) as [->|Hne].
        -- rewrite Forall_forall in Hj. apply Hj. by apply list_elem_of_fmap_2.
        -- rewrite list_lookup_insert_ne in Hc by done.
           apply (Hdone c v j'); [done|]. rewrite Hs. by right.
Qed.

Lemma inOrder_run s evs : wf s -> inOrder s -> inOrder (run s evs).
Proof.
  revert s. induction evs as [|ev evs IH]; intros s Hwf Hord; [done|].
  cbn. apply IH; [by apply wf_step | by apply inOrder_step].
Qed.

(** X6. The queue is first in, first out: in every state a session can
    reach, the unfinished callbacks (the one in progress, then the queued
    ones) stand in the strict order of their calls; and once the promise
    of a call has been resolved, neither that call nor any earlier one is
    still unfinished. *)
Theorem reparses_run_in_arrival_order (evs : list Event) :
  StronglySorted lt (call <$> inflight (run init evs)) /\
  forall (earlier later : nat) (v : option (list RangeChange)),
    (earlier <= later)%nat ->
    promises (run init evs) !! later = Some (Fulfilled v) ->
    earlier ∉ call <$> inflight (run init evs).
Proof.
  assert (inOrder (run init evs)) as [Hsorted Hdone].
  { apply inOrder_run; [apply wf_init|]. split; [constructor|].
    intros c v' j _ Hj. by apply elem_of_nil in Hj. }
  split; [done|]. intros earlier later v Hle Hlater Hin.
  apply list_elem_of_fmap in Hin as (j & -> & Hj).
  specialize (Hdone later v j Hlater Hj). lia.
Qed.

Lemma settled_step s ev c st :
  wf s -> promises s !! c = Some st -> st <> Pending ->
  promises (step s ev) !! c = Some st.
Proof.
  intros Hwf Hc Hst. destruct ev as [model changes| | |turn].
  - cbn. destruct (onDidChangeContent_shape s model changes)
      as [(e & _ & Hp) | (r & _ & Hp)]; rewrite Hp;
      (rewrite lookup_app_l; [done|by eapply lookup_lt_Some]).
  - by destruct s.
  - by destruct s.
  - cbn. destruct (resume_shape s turn) as [[_ Hp] | (j & rest & Hs & _ & [Hp|Hp])];
      rewrite Hp; [done..|].
    rewrite list_lookup_insert_ne; [done|]. intros <-.
    destruct Hwf as [_ Hpend]. rewrite (Hpend j) in Hc; [congruence|].
    rewrite Hs. by left.
Qed.

(** X7. A promise handed out by [onDidChangeContent] settles at most once:
    once it has been resolved or rejected it keeps that outcome whatever
    happens to the session afterwards. *)
Theorem onDidChangeContent_promise_settles_once (before after : list Event) (c : nat)
    (st : PromiseState (option (list RangeChange))) :
  promises (run init before) !! c = Some st ->
  st <> Pending ->
  promises (run init (before ++ after)) !! c = Some st.
Proof.
  intros Hc Hst. rewrite run_app.
  assert (wf (run init before)) as Hwf by apply wf_run, wf_init.
  revert Hwf Hc. generalize (run init before). clear before.
  induction after as [|ev evs IH]; intros s Hwf Hc; [done|].
  cbn. apply IH; [by apply wf_step | by apply settled_step].
Qed.

Lemma disposedBeforeCommit_step s ev :
  disposedBeforeCommit s ->
  disposedBeforeCommit (step s ev) /\
  telemetry (step s ev) = telemetry s /\
  (treeSets (step s ev) = treeSets s \/ treeSets (step s ev) = treeSets s ++ [None]).
Proof.
  intros [Hd Hrun]. destruct ev as [model changes| | |turn].
  - cbn. unfold Session.onDidChangeContent, disposedBeforeCommit.
    pose proof (changedRanges_state treeEdit s model changes) as Hst.
    destruct (Session.changedRanges treeEdit s model changes) as [s1 [r|e]];
      cbn in Hst; subst s1.
    all: destruct (applyEdits_frame treeEdit s model changes)
           as (Hd' & _ & _ & Hr & _ & Hts & _ & Htm).
    all: cbn; rewrite Hd', Hr, Hts, Htm; split_and!; by eauto.
  - unfold disposedBeforeCommit. destruct s; cbn in *. split_and!; by eauto.
  - unfold disposedBeforeCommit. destruct s; cbn in *. split_and!; by eauto.
  - cbn. unfold resume, disposedBeforeCommit in *.
    destruct s as [t d ne md q rn ps ts el tm]; cbn in *. subst d.
    destruct rn as [[j a]|]; cbn.
    + unfold resumeJob; cbn.
      destruct a as [tree passes pt | [[tree|]|e] | [[]|e]]; cbn; try done.
      * rewrite orb_true_r. cbn. split_and!; by eauto.
      * destruct (negb ne); cbn; split_and!; by eauto.
      * split_and!; by eauto.
      * split_and!; by eauto.
      * split_and!; by eauto.
    + destruct q as [|j q]; cbn; split_and!; by eauto.
Qed.

(** X8. A disposed session never installs a parsed tree and reports no
    parse: from the moment of disposal on (unless [_parseAndYield] had
    already returned a tree) the setter is only ever handed [undefined] and
    the telemetry sink is not called again. *)
Theorem disposed_session_installs_no_tree (s : State) (evs : list Event) :
  disposedBeforeCommit s ->
  _isDisposed (run s evs) = true /\
  telemetry (run s evs) = telemetry s /\
  exists k, treeSets (run s evs) = treeSets s ++ replicate k None.
Proof.
  revert s. induction evs as [|ev evs IH]; intros s Hs.
  - split_and!; [apply Hs|done|]. exists O. by rewrite app_nil_r.
  - destruct (disposedBeforeCommit_step s ev Hs) as (Hs' & Htm & Hts).
    change (run s (ev :: evs)) with (run (step s ev) evs).
    destruct (IH _ Hs') as (Hd & Htm' & k & Hk). split_and!; [done|congruence|].
    destruct Hts as [Hts|Hts]; rewrite Hk, Hts.
    + by exists k.
    + exists (S k). by rewrite <- app_assoc.
Qed.

End SessionOrderFacts.

Lemma onDidChangeContent_promise_settles_once_witness :
  Session.promises (Session.run markingEdit Session.init exampleReparsedEvents) !! 1%nat
  = Some (Fulfilled exampleRanges) /\
  Fulfilled exampleRanges <> Pending /\
  Session.promises
    (Session.run markingEdit Session.init
       (exampleReparsedEvents ++
        [Session.OnDidChangeContent exampleModel [exampleChange]; Session.Dispose]))
  !! 1%nat = Some (Fulfilled exampleRanges).
Proof.
  assert (Session.promises (Session.run markingEdit Session.init exampleReparsedEvents)
          !! 1%nat = Some (Fulfilled exampleRanges)) as Hc by (vm_compute; reflexivity).
  assert (Fulfilled exampleRanges <> (Pending : PromiseState (option (list RangeChange))))
    as Hst by discriminate.
  split; [exact Hc | split; [exact Hst |]].
  exact (onDidChangeContent_promise_settles_once markingEdit exampleReparsedEvents
           [Session.OnDidChangeContent exampleModel [exampleChange]; Session.Dispose]
           1 (Fulfilled exampleRanges) Hc Hst).
Defined.

Lemma disposed_session_installs_no_tree_witness :
  disposedBeforeCommit
    (Session.step markingEdit (exampleEdited markingEdit) Session.Dispose) /\
  Session.telemetry
    (Session.run markingEdit
       (Session.step markingEdit (exampleEdited markingEdit) Session.Dispose)
       [Session.Resume (quietTurn (Some exampleNew)); Session.Resume (quietTurn None)])
  = Session.telemetry
      (Session.step markingEdit (exampleEdited markingEdit) Session.Dispose).
Proof.
  assert (disposedBeforeCommit
            (Session.step markingEdit (exampleEdited markingEdit) Session.Dispose)) as Hs
    by (split; [vm_compute; reflexivity | vm_compute; exact I]).
  split; [exact Hs|].
  exact (proj1 (proj2 (disposed_session_installs_no_tree markingEdit _
           [Session.Resume (quietTurn (Some exampleNew)); Session.Resume (quietTurn None)]
           Hs))).
Defined.

Section SessionProgress.
Import Session.
Variable treeEdit : Tree -> InputEdit.t -> Tree.

Local Abbreviation step := (Session.step treeEdit).
Local Abbreviation run := (Session.run treeEdit).

Lemma fruitless_passes (m : nat) : forall s j k parseType,
  running s = Some {| job := j; at_ := AwaitTimeout None k parseType |} ->
  _newEdits s = false -> _isDisposed s = false -> modelDisposed s = false ->
  run s (replicate m (Resume (quietTurn None))) =
  with_running s (Some {| job := j; at_ := AwaitTimeout None (k + m) parseType |}).
Proof.
  induction m as [|m IH]; intros s j k parseType Hrun Hne Hd Hmd.
  - cbn. rewrite Nat.add_0_r, <- Hrun. by destruct s.
  - cbn [replicate]. change (run s (?ev :: ?evs)) with (run (step s ev) evs).
    assert (step s (Resume (quietTurn None)) =
            with_running s (Some {| job := j; at_ := AwaitTimeout None (S k) parseType |}))
      as ->.
    { cbn. unfold resume. rewrite Hrun. unfold resumeJob. cbn. by rewrite Hmd, Hd, Hne. }
    rewrite (IH _ j (S k) parseType) by by destruct s.
    replace (S k + m)%nat with (k + S m)%nat by lia. by destruct s.
Qed.

(** X9. An idle session that is not disposed starts its oldest queued
    reparse; if the parser comes back empty [n] times and then returns a
    tree while nothing else happens, the session reports a parse of
    [n + 1] passes (incremental if it had a tree, full if not), installs
    the tree, resolves the promise of that call with its ranges and is
    idle again with the rest of the queue. *)
Theorem quiet_reparse_commits_and_resolves (s : State) (j : Job) (q : list Job)
    (t : Tree) (n : nat) :
  running s = None ->
  queue s = j :: q ->
  _isDisposed s = false ->
  modelDisposed s = false ->
  let s' := run s (replicate n (Resume (quietTurn None))
                   ++ [Resume (quietTurn (Some t))]
                   ++ replicate 3 (Resume (quietTurn None))) in
  _tree s' = Some t /\
  treeSets s' = treeSets s ++ [Some t] /\
  telemetry s' =
    telemetry s ++ [(if truthy (_tree s) then Incremental else Full, S n)] /\
  promises s' = <[call j := Fulfilled (ranges j)]> (promises s) /\
  running s' = None /\ queue s' = q /\ _newEdits s' = false.
Proof.
  intros Hrun Hq Hd Hmd. cbv zeta.
  set (parseType := if truthy (_tree s) then Incremental else Full).
  assert (run s (replicate n (Resume (quietTurn None)) ++ [Resume (quietTurn (Some t))]) =
          with_running (with_newEdits (with_queue s q) false)
            (Some {| job := j; at_ := AwaitTimeout (Some t) (S n) parseType |})) as Hpasses.
  { destruct n as [|n].
    - cbn. unfold resume. rewrite Hrun, Hq. unfold startJob. cbn. by rewrite Hd.
    - cbn [replicate app]. change (run s (?ev :: ?evs)) with (run (step s ev) evs).
      assert (step s (Resume (quietTurn None)) =
              with_running (with_newEdits (with_queue s q) false)
                (Some {| job := j; at_ := AwaitTimeout None 1 parseType |})) as ->.
      { cbn. unfold resume. rewrite Hrun, Hq. unfold startJob. cbn. by rewrite Hd. }
      rewrite run_app.
      rewrite (fruitless_passes n _ j 1%nat parseType) by by destruct s.
      cbn. unfold resume. cbn. unfold resumeJob. cbn. rewrite Hmd, Hd. cbn.
      by destruct s. }
  rewrite app_assoc, run_app, Hpasses.
  destruct s as [tr d ne md qu rn ps ts el tm]; cbn in *. subst d md.
  unfold resume, resumeJob; cbn. done.
Qed.

End SessionProgress.

Lemma quiet_reparse_commits_and_resolves_witness :
  Session.running (exampleEdited markingEdit) = None /\
  Session.queue (exampleEdited markingEdit) = [Session.mkJob 1 exampleRanges] /\
  Session._isDisposed (exampleEdited markingEdit) = false /\
  Session.modelDisposed (exampleEdited markingEdit) = false /\
  Session._tree
    (Session.run markingEdit (exampleEdited markingEdit)
       (replicate 2 (Session.Resume (quietTurn None))
        ++ [Session.Resume (quietTurn (Some exampleNew))]
        ++ replicate 3 (Session.Resume (quietTurn None))))
  = Some exampleNew.
Proof.
  assert (Session.running (exampleEdited markingEdit) = None) as Hrun
    by (vm_compute; reflexivity).
  assert (Session.queue (exampleEdited markingEdit) = [Session.mkJob 1 exampleRanges])
    as Hq by (vm_compute; reflexivity).
  assert (Session._isDisposed (exampleEdited markingEdit) = false) as Hd
    by (vm_compute; reflexivity).
  assert (Session.modelDisposed (exampleEdited markingEdit) = false) as Hmd
    by (vm_compute; reflexivity).
  split; [exact Hrun | split; [exact Hq | split; [exact Hd | split; [exact Hmd |]]]].
  exact (proj1 (quiet_reparse_commits_and_resolves markingEdit (exampleEdited markingEdit)
                  (Session.mkJob 1 exampleRanges) [] exampleNew 2 Hrun Hq Hd Hmd)).
Defined.

(** ** Further properties of the catalog *)

Section CatalogExtras.
Import Languages.
Variable nodeModules : string.

Local Abbreviation step := (Languages.step nodeModules).
Local Abbreviation run := (Languages.run nodeModules).

Lemma allRecorded_addLanguage s k s1 started :
  _addLanguage nodeModules s k = Normal (s1, started) -> allRecorded s -> allRecorded s1.
Proof.
  rewrite addLanguage_effect. intros [= Heq]. revert Heq.
  destruct (_languages s !! k) as [p|] eqn:Hk; [by intros [= <- _]|].
  pose proof (fetchLanguage_frame nodeModules s k) as Hfr.
  destruct (_fetchLanguage nodeModules s k) as [s0 fetching].
  destruct Hfr as (Hl & _). intros [= <- _] Hall languageId p. cbn. rewrite Hl.
  unfold AsyncCache.set. rewrite lookup_insert. case_decide.
  - by intros [= <-].
  - apply Hall.
Qed.

Lemma allRecorded_step s ev : allRecorded s -> allRecorded (step s ev).
Proof.
  intros Hall. destruct ev as [k|k|k o|k|k g|k].
  - destruct (getOrInitLanguage_state nodeModules s k) as [[_ ->] | [started Hadd]]; [done|].
    by eapply allRecorded_addLanguage.
  - destruct (getLanguage_state nodeModules s k) as (s1 & Hs1 & Hl & _).
    unfold allRecorded. rewrite Hl.
    destruct Hs1 as [[_ ->] | [started Hadd]]; [done|].
    by eapply allRecorded_addLanguage.
  - intros languageId p. cbn. unfold AsyncCache.settle. rewrite lookup_alter.
    case_decide; [subst|apply Hall].
    destruct (_languages s !! languageId) as [p0|] eqn:Hp0; [|done].
    intros [= <-]. specialize (Hall _ _ Hp0). unfold recorded in *.
    unfold PromiseWithSyncAccess.settle.
    destruct (promise p0) eqn:Hpr; cbn; rewrite ?Hpr; [|done..].
    by destruct (_result p0).
  - intros languageId p. cbn. unfold react.
    destruct (_languages s !! k) as [p0|] eqn:Hk; [|apply Hall].
    destruct (promise p0) eqn:Hpr; [apply Hall| |];
      (destruct (_result p0) eqn:Hr; [apply Hall|]).
    all: cbn; unfold AsyncCache.react; rewrite lookup_alter.
    all: case_decide; [subst|apply Hall].
    all: rewrite Hk; intros [= <-]; unfold recorded, PromiseWithSyncAccess.react;
         by rewrite Hpr; cbn; rewrite ?Hpr.
  - cbn. unfold _addGrammar. by destruct (negb _).
  - cbn. unfold _removeGrammar. by destruct (bool_decide _).
Qed.

Lemma allRecorded_run s evs : allRecorded s -> allRecorded (run s evs).
Proof.
  revert s. induction evs as [|ev evs IH]; intros s Hall; [done|].
  cbn. by apply IH, allRecorded_step.
Qed.

Lemma allRecorded_init registered : allRecorded (init registered).
Proof. intros languageId p. cbn. by rewrite lookup_empty. Qed.

Lemma getOrInitLanguage_present s languageId p :
  _languages s !! languageId = Some p -> recorded p ->
  getOrInitLanguage nodeModules s languageId = Normal (s, loadedLanguage s languageId).
Proof.
  intros Hp Hrec. unfold getOrInitLanguage, loadedLanguage, recorded in *.
  rewrite isCached_normal, getSyncIfCached_normal. cbn. rewrite Hp.
  destruct p as [pr [r|]]; cbn in *.
  - destruct pr as [|[l|]|e]; [done|by subst..].
  - rewrite addLanguage_effect. cbn. rewrite Hp. by destruct pr as [|[l|]|e].
Qed.

(** X10. In every state the catalog can reach, [getOrInitLanguage]
    completes without throwing and returns a grammar exactly when the load
    of that identifier was fulfilled with this grammar and recorded; asked
    again at once, it returns the same and changes nothing. *)
Theorem getOrInitLanguage_returns_loaded (registered : gmap string string)
    (evs : list Event) (languageId : string) :
  exists s1,
    getOrInitLanguage nodeModules (run (init registered) evs) languageId =
      Normal (s1, loadedLanguage (run (init registered) evs) languageId) /\
    getOrInitLanguage nodeModules s1 languageId = Normal (s1, loadedLanguage s1 languageId).
Proof.
  pose proof (allRecorded_run (init registered) evs (allRecorded_init registered)) as Hall.
  revert Hall. generalize (run (init registered) evs). intros s Hall.
  destruct (_languages s !! languageId) as [p|] eqn:Hp.
  - exists s. split; by eapply getOrInitLanguage_present, Hall.
  - unfold getOrInitLanguage at 1. unfold loadedLanguage at 1.
    rewrite isCached_normal. cbn. rewrite Hp. cbn.
    rewrite addLanguage_effect. cbn. rewrite Hp.
    pose proof (fetchLanguage_frame nodeModules s languageId) as Hfr.
    destruct (_fetchLanguage nodeModules s languageId) as [s0 fetching]. cbn.
    destruct Hfr as (Hl & _).
    eexists. split; [done|].
    eapply getOrInitLanguage_present; cbn.
    + unfold AsyncCache.set. apply lookup_insert_eq.
    + done.
Qed.

Lemma addLanguage_keeps_entry s k s1 started languageId p :
  _addLanguage nodeModules s k = Normal (s1, started) ->
  _languages s !! languageId = Some p -> _languages s1 !! languageId = Some p.
Proof.
  rewrite addLanguage_effect. intros [= Heq]. revert Heq.
  destruct (_languages s !! k) as [p0|] eqn:Hk; [by intros [= <- _]|].
  pose proof (fetchLanguage_frame nodeModules s k) as Hfr.
  destruct (_fetchLanguage nodeModules s k) as [s0 fetching].
  destruct Hfr as (Hl & _). intros [= <- _] Hp. cbn. rewrite Hl.
  unfold AsyncCache.set. rewrite lookup_insert_ne; [done|congruence].
Qed.

Lemma settled_load_step s ev languageId p :
  _languages s !! languageId = Some p -> promise p <> Pending ->
  exists p', _languages (step s ev) !! languageId = Some p' /\ promise p' = promise p.
Proof.
  intros Hp Hpr. destruct ev as [k|k|k o|k|k g|k].
  - exists p. split; [|done].
    destruct (getOrInitLanguage_state nodeModules s k) as [[_ Heq] | [started Hadd]];
      [by rewrite Heq | by eapply addLanguage_keeps_entry].
  - exists p. split; [|done].
    destruct (getLanguage_state nodeModules s k) as (s1 & Hs1 & -> & _).
    destruct Hs1 as [[_ ->] | [started Hadd]]; [done | by eapply addLanguage_keeps_entry].
  - cbn. unfold AsyncCache.settle. rewrite lookup_alter.
    destruct (decide (k = languageId)) as [->|Hne]; [|by exists p].
    rewrite Hp. cbn. eexists. split; [done|]. unfold PromiseWithSyncAccess.settle.
    by destruct (promise p) eqn:E; cbn; rewrite ?E.
  - cbn. unfold react. destruct (_languages s !! k) as [p0|] eqn:Hk; [|by exists p].
    destruct (promise p0) eqn:Hpr0; [by exists p| |];
      (destruct (_result p0); [by exists p|]).
    all: cbn; unfold AsyncCache.react; rewrite lookup_alter.
    all: destruct (decide (k = languageId)) as [->|Hne]; [|by exists p].
    all: rewrite Hp; cbn; eexists; split; [done|]; unfold PromiseWithSyncAccess.react;
         by destruct (promise p) eqn:E; cbn; rewrite ?E.
  - cbn. unfold _addGrammar. destruct (negb _); by exists p.
  - cbn. unfold _removeGrammar. destruct (bool_decide _); by exists p.
Qed.

(** X11. A load that has settled is final: whatever is requested or
    settles afterwards, the entry of that identifier keeps the outcome of
    its load; in particular a failed load is never replaced by a new
    one. *)
Theorem settled_load_is_final (s : State) (evs : list Event) (languageId : string)
    (p : PromiseWithSyncAccess (option Language)) :
  _languages s !! languageId = Some p ->
  promise p <> Pending ->
  exists p', _languages (run s evs) !! languageId = Some p' /\ promise p' = promise p.
Proof.
  revert s p. induction evs as [|ev evs IH]; intros s p Hp Hpr; [by eauto|].
  destruct (settled_load_step s ev languageId p Hp Hpr) as (p1 & Hp1 & Heq).
  change (run s (ev :: evs)) with (run (step s ev) evs).
  destruct (IH _ _ Hp1 ltac:(congruence)) as (p' & Hp' & Heq').
  exists p'. split; [done|congruence].
Qed.

End CatalogExtras.

Lemma settled_load_is_final_witness :
  Languages._languages exampleFailedCatalog !! "typescript"
  = Some {| promise := Rejected fetchFailure; _result := None |} /\
  Rejected fetchFailure <> (Pending : PromiseState (option Languages.Language)) /\
  exists p',
    Languages._languages
      (Languages.run "node_modules" exampleFailedCatalog
         [ Languages.React "typescript"; Languages.GetOrInitLanguage "typescript";
           Languages.FetchSettles "typescript" (Normal (Languages.mkLanguage [0])) ])
    !! "typescript" = Some p' /\
    promise p' = Rejected fetchFailure.
Proof.
  assert (Languages._languages exampleFailedCatalog !! "typescript"
          = Some {| promise := Rejected fetchFailure; _result := None |}) as Hp
    by (vm_compute; reflexivity).
  assert (Rejected fetchFailure <> (Pending : PromiseState (option Languages.Language)))
    as Hpr by discriminate.
  split; [exact Hp | split; [exact Hpr |]].
  exact (settled_load_is_final "node_modules" exampleFailedCatalog
           [ Languages.React "typescript"; Languages.GetOrInitLanguage "typescript";
             Languages.FetchSettles "typescript" (Normal (Languages.mkLanguage [0])) ]
           "typescript" _ Hp Hpr).
Defined.

Section CatalogWaits.
Import Languages.
Variable nodeModules : string.

Local Abbreviation step := (Languages.step nodeModules).
Local Abbreviation run := (Languages.run nodeModules).

Lemma NoDup_fmap_filter {A B} (f : A -> B) (P : A -> Prop) `{forall x, Decision (P x)}
    (l : list A) :
  NoDup (f <$> l) -> NoDup (f <$> filter P l).
Proof.
  induction l as [|x l IH]; [done|]. rewrite fmap_cons. intros [Hx Hnd]%NoDup_cons.
  rewrite filter_cons. destruct (decide (P x)); [|by apply IH].
  rewrite fmap_cons. apply NoDup_cons. split; [|by apply IH].
  intros (y & Hy & Hin%list_elem_of_filter)%list_elem_of_fmap.
  apply Hx. apply list_elem_of_fmap. exists y. by destruct Hin.
Qed.

Lemma NoDup_fmap_agree {A B} (f : A -> B) (l : list A) x y :
  NoDup (f <$> l) -> x ∈ l -> y ∈ l -> f x = f y -> x = y.
Proof.
  induction l as [|z l IH]; [by intros _ ?%elem_of_nil|].
  cbn. intros [Hz Hnd]%NoDup_cons [->|Hx]%elem_of_cons [->|Hy]%elem_of_cons Heq;
    [done| | |by apply IH].
  - destruct Hz. apply list_elem_of_fmap. by exists y.
  - destruct Hz. apply list_elem_of_fmap. by exists x.
Qed.

Lemma getLanguageResumes_load load await : getLanguageResumes load await = load.
Proof. by destruct await, load. Qed.

Lemma settleWaits_length k load ws : forall rs,
  length (settleWaits k load ws rs) = length rs.
Proof.
  unfold settleWaits. induction ws as [|w ws IH]; intros rs; [done|]. cbn.
  rewrite IH. destruct (String.eqb _ _); [apply length_insert|done].
Qed.

Lemma settleWaits_other k load ws : forall rs c,
  (forall a, (c, k, a) ∉ ws) ->
  settleWaits k load ws rs !! c = rs !! c.
Proof.
  unfold settleWaits. induction ws as [|[[c' k'] a'] ws IH]; intros rs c Hc; [done|].
  cbn. rewrite IH by (intros a Ha; apply (Hc a); by right).
  destruct (String.eqb k' k) eqn:Hk; [|done]. apply String.eqb_eq in Hk as ->.
  apply list_lookup_insert_ne. intros ->. apply (Hc a'). by left.
Qed.

Lemma settleWaits_settled k load ws : forall rs c a,
  NoDup (fst ∘ fst <$> ws) -> (c, k, a) ∈ ws -> (c < length rs)%nat ->
  settleWaits k load ws rs !! c = Some load.
Proof.
  induction ws as [|[[c' k'] a'] ws IH]; intros rs c a Hnd Hin Hlt.
  { by apply elem_of_nil in Hin. }
  cbn in Hnd. apply NoDup_cons in Hnd as [Hc' Hnd].
  change (settleWaits k load ((c', k', a') :: ws) rs)
    with (settleWaits k load ws
            (if String.eqb k' k then <[c' := getLanguageResumes load a']> rs else rs)).
  apply elem_of_cons in Hin as [[= <- <- <-] | Hin].
  - rewrite String.eqb_refl, settleWaits_other.
    + rewrite getLanguageResumes_load. by apply list_lookup_insert_eq.
    + intros a0 Ha0. apply Hc'. apply list_elem_of_fmap. by exists (c, k, a0).
  - apply (IH _ c a); [done..|]. destruct (String.eqb k' k); by rewrite ?length_insert.
Qed.

Lemma addLanguage_frame_waits s k s1 started :
  _addLanguage nodeModules s k = Normal (s1, started) ->
  results s1 = results s /\ getLanguageWaits s1 = getLanguageWaits s /\
  (started = true -> exists p, _languages s1 !! k = Some p /\ _result p = None) /\
  (started = false -> _languages s1 = _languages s).
Proof.
  rewrite addLanguage_effect. intros [= Heq]. revert Heq.
  destruct (_languages s !! k) as [p0|] eqn:Hk; [by intros [= <- <-]|].
  pose proof (fetchLanguage_frame nodeModules s k) as Hfr.
  destruct (_fetchLanguage nodeModules s k) as [s0 fetching].
  destruct Hfr as (Hl & _ & _ & _ & Hr & Hw). intros [= <- <-]. cbn.
  split_and!; [done..| |done]. intros _. eexists. unfold AsyncCache.set.
  by rewrite lookup_insert_eq.
Qed.

Lemma waitsInv_keep s s' :
  results s' = results s -> getLanguageWaits s' = getLanguageWaits s ->
  (forall languageId p, _languages s !! languageId = Some p -> _result p = None ->
     exists p', _languages s' !! languageId = Some p' /\ _result p' = None) ->
  waitsInv s -> waitsInv s'.
Proof.
  intros Hr Hw Hl [Hnd Hwait]. unfold waitsInv. rewrite Hr, Hw. split; [done|].
  intros c languageId await Hin. destruct (Hwait _ _ _ Hin) as (Hc & p & Hp & Hres).
  split; [done|]. by eapply Hl.
Qed.

Lemma waitsInv_snoc s x :
  waitsInv s -> waitsInv (with_results s (results s ++ [x]) (getLanguageWaits s)).
Proof.
  intros [Hnd Hwait]. split; [done|]. cbn. intros c languageId await Hin.
  destruct (Hwait _ _ _ Hin) as (Hc & Hp). split; [|done].
  rewrite lookup_app_l; [done|by eapply lookup_lt_Some].
Qed.

Lemma waitsInv_step s ev : waitsInv s -> waitsInv (step s ev).
Proof.
  intros Hinv. destruct ev as [k|k|k o|k|k g|k].
  - destruct (getOrInitLanguage_state nodeModules s k) as [[_ Heq] | [started Hadd]];
      [by rewrite Heq|].
    destruct (addLanguage_frame_waits _ _ _ _ Hadd) as (Hr & Hw & _).
    apply (waitsInv_keep s); [done..| |done].
    intros languageId p Hp Hres. exists p. split; [|done].
    by eapply addLanguage_keeps_entry.
  - cbn. unfold getLanguage, getLanguageBody.
    rewrite isCached_normal, getSyncIfCached_normal. cbn.
    destruct (match _languages s !! k with Some p => truthy (_result p) | None => false end)
      eqn:Hcached; cbn.
    { by apply waitsInv_snoc. }
    destruct (_addLanguage nodeModules s k) as [[s1 started]|e] eqn:Hadd;
      [|by rewrite addLanguage_effect in Hadd].
    cbn. destruct (addLanguage_frame_waits _ _ _ _ Hadd) as (Hr & Hw & Hnew & Hold).
    destruct Hinv as [Hnd Hwait]. split; cbn; rewrite ?Hr, ?Hw.
    + rewrite fmap_app. apply NoDup_app. split_and!; [done| |apply NoDup_singleton].
      intros c Hc ->%list_elem_of_singleton.
      apply list_elem_of_fmap in Hc as ([[c' k'] a'] & Hc & Hin). cbn in Hc. subst c'.
      destruct (Hwait _ _ _ Hin) as [Hlt%lookup_lt_Some _]. lia.
    + intros c languageId await [Hin | [= -> -> ->]%list_elem_of_singleton]%elem_of_app.
      * destruct (Hwait _ _ _ Hin) as (Hc & p & Hp & Hres). split.
        -- rewrite lookup_app_l; [done|by eapply lookup_lt_Some].
        -- exists p. split; [|done]. by eapply addLanguage_keeps_entry.
      * split; [by rewrite lookup_app_r, Nat.sub_diag|].
        destruct started; [by apply Hnew|]. rewrite Hold by done.
        destruct (_languages s !! k) as [p|] eqn:Hp.
        -- exists p. split; [done|]. by destruct (_result p).
        -- rewrite addLanguage_effect, Hp in Hadd.
           destruct (_fetchLanguage nodeModules s k). by injection Hadd.
  - apply (waitsInv_keep s); [done..| |done].
    intros languageId p Hp Hres. cbn. unfold AsyncCache.settle. rewrite lookup_alter.
    destruct (decide (k = languageId)) as [->|Hne]; [|by exists p].
    rewrite Hp. cbn. eexists. split; [done|]. unfold PromiseWithSyncAccess.settle.
    by destruct (promise p).
  - cbn. unfold react. destruct (_languages s !! k) as [p0|] eqn:Hk; [|done].
    assert (waitsInv
      (mkState (AsyncCache.react (_languages s) k) (_registeredLanguages s)
         (filter (fun x => x <> k) (addLanguageWaits s))
         (filter (fun w => snd (fst w) <> k) (getLanguageWaits s))
         (settleWaits k (promise p0) (getLanguageWaits s) (results s))
         (fired s ++ (filter (fun x => x = k) (addLanguageWaits s)
                      ≫= (fun _ => addLanguageResumes k (promise p0))))
         (fetched s) (readFiles s))) as Hgoal.
    { destruct Hinv as [Hnd Hwait]. split; cbn.
      - by apply NoDup_fmap_filter.
      - intros c languageId await Hin.
        apply list_elem_of_filter in Hin as [Hne Hin]. cbn in Hne.
        destruct (Hwait _ _ _ Hin) as (Hc & p & Hp & Hres). split.
        + rewrite settleWaits_other; [done|]. intros a Ha.
          assert ((c, k, a) = (c, languageId, await)) as [= ->]; [|done].
          by apply (NoDup_fmap_agree (fst ∘ fst) (getLanguageWaits s)).
        + exists p. split; [|done]. unfold AsyncCache.react.
          by rewrite lookup_alter_ne. }
    by destruct (promise p0), (_result p0).
  - cbn. unfold _addGrammar. by destruct (negb _).
  - cbn. unfold _removeGrammar. by destruct (bool_decide _).
Qed.

Lemma waitsInv_run s evs : waitsInv s -> waitsInv (run s evs).
Proof.
  revert s. induction evs as [|ev evs IH]; intros s Hinv; [done|].
  cbn. apply IH. by apply waitsInv_step.
Qed.

Lemma waitsInv_init registered : waitsInv (init registered).
Proof. split; [constructor|]. by intros c languageId await ?%elem_of_nil. Qed.

(** X12. When the reactions on a settled load run, every call of
    [getLanguage] that was waiting for that load settles with the outcome
    of the load, whichever of its two [await]s it was suspended at, and no
    call is left waiting for that identifier. *)
Theorem getLanguage_waiters_settle_with_load (registered : gmap string string)
    (evs : list Event) (languageId : string) (c : nat) (await : GetLanguageAwait)
    (p : PromiseWithSyncAccess (option Language))
    (Hwait : (c, languageId, await) ∈ getLanguageWaits (run (init registered) evs))
    (Hload : _languages (run (init registered) evs) !! languageId = Some p)
    (Hsettled : promise p <> Pending) :
  results (run (init registered) evs) !! c = Some Pending /\
  results (step (run (init registered) evs) (React languageId)) !! c = Some (promise p) /\
  Forall (fun w => snd (fst w) <> languageId)
    (getLanguageWaits (step (run (init registered) evs) (React languageId))).
Proof.
  pose proof (waitsInv_run _ evs (waitsInv_init registered)) as [Hnd Hinv].
  destruct (Hinv _ _ _ Hwait) as (Hc & p' & Hp' & Hres).
  assert (p' = p) as -> by congruence.
  split; [done|]. cbn. unfold react. rewrite Hload, Hres.
  assert (forall load, load = promise p ->
    results (mkState (AsyncCache.react (_languages (run (init registered) evs)) languageId)
      (_registeredLanguages (run (init registered) evs))
      (filter (fun x => x <> languageId) (addLanguageWaits (run (init registered) evs)))
      (filter (fun w => snd (fst w) <> languageId)
         (getLanguageWaits (run (init registered) evs)))
      (settleWaits languageId load (getLanguageWaits (run (init registered) evs))
         (results (run (init registered) evs)))
      (fired (run (init registered) evs) ++
         (filter (fun x => x = languageId) (addLanguageWaits (run (init registered) evs))
          ≫= (fun _ => addLanguageResumes languageId load)))
      (fetched (run (init registered) evs)) (readFiles (run (init registered) evs))) !! c
    = Some (promise p)) as Hsettle.
  { intros load ->. cbn. apply (settleWaits_settled _ _ _ _ _ await); [done..|].
    by eapply lookup_lt_Some. }
  destruct (promise p) eqn:Hpr; [done| |].
  - split; [by apply Hsettle|]. cbn. apply Forall_forall.
    by intros w [Hw _]%list_elem_of_filter.
  - split; [by apply Hsettle|]. cbn. apply Forall_forall.
    by intros w [Hw _]%list_elem_of_filter.
Qed.

End CatalogWaits.

Lemma getLanguage_waiters_settle_with_load_witness :
  Languages.results
    (Languages.step "node_modules"
       (Languages.run "node_modules" (Languages.init exampleRegistered)
          [Languages.GetLanguage "typescript"; Languages.GetLanguage "typescript";
           Languages.FetchSettles "typescript" (Throw fetchFailure)])
       (Languages.React "typescript")) !! 1%nat = Some (Rejected fetchFailure).
Proof.
  refine (proj1 (proj2 (getLanguage_waiters_settle_with_load "node_modules"
    exampleRegistered
    [Languages.GetLanguage "typescript"; Languages.GetLanguage "typescript";
     Languages.FetchSettles "typescript" (Throw fetchFailure)]
    "typescript" 1%nat Languages.AwaitCachePromise
    (mkPromiseWithSyncAccess (Rejected fetchFailure) None) _ _ _))).
  - vm_compute. constructor 2. constructor 1.
  - by vm_compute.
  - done.
Defined.

(** ** The service: configured grammars and parser start-up *)

Section ServiceFacts.
Import Service.
Variable nodeModules : string.

Local Abbreviation step := (Service.step nodeModules).
Local Abbreviation run := (Service.run nodeModules).

Lemma registryFor_cases setting :
  registryFor setting = ∅ \/
  registryFor setting = {[ "typescript" := "tree-sitter-typescript" ]}.
Proof. unfold registryFor. destruct (bool_decide _); by eauto. Qed.

Lemma supportedLanguagesChanged_registry cfg s setting :
  Languages._registeredLanguages (_treeSitterLanguages s) = registryFor setting ->
  Languages._registeredLanguages
    (_treeSitterLanguages (fst (_supportedLanguagesChanged cfg s))) =
  registryFor (_getSetting cfg).
Proof.
  intros Hreg. unfold _supportedLanguagesChanged, _initParser.
  assert (forall s0 : State, _treeSitterLanguages
    (fst (if _hasInit s0 then (s0, _init s0)
          else if negb (length (_getSetting cfg) =? 0)%nat
               then (mkState (_treeSitterLanguages s0) true
                       (Some (DoInitParser (doInitParserCalls s0)))
                       (S (doInitParserCalls s0))
                       (listenerRegistrations s0 ++ [DoInitParser (doInitParserCalls s0)]),
                     Some (DoInitParser (doInitParserCalls s0)))
               else (mkState (_treeSitterLanguages s0) (_hasInit s0) (Some ResolvedFalse)
                       (doInitParserCalls s0) (listenerRegistrations s0),
                     Some ResolvedFalse))) = _treeSitterLanguages s0) as ->.
  { intros s0. destruct (_hasInit s0); [done|]. by destruct (negb _). }
  unfold registryFor at 1. unfold registryFor in Hreg.
  destruct (bool_decide ("typescript" ∈ _getSetting cfg)); cbn.
  - unfold Languages._addGrammar. rewrite Hreg.
    destruct (bool_decide ("typescript" ∈ setting)); cbn.
    + rewrite bool_decide_eq_true_2; [cbn; by rewrite Hreg|].
      rewrite lookup_singleton_eq. by eexists.
    + rewrite bool_decide_eq_false_2; [cbn; by rewrite insert_empty|].
      rewrite lookup_empty. by intros [? ?].
  - unfold Languages._removeGrammar. rewrite Hreg.
    destruct (bool_decide ("typescript" ∈ setting)); cbn.
    + rewrite bool_decide_eq_true_2; [cbn; by rewrite delete_singleton_eq|].
      rewrite lookup_singleton_eq. by eexists.
    + rewrite bool_decide_eq_false_2; [cbn; by rewrite Hreg|].
      rewrite lookup_empty. by intros [? ?].
Qed.

Lemma addLanguage_registry l k l1 started :
  Languages._addLanguage nodeModules l k = Normal (l1, started) ->
  Languages._registeredLanguages l1 = Languages._registeredLanguages l.
Proof.
  rewrite addLanguage_effect. intros [= Heq]. revert Heq.
  destruct (Languages._languages l !! k); [by intros [= <- _]|].
  unfold Languages._fetchLanguage. cbn. destruct (negb _ || negb _); by intros [= <- _].
Qed.

Lemma getOrInitLanguage_registry l k :
  Languages._registeredLanguages (Languages.step nodeModules l (Languages.GetOrInitLanguage k)) =
  Languages._registeredLanguages l.
Proof.
  destruct (getOrInitLanguage_state nodeModules l k) as [[_ ->] | [started Hadd]]; [done|].
  by eapply addLanguage_registry.
Qed.

Lemma getLanguage_registry l k :
  Languages._registeredLanguages (Languages.getLanguage nodeModules l k) =
  Languages._registeredLanguages l.
Proof.
  unfold Languages.getLanguage, Languages.getLanguageBody.
  rewrite isCached_normal, getSyncIfCached_normal. cbn.
  destruct (match Languages._languages l !! k with
            | Some p => truthy (_result p)
            | None => false
            end); cbn; [done|].
  destruct (Languages._addLanguage nodeModules l k) as [[l1 started]|e] eqn:Hadd;
    cbn; [|done].
  by eapply addLanguage_registry.
Qed.

Lemma step_getOrInitLanguage s k :
  step s (GetOrInitLanguage k) =
  with_languages s
    (Languages.step nodeModules (_treeSitterLanguages s) (Languages.GetOrInitLanguage k)).
Proof.
  cbn. unfold getOrInitLanguage.
  destruct (Languages.getOrInitLanguage nodeModules (_treeSitterLanguages s) k)
    as [[l language]|e]; cbn; [done|]. by destruct s.
Qed.

Lemma react_registry l k :
  Languages._registeredLanguages (Languages.react l k) = Languages._registeredLanguages l.
Proof.
  unfold Languages.react. destruct (Languages._languages l !! k) as [p|]; [|done].
  by destruct (promise p), (_result p).
Qed.

Lemma step_registry s ev :
  Languages._registeredLanguages (_treeSitterLanguages (step s ev)) =
  match ev with
  | ConfigurationChanged cfg true =>
      Languages._registeredLanguages
        (_treeSitterLanguages (fst (_supportedLanguagesChanged cfg s)))
  | _ => Languages._registeredLanguages (_treeSitterLanguages s)
  end.
Proof.
  destruct ev as [cfg [|]|k|k [b|e]|k o|k]; try done.
  - rewrite step_getOrInitLanguage. cbn [with_languages _treeSitterLanguages].
    apply getOrInitLanguage_registry.
  - cbn. apply getLanguage_registry.
  - cbn. apply react_registry.
Qed.

Lemma applied_snoc cfg evs ev :
  applied cfg (evs ++ [ev]) =
  applied cfg evs ++ match ev with
                     | ConfigurationChanged cfg true => [cfg]
                     | _ => []
                     end.
Proof.
  unfold applied. rewrite bind_app. cbn. by rewrite app_nil_r.
Qed.

Lemma run_snoc s evs ev : run s (evs ++ [ev]) = step (run s evs) ev.
Proof. unfold Service.run. by rewrite foldl_app. Qed.

Lemma registry_shape_run cfg evs :
  exists setting,
    Languages._registeredLanguages (_treeSitterLanguages (run (new cfg) evs)) =
    registryFor setting.
Proof.
  induction evs as [|ev evs [setting IH]] using rev_ind.
  - eexists. unfold new. by apply (supportedLanguagesChanged_registry cfg _ []).
  - rewrite run_snoc, step_registry.
    destruct ev as [cfg' [|]|k|k i|k o|k]; try by exists setting.
    eexists. by eapply supportedLanguagesChanged_registry.
Qed.

Lemma supportedLanguagesChanged_reads cfg s :
  Languages.readFiles (_treeSitterLanguages (fst (_supportedLanguagesChanged cfg s))) =
  Languages.readFiles (_treeSitterLanguages s).
Proof.
  unfold _supportedLanguagesChanged, _initParser.
  match goal with |- context [fst (if _hasInit ?x then _ else _)] => set (s' := x) end.
  assert (Languages.readFiles (_treeSitterLanguages s') =
          Languages.readFiles (_treeSitterLanguages s)) as <-.
  { subst s'. unfold Languages._addGrammar, Languages._removeGrammar.
    destruct (bool_decide _); cbn; [by destruct (negb _)|by destruct (bool_decide _)]. }
  clearbody s'. destruct (_hasInit s'); [done|]. by destruct (negb _).
Qed.

Lemma fetchLanguage_path l k :
  Languages.readFiles (fst (Languages._fetchLanguage nodeModules l k)) = Languages.readFiles l \/
  exists grammarName,
    Languages._registeredLanguages l !! k = Some grammarName /\
    Languages.readFiles (fst (Languages._fetchLanguage nodeModules l k)) =
    Languages.readFiles l ++
      [(k, Languages.getModuleLocation nodeModules +:+ "/" +:+ grammarName +:+ ".wasm")].
Proof.
  unfold Languages._fetchLanguage, Languages._getLanguageLocation. cbn.
  destruct (Languages._registeredLanguages l !! k) as [g|]; cbn; [|by left].
  destruct (g =? "")%string; cbn; [by left|].
  destruct (negb _); cbn; [by left|]. right. by exists g.
Qed.

Lemma getOrInitLanguage_reads l k :
  Languages.readFiles (Languages.step nodeModules l (Languages.GetOrInitLanguage k)) =
    Languages.readFiles l \/
  exists grammarName,
    Languages._registeredLanguages l !! k = Some grammarName /\
    Languages.readFiles (Languages.step nodeModules l (Languages.GetOrInitLanguage k)) =
    Languages.readFiles l ++
      [(k, Languages.getModuleLocation nodeModules +:+ "/" +:+ grammarName +:+ ".wasm")].
Proof.
  destruct (getOrInitLanguage_state nodeModules l k) as [[_ ->] | [started Hadd]];
    [by left|].
  revert Hadd. generalize (Languages.step nodeModules l (Languages.GetOrInitLanguage k)).
  intros l' Hadd. rewrite addLanguage_effect in Hadd. injection Hadd as Hadd. revert Hadd.
  destruct (Languages._languages l !! k); [intros [= <- _]; by left|].
  pose proof (fetchLanguage_path l k) as Hpath.
  destruct (Languages._fetchLanguage nodeModules l k) as [l1 fetching].
  by intros [= <- _].
Qed.

Lemma getLanguage_reads l k :
  Languages.readFiles (Languages.getLanguage nodeModules l k) = Languages.readFiles l \/
  exists grammarName,
    Languages._registeredLanguages l !! k = Some grammarName /\
    Languages.readFiles (Languages.getLanguage nodeModules l k) =
    Languages.readFiles l ++
      [(k, Languages.getModuleLocation nodeModules +:+ "/" +:+ grammarName +:+ ".wasm")].
Proof.
  destruct (getLanguage_state nodeModules l k) as (l1 & Hl1 & _ & _ & _ & _ & Hreads).
  cbn [Languages.step] in Hreads. rewrite Hreads.
  destruct Hl1 as [[_ ->] | [started Hadd]]; [by left|].
  rewrite addLanguage_effect in Hadd. injection Hadd as Hadd. revert Hadd.
  destruct (Languages._languages l !! k); [intros [= <- _]; by left|].
  pose proof (fetchLanguage_path l k) as Hpath.
  destruct (Languages._fetchLanguage nodeModules l k) as [l0 fetching].
  by intros [= <- _].
Qed.

Lemma react_reads l k :
  Languages.readFiles (Languages.react l k) = Languages.readFiles l.
Proof.
  unfold Languages.react. destruct (Languages._languages l !! k) as [p|]; [|done].
  by destruct (promise p), (_result p).
Qed.

(** X13. The map of registered grammars always is the one that the
    configuration read last calls for, whatever was registered before and
    whatever the catalog did in between: [typescript] with the grammar
    [tree-sitter-typescript] when the effective setting includes
    [typescript], and nothing otherwise. *)
Theorem registry_follows_latest_setting (cfg : Configuration) (evs : list Event) :
  Languages._registeredLanguages (_treeSitterLanguages (run (new cfg) evs)) =
  registryFor (_getSetting (latest cfg evs)).
Proof.
  induction evs as [|ev evs IH] using rev_ind.
  - cbn. unfold new. by apply (supportedLanguagesChanged_registry cfg _ []).
  - unfold latest. rewrite foldl_app, run_snoc, step_registry.
    destruct ev as [cfg' [|]|k|k i|k o|k]; try exact IH.
    by eapply supportedLanguagesChanged_registry.
Qed.

Lemma supportedLanguagesChanged_started cfg s :
  (_hasInit s = false -> doInitParserCalls s = O /\ listenerRegistrations s = []) ->
  (_hasInit s = true -> started s) ->
  started (fst (_supportedLanguagesChanged cfg s)) /\
  _hasInit (fst (_supportedLanguagesChanged cfg s)) = _hasInit s || namesLanguages cfg.
Proof.
  intros Hno Hyes. unfold _supportedLanguagesChanged, _initParser, namesLanguages.
  match goal with |- context [_hasInit (fst (if _hasInit ?x then _ else _))] => set (s' := x) end.
  assert (_hasInit s' = _hasInit s /\ _init s' = _init s /\
          doInitParserCalls s' = doInitParserCalls s /\
          listenerRegistrations s' = listenerRegistrations s) as (H1 & H2 & H3 & H4).
  { subst s'. by destruct (bool_decide _). }
  clearbody s'. unfold started in *. rewrite H1.
  destruct (_hasInit s) eqn:Hinit.
  - cbn. rewrite H1, H2, H3, H4. split; [by apply Hyes|done].
  - destruct (Hno eq_refl) as [Hc Hl].
    destruct (negb _); cbn; rewrite ?H1, ?H3, ?H4, ?Hinit, ?Hc, ?Hl; done.
Qed.

Lemma step_started s ev :
  started s ->
  started (step s ev) /\
  _hasInit (step s ev) =
  _hasInit s || match ev with
                | ConfigurationChanged cfg true => namesLanguages cfg
                | _ => false
                end.
Proof.
  intros Hs. destruct ev as [cfg [|]|k|k [b|e]|k o|k]; rewrite ?orb_false_r; try done.
  - apply supportedLanguagesChanged_started; [|done].
    intros Hinit. unfold started in Hs. rewrite Hinit in Hs. by destruct Hs as (? & _ & ?).
  - by rewrite step_getOrInitLanguage.
Qed.

(** X14. [_doInitParser] runs at most once: the parser is started by the
    first configuration read whose effective setting is not empty, and
    from then on [_init] stays the promise of that one start, with the
    model listeners scheduled on it once. Until then [_init] is a promise
    already resolved to [false]. *)
Theorem parser_is_started_at_most_once (cfg : Configuration) (evs : list Event) :
  _hasInit (run (new cfg) evs) = existsb namesLanguages (applied cfg evs) /\
  if existsb namesLanguages (applied cfg evs)
  then doInitParserCalls (run (new cfg) evs) = 1%nat /\
       _init (run (new cfg) evs) = Some (DoInitParser O) /\
       listenerRegistrations (run (new cfg) evs) = [DoInitParser O]
  else doInitParserCalls (run (new cfg) evs) = O /\
       _init (run (new cfg) evs) = Some ResolvedFalse /\
       listenerRegistrations (run (new cfg) evs) = [].
Proof.
  assert (started (run (new cfg) evs) /\
          _hasInit (run (new cfg) evs) = existsb namesLanguages (applied cfg evs))
    as [Hs Hinit]; [|split; [done|]; unfold started in Hs; by rewrite Hinit in Hs].
  induction evs as [|ev evs [IHs IHi]] using rev_ind.
  - cbn. rewrite orb_false_r. unfold new.
    destruct (supportedLanguagesChanged_started cfg (mkState (Languages.init ∅) false None O []))
      as [Hs Hi]; [done..|]. by split.
  - rewrite run_snoc, applied_snoc, existsb_app.
    destruct (step_started (run (new cfg) evs) ev IHs) as [Hs Hi].
    split; [done|]. rewrite Hi, IHi. f_equal.
    destruct ev as [cfg' [|]|k|k i|k o|k]; cbn; by rewrite ?orb_false_r.
Qed.

(** X15. The only file a service ever reads for a grammar is the
    TypeScript one, [tree-sitter-typescript.wasm] in the module location:
    whatever identifiers are asked for, through [getOrInitLanguage] or
    through [getLanguage] (and so [getTree] and [getTextModelTreeSitter]),
    and however the setting changes, no other identifier gets as far as a
    file read. *)
Theorem service_reads_only_the_typescript_grammar (cfg : Configuration)
    (evs : list Event) :
  Forall (fun read =>
            read = ("typescript",
                    Languages.getModuleLocation nodeModules +:+
                    "/tree-sitter-typescript.wasm"))
    (Languages.readFiles (_treeSitterLanguages (run (new cfg) evs))).
Proof.
  induction evs as [|ev evs IH] using rev_ind.
  - unfold new. cbn [Service.run foldl]. by rewrite supportedLanguagesChanged_reads.
  - rewrite run_snoc. destruct (registry_shape_run cfg evs) as [setting Hreg].
    destruct ev as [cfg' [|]|k|k [b|e]|k o|k]; try done.
    + cbn [Service.step]. by rewrite supportedLanguagesChanged_reads.
    + rewrite step_getOrInitLanguage. cbn [with_languages _treeSitterLanguages].
      destruct (getOrInitLanguage_reads (_treeSitterLanguages (run (new cfg) evs)) k)
        as [-> | (g & Hg & ->)]; [done|].
      apply Forall_app. split; [done|]. apply Forall_singleton.
      rewrite Hreg in Hg. unfold registryFor in Hg.
      destruct (bool_decide _); [|by rewrite lookup_empty in Hg].
      apply lookup_singleton_Some in Hg as [<- <-]. done.
    + cbn [Service.step Service.getLanguage with_languages _treeSitterLanguages].
      destruct (getLanguage_reads (_treeSitterLanguages (run (new cfg) evs)) k)
        as [-> | (g & Hg & ->)]; [done|].
      apply Forall_app. split; [done|]. apply Forall_singleton.
      rewrite Hreg in Hg. unfold registryFor in Hg.
      destruct (bool_decide _); [|by rewrite lookup_empty in Hg].
      apply lookup_singleton_Some in Hg as [<- <-]. done.
    + cbn. by rewrite react_reads.
Qed.

End ServiceFacts.

(** ** The importer *)

Section ImporterFacts.
Import Importer.

Lemma loaded_step s ev :
  is_Some (_treeSitterImport s) ->
  imports (step s ev) = imports s /\ is_Some (_treeSitterImport (step s ev)).
Proof.
  intros [m Hm]. destruct ev as [|i o|c]; cbn.
  - unfold getParserClass, _getTreeSitterImport. rewrite Hm.
    destruct (_parserClass s); cbn; by rewrite ?Hm.
  - unfold importSettles. destruct (existsb _ _); cbn; [|by rewrite Hm].
    split; [done|]. destruct o; by rewrite ?Hm.
  - unfold resume. destruct (filter _ _) as [|a l]; [by rewrite Hm|].
    destruct a as [c' i|c' [m'|e]]; cbn; by rewrite Hm.
Qed.

(** X16. Once [_treeSitterImport] is set, [importAMDNodeModule] is never
    called again: whatever calls, settlements and resumptions follow, the
    number of imports started stays what it was and the field stays
    set. *)
Theorem importer_imports_nothing_once_loaded (evs0 evs : list Event)
    (Hloaded : is_Some (_treeSitterImport (run init evs0))) :
  imports (run (run init evs0) evs) = imports (run init evs0) /\
  is_Some (_treeSitterImport (run (run init evs0) evs)).
Proof.
  revert Hloaded. generalize (run init evs0). clear evs0.
  induction evs as [|ev evs IH]; intros s Hs; [done|].
  cbn. destruct (loaded_step s ev Hs) as [Hi Hs']. rewrite <- Hi. by apply IH.
Qed.

Lemma importer_imports_nothing_once_loaded_witness :
  imports (run (run init [GetParserClass; ImportSettles 0 (Normal exampleModule)])
             [GetParserClass; Resume 0; GetParserClass; Resume 1]) =
  imports (run init [GetParserClass; ImportSettles 0 (Normal exampleModule)]).
Proof.
  refine (proj1 (importer_imports_nothing_once_loaded
    [GetParserClass; ImportSettles 0 (Normal exampleModule)]
    [GetParserClass; Resume 0; GetParserClass; Resume 1] _)).
  eexists. vm_compute. reflexivity.
Defined.

Lemma unloaded_step s ev :
  delivers ev = false -> unloaded s ->
  unloaded (step s ev) /\
  imports (step s ev) = (imports s + if isGetParserClass ev then 1 else 0)%nat.
Proof.
  intros Hev (Hm & Hc & Hact). destruct ev as [|i o|c]; cbn.
  - unfold getParserClass, _getTreeSitterImport. rewrite Hc, Hm. cbn.
    split; [|lia]. split_and!; [done..|]. apply Forall_app. split; [done|].
    by apply Forall_singleton.
  - unfold importSettles. destruct o as [m|e]; [done|].
    destruct (existsb _ _); cbn; (split; [|lia]); [|done].
    split_and!; [done..|]. apply Forall_fmap. eapply Forall_impl; [exact Hact|].
    intros [c i'|c [m|e']]; cbn; try done. by destruct (Nat.eqb i' i).
  - unfold resume. destruct (filter _ _) as [|a l] eqn:Hf; cbn; [split; [done|lia]|].
    assert (a ∈ activations s) as Ha.
    { eapply list_elem_of_filter. rewrite Hf. by left. }
    pose proof (proj1 (Forall_forall _ _) Hact _ Ha) as Hgood.
    assert (Forall (fun a => match a with
                             | AwaitGetTreeSitterImport _ (Normal _) => False
                             | _ => True
                             end)
              (filter (fun a => resumable c a = false) (activations s))) as Hrest.
    { apply Forall_forall. intros a' [_ Ha']%list_elem_of_filter.
      by apply (proj1 (Forall_forall _ _) Hact). }
    destruct a as [c' i|c' [m|e]]; [|done|]; cbn; (split; [|lia]); by split_and!.
Qed.

(** X17. Imports are not shared between calls: as long as no import has
    delivered the module, every call of [getParserClass] starts an import
    of its own, also while earlier ones are under way and also after they
    have failed. *)
Theorem getParserClass_imports_until_delivered (evs : list Event)
    (Hnone : existsb delivers evs = false) :
  imports (run init evs) = length (filter (fun ev => isGetParserClass ev = true) evs) /\
  _treeSitterImport (run init evs) = None /\ _parserClass (run init evs) = None.
Proof.
  assert (unloaded (run init evs) /\
          imports (run init evs) =
          length (filter (fun ev => isGetParserClass ev = true) evs))
    as [(Hm & Hc & _) Hi]; [|done].
  induction evs as [|ev evs IH] using rev_ind.
  - split; [|done]. by split_and!.
  - rewrite existsb_app in Hnone. apply orb_false_iff in Hnone as [Hevs Hev].
    cbn in Hev. rewrite orb_false_r in Hev.
    destruct (IH Hevs) as [Hun Hi].
    unfold run. rewrite foldl_app. cbn [foldl].
    destruct (unloaded_step _ ev Hev Hun) as [Hun' Hi'].
    split; [done|]. fold (run init evs). rewrite Hi', Hi, filter_app, length_app.
    rewrite filter_cons, filter_nil. by destruct (isGetParserClass ev).
Qed.

Lemma getParserClass_imports_until_delivered_witness :
  imports (run init [GetParserClass; GetParserClass;
                     ImportSettles 0 (Throw fetchFailure); Resume 0; GetParserClass]) =
  3%nat.
Proof.
  refine (proj1 (getParserClass_imports_until_delivered
    [GetParserClass; GetParserClass;
     ImportSettles 0 (Throw fetchFailure); Resume 0; GetParserClass] _)).
  by vm_compute.
Defined.

End ImporterFacts.

(** ** The editor facade: update counter, transactions and widget ids *)

Section EditorFacts.
Import ObservableCodeEditor.
Variable throws : nat -> bool.

Local Abbreviation step := (ObservableCodeEditor.step throws).
Local Abbreviation run := (ObservableCodeEditor.run throws).

Lemma beginUpdate_transactional s :
  transactional s ->
  transactional (_beginUpdate s) /\
  _updateCounter (_beginUpdate s) = _updateCounter s + 1 /\
  _widgetCounter (_beginUpdate s) = _widgetCounter s /\
  overlayWidgets (_beginUpdate s) = overlayWidgets s /\
  contentWidgets (_beginUpdate s) = contentWidgets s /\
  calls (_beginUpdate s) = calls s.
Proof.
  intros [Hiff Hseq]. unfold _beginUpdate.
  destruct (_updateCounter s + 1 =? 1) eqn:Hone; cbn; (split; [|done]).
  - apply Z.eqb_eq in Hone. split; cbn; [split; [lia|by eexists]|].
    destruct (_currentTransaction s) as [t|] eqn:Ht.
    { assert (1 <= _updateCounter s) by (apply Hiff; by eexists). lia. }
    cbn in Hseq. rewrite app_nil_r in Hseq. rewrite Hseq.
    change (0%nat :: seq 1 (created s)) with (seq 0 (S (created s))). by rewrite seq_S.
  - apply Z.eqb_neq in Hone. split; cbn; [|done].
    split; [intros Hsome; apply Hiff in Hsome; lia|].
    intros Hle. apply Hiff. lia.
Qed.

Lemma endUpdate_transactional s :
  transactional s ->
  transactional (fst (_endUpdate s)) /\
  _updateCounter (fst (_endUpdate s)) = _updateCounter s - 1 /\
  _widgetCounter (fst (_endUpdate s)) = _widgetCounter s /\
  overlayWidgets (fst (_endUpdate s)) = overlayWidgets s /\
  contentWidgets (fst (_endUpdate s)) = contentWidgets s /\
  calls (fst (_endUpdate s)) = calls s /\
  snd (_endUpdate s) = Normal tt.
Proof.
  intros [Hiff Hseq]. unfold _endUpdate.
  destruct (_updateCounter s - 1 =? 0) eqn:Hzero.
  - apply Z.eqb_eq in Hzero.
    destruct (_currentTransaction s) as [t|] eqn:Ht.
    + cbn. split; [|done]. split; cbn; [|by rewrite app_nil_r].
      split; [by intros [? [=]]|lia].
    + assert (is_Some (@None nat)) as [? [=]]. apply Hiff. lia.
  - apply Z.eqb_neq in Hzero. cbn. split; [|done]. split; cbn; [|done].
    split; [intros Hsome; apply Hiff in Hsome; lia|].
    intros Hle. apply Hiff. lia.
Qed.

Lemma call_keeps target : keepsTransaction (call throws target).
Proof.
  intros s [Hiff Hseq]. cbn. split_and!; [done..|].
  eexists. split; [done|]. intros Hle. apply Forall_singleton. cbn. by apply Hiff.
Qed.

Lemma skip_keeps : keepsTransaction skip.
Proof.
  intros s Hs. cbn. split_and!; [done..|]. exists []. by rewrite app_nil_r.
Qed.

Lemma andThen_keeps a b :
  keepsTransaction a -> keepsTransaction b -> keepsTransaction (andThen a b).
Proof.
  intros Ha Hb s Hs. unfold andThen.
  destruct (Ha s Hs) as (Hs1 & Hc1 & Hw1 & Ho1 & Hp1 & new1 & Hn1 & Hf1).
  destruct (a s) as [s1 [[]|e]]; cbn in *.
  - destruct (Hb s1 Hs1) as (Hs2 & Hc2 & Hw2 & Ho2 & Hp2 & new2 & Hn2 & Hf2).
    split_and!; [done|congruence..|].
    exists (new1 ++ new2). rewrite Hn2, Hn1, app_assoc. split; [done|].
    intros Hle. apply Forall_app. split; [by apply Hf1|]. apply Hf2. lia.
  - split_and!; [done..|]. by exists new1.
Qed.

Lemma update_opens body : keepsTransaction body -> opensUpdate (update body).
Proof.
  intros Hbody s Hs. unfold update, tryFinally.
  destruct (beginUpdate_transactional s Hs) as (Hs0 & Hc0 & Hw0 & Ho0 & Hp0 & Hn0).
  destruct (Hbody _ Hs0) as (Hs1 & Hc1 & Hw1 & Ho1 & Hp1 & new & Hn1 & Hf1).
  destruct (body (_beginUpdate s)) as [s1 result]. cbn in *.
  destruct (endUpdate_transactional s1 Hs1) as (Hs2 & Hc2 & Hw2 & Ho2 & Hp2 & Hn2 & Hr2).
  destruct (_endUpdate s1) as [s2 [[]|e]]; cbn in *; [|done].
  split_and!; [done|lia|congruence..|].
  exists new. split; [congruence|]. intros Hle. apply Hf1. lia.
Qed.

Lemma opens_keeps m : opensUpdate m -> keepsTransaction m.
Proof.
  intros Hm s Hs. destruct (Hm s Hs) as (Hs1 & Hc1 & Hw1 & Ho1 & Hp1 & new & Hn1 & Hf1).
  split_and!; [done..|]. exists new. split; [done|]. intros Hle. apply Hf1. lia.
Qed.

Lemma forceUpdate_opens : opensUpdate (_forceUpdate throws).
Proof. apply update_opens. repeat apply andThen_keeps; apply call_keeps. Qed.

Lemma handler_opens ev :
  match ev with
  | OnBeginUpdate | OnEndUpdate | CreateOverlayWidget | ObservePosition
  | ObserveLineOffsetRange => True
  | _ => opensUpdate (handler throws ev)
  end.
Proof.
  pose proof (opens_keeps _ forceUpdate_opens) as Hforce.
  destruct ev as [| | | | | | |cb| | |]; try done; apply update_opens;
    apply andThen_keeps; try done; try apply call_keeps.
  destruct cb; [apply call_keeps|apply skip_keeps].
Qed.

Lemma transactional_step s ev :
  transactional s ->
  transactional (step s ev) /\
  _updateCounter (step s ev) = match ev with
                               | OnBeginUpdate => _updateCounter s + 1
                               | OnEndUpdate => _updateCounter s - 1
                               | _ => _updateCounter s
                               end.
Proof.
  intros Hs. pose proof (handler_opens ev) as Hev.
  destruct ev as [| | | | | | |cb| | |];
    try (destruct (Hev s Hs) as (Hs1 & Hc1 & _); by split).
  - by destruct (beginUpdate_transactional s Hs) as (? & ? & _).
  - by destruct (endUpdate_transactional s Hs) as (? & ? & _).
  - by destruct Hs.
  - by destruct Hs.
  - by destruct Hs.
Qed.

Lemma transactional_init : transactional init.
Proof. split; [|done]. cbn. split; [by intros [? [=]]|lia]. Qed.

Lemma run_snoc_editor s evs ev : run s (evs ++ [ev]) = step (run s evs) ev.
Proof. unfold ObservableCodeEditor.run. by rewrite foldl_app. Qed.

(** X18. A transaction is open exactly while the update counter is
    positive, so the non-null assertion in [_endUpdate] never fails; the
    transactions are finished one by one in the order they were created,
    the open one being the newest, and none is finished twice. This holds
    whatever the observables throw. *)
Theorem transaction_open_exactly_while_updating (evs : list Event) :
  (is_Some (_currentTransaction (run init evs)) <-> 1 <= _updateCounter (run init evs)) /\
  finished (run init evs) ++ option_list (_currentTransaction (run init evs)) =
    seq 0 (created (run init evs)) /\
  snd (_endUpdate (run init evs)) = Normal tt.
Proof.
  assert (transactional (run init evs)) as Hs.
  { induction evs as [|ev evs IH] using rev_ind; [apply transactional_init|].
    rewrite run_snoc_editor. by apply transactional_step. }
  destruct (endUpdate_transactional _ Hs) as (_ & _ & _ & _ & _ & _ & Hend).
  by destruct Hs.
Qed.

(** X19. Every handler leaves the update counter as it found it, also
    when a call into the observables throws ([finally] ends the update):
    the counter always is the number of updates the editor has begun
    minus the number it has ended. *)
Theorem update_counter_counts_open_updates (evs : list Event) :
  _updateCounter (run init evs) = openUpdates evs.
Proof.
  assert (transactional (run init evs) /\ _updateCounter (run init evs) = openUpdates evs)
    as [_ Hc]; [|done].
  induction evs as [|ev evs [IHs IHc]] using rev_ind; [split; [apply transactional_init|done]|].
  rewrite run_snoc_editor. destruct (transactional_step _ ev IHs) as [Hs Hc].
  split; [done|]. rewrite Hc, IHc. unfold openUpdates. rewrite foldl_app. cbn.
  by destruct ev.
Qed.

Lemma calls_step s ev :
  transactional s -> 0 <= _updateCounter s ->
  Forall (fun c => is_Some (tx c)) (calls s) ->
  Forall (fun c => is_Some (tx c)) (calls (step s ev)).
Proof.
  intros Hs Hle Hcalls. pose proof (handler_opens ev) as Hev.
  destruct ev as [| | | | | | |cb| | |];
    try (destruct (Hev s Hs) as (_ & _ & _ & _ & _ & new & Hn & Hf);
         unfold ObservableCodeEditor.step; rewrite Hn; apply Forall_app; split;
         [done|by apply Hf]); try done.
  - unfold ObservableCodeEditor.step. cbn [handler fst].
    by destruct (beginUpdate_transactional s Hs) as (_ & _ & _ & _ & _ & ->).
  - unfold ObservableCodeEditor.step. cbn [handler].
    by destruct (endUpdate_transactional s Hs) as (_ & _ & _ & _ & _ & -> & _).
Qed.

(** X20. For a facade that has handled an [onBeginUpdate] for every
    [onEndUpdate] it handles (one that was not created while an update of
    its editor was open): every [set], every [trigger] and the callback of
    [forceUpdate] is handed a transaction, never [undefined]. The condition
    is on the events the facade itself has handled since its creation. *)
Theorem calls_carry_the_open_transaction (evs : list Event)
    (Hnested : nested 0 evs = true) :
  Forall (fun c => is_Some (tx c)) (calls (run init evs)).
Proof.
  assert (forall s n, transactional s -> _updateCounter s = n -> 0 <= n ->
            nested n evs = true -> Forall (fun c => is_Some (tx c)) (calls s) ->
            Forall (fun c => is_Some (tx c)) (calls (run s evs))) as Hgen.
  { clear Hnested. induction evs as [|ev evs IH]; intros s n Hs Hn Hle Hnest Hcalls; [done|].
    cbn [ObservableCodeEditor.run foldl].
    destruct (transactional_step s ev Hs) as [Hs' Hc'].
    pose proof (calls_step s ev Hs ltac:(lia) Hcalls) as Hcalls'.
    destruct ev; cbn [nested] in Hnest;
      try (apply (IH _ n); [done|lia|done..]).
    - apply (IH _ (n + 1)); [done|lia|lia|done..].
    - apply andb_true_iff in Hnest as [Hone%Z.leb_le Hnest].
      apply (IH _ (n - 1)); [done|lia|lia|done..]. }
  by apply (Hgen init 0); [apply transactional_init|..].
Qed.

(** X28. A facade that has handled more ends of updates than beginnings
    (it was created while an update of its editor was open, and that
    update has ended) hands [undefined] to its observables: the next
    change of the model sets [_model] without a transaction. *)
Theorem facade_created_mid_update_passes_undefined (evs : list Event)
    (Hnegative : _updateCounter (run init evs) < 0) :
  exists rest,
    calls (step (run init evs) OnDidChangeModel) =
    calls (run init evs) ++ mkCall Model None :: rest.
Proof.
  assert (transactional (run init evs)) as Hs.
  { clear Hnegative. induction evs as [|ev evs IH] using rev_ind;
      [apply transactional_init|].
    rewrite run_snoc_editor. by apply transactional_step. }
  revert Hs Hnegative. generalize (run init evs). intros s Hs Hnegative.
  destruct (beginUpdate_transactional s Hs) as (Hs0 & Hc0 & _ & _ & _ & Hn0).
  assert (_currentTransaction (_beginUpdate s) = None) as Hnone.
  { destruct Hs0 as [Hiff _]. destruct (_currentTransaction (_beginUpdate s)); [|done].
    assert (1 <= _updateCounter (_beginUpdate s)) by (apply Hiff; by eexists). lia. }
  unfold ObservableCodeEditor.step. cbn [handler]. unfold update, tryFinally, andThen.
  destruct (call_keeps Model _ Hs0) as (Hs1 & _ & _ & _ & _ & _).
  assert (calls (fst (call throws Model (_beginUpdate s))) =
          calls s ++ [mkCall Model None]) as Hn1 by (cbn; by rewrite Hn0, Hnone).
  destruct (call throws Model (_beginUpdate s)) as [s1 [[]|e]]; cbn [fst] in *.
  - destruct (forceUpdate_opens s1 Hs1) as (Hs2 & _ & _ & _ & _ & new & Hn2 & _).
    destruct (_forceUpdate throws s1) as [s2 result]. cbn [fst] in *.
    destruct (endUpdate_transactional s2 Hs2) as (_ & _ & _ & _ & _ & Hn3 & _).
    exists new. destruct (_endUpdate s2) as [s3 [[]|e]]; cbn [fst] in *;
      by rewrite Hn3, Hn2, Hn1, <- app_assoc.
  - destruct (endUpdate_transactional s1 Hs1) as (_ & _ & _ & _ & _ & Hn3 & _).
    exists []. destruct (_endUpdate s1) as [s3 [[]|e']]; cbn [fst] in *;
      by rewrite Hn3, Hn1.
Qed.

End EditorFacts.

Lemma facade_created_mid_update_passes_undefined_witness :
  exists rest,
    ObservableCodeEditor.calls
      (ObservableCodeEditor.step secondCallThrows
         (ObservableCodeEditor.run secondCallThrows ObservableCodeEditor.init
            [ObservableCodeEditor.OnEndUpdate])
         ObservableCodeEditor.OnDidChangeModel) =
    ObservableCodeEditor.calls
      (ObservableCodeEditor.run secondCallThrows ObservableCodeEditor.init
         [ObservableCodeEditor.OnEndUpdate]) ++
    ObservableCodeEditor.mkCall ObservableCodeEditor.Model None :: rest.
Proof.
  apply (facade_created_mid_update_passes_undefined secondCallThrows
    [ObservableCodeEditor.OnEndUpdate]).
  reflexivity.
Defined.

Lemma calls_carry_the_open_transaction_witness :
  Forall (fun c => is_Some (ObservableCodeEditor.tx c))
    (ObservableCodeEditor.calls
       (ObservableCodeEditor.run secondCallThrows ObservableCodeEditor.init
          [ObservableCodeEditor.OnBeginUpdate; ObservableCodeEditor.OnDidTypeEvent;
           ObservableCodeEditor.OnEndUpdate; ObservableCodeEditor.ForceUpdate true])).
Proof.
  apply (calls_carry_the_open_transaction secondCallThrows
    [ObservableCodeEditor.OnBeginUpdate; ObservableCodeEditor.OnDidTypeEvent;
     ObservableCodeEditor.OnEndUpdate; ObservableCodeEditor.ForceUpdate true]).
  reflexivity.
Defined.

Section EditorWidgetFacts.
Import ObservableCodeEditor.
Variable throws : nat -> bool.

Local Abbreviation step := (ObservableCodeEditor.step throws).
Local Abbreviation run := (ObservableCodeEditor.run throws).

Lemma widgetId_inj prefix k1 k2 : widgetId prefix k1 = widgetId prefix k2 -> k1 = k2.
Proof.
  unfold widgetId. induction prefix as [|a prefix IH]; cbn.
  - apply (inj pretty).
  - intros [= Heq]. by apply IH.
Qed.

Lemma widgetId_kinds k1 k2 :
  widgetId "observableOverlayWidget" k1 <> widgetId "observablePositionWidget" k2.
Proof. unfold widgetId. cbn. by intros [=]. Qed.

Lemma numbered_frame s s' :
  _widgetCounter s' = _widgetCounter s -> overlayWidgets s' = overlayWidgets s ->
  contentWidgets s' = contentWidgets s -> numbered s -> numbered s'.
Proof.
  intros Hw Ho Hp (ks & js & ? & ? & ? & ?). exists ks, js.
  rewrite Hw, Ho, Hp. by split_and!.
Qed.

Lemma numbered_createOverlayWidget s : numbered s -> numbered (createOverlayWidget s).
Proof.
  intros (ks & js & Ho & Hp & Hnd & Hlt).
  exists (ks ++ [_widgetCounter s]), js. cbn. split_and!.
  - by rewrite Ho, fmap_app.
  - done.
  - rewrite <- app_assoc. cbn. apply NoDup_app in Hnd as (Hks & Hdisj & Hjs).
    apply NoDup_app. split_and!; [done| |].
    + intros k Hk [->|Hin]%elem_of_cons; [|by eapply Hdisj].
      rewrite Forall_forall in Hlt.
      assert (_widgetCounter s < _widgetCounter s)%nat; [|lia].
      apply Hlt, elem_of_app. by left.
    + apply NoDup_cons. split; [|done]. intros Hin.
      rewrite Forall_forall in Hlt.
      assert (_widgetCounter s < _widgetCounter s)%nat; [|lia].
      apply Hlt, elem_of_app. by right.
  - apply Forall_app in Hlt as [Hks Hjs]. rewrite <- app_assoc.
    apply Forall_app. split; [|apply Forall_cons; split].
    + eapply Forall_impl; [exact Hks|]. intros k Hk. cbn beta in *. lia.
    + lia.
    + eapply Forall_impl; [exact Hjs|]. intros k Hk. cbn beta in *. lia.
Qed.

Lemma numbered_observePosition s : numbered s -> numbered (observePosition s).
Proof.
  intros (ks & js & Ho & Hp & Hnd & Hlt).
  exists ks, (js ++ [_widgetCounter s]). cbn. split_and!.
  - done.
  - by rewrite Hp, fmap_app.
  - rewrite app_assoc. apply NoDup_app. split_and!; [done| |apply NoDup_singleton].
    intros k Hk ->%list_elem_of_singleton.
    rewrite Forall_forall in Hlt. specialize (Hlt _ Hk). lia.
  - rewrite app_assoc. apply Forall_app. split.
    + eapply Forall_impl; [exact Hlt|]. intros k Hk. cbn beta in *. lia.
    + apply Forall_singleton. lia.
Qed.

Lemma numbered_step s ev : transactional s -> numbered s -> numbered (step s ev).
Proof.
  intros Hs Hnum. pose proof (handler_opens throws ev) as Hev.
  destruct ev as [| | | | | | |cb| | |];
    try (destruct (Hev s Hs) as (_ & _ & Hw & Ho & Hp & _);
         by apply (numbered_frame s)).
  - destruct (beginUpdate_transactional s Hs) as (_ & _ & Hw & Ho & Hp & _).
    by apply (numbered_frame s).
  - destruct (endUpdate_transactional s Hs) as (_ & _ & Hw & Ho & Hp & _).
    by apply (numbered_frame s).
  - by apply numbered_createOverlayWidget.
  - by apply numbered_observePosition.
  - by apply numbered_observePosition, numbered_observePosition.
Qed.

(** X21. The ids of the widgets that the facade adds to the editor are
    pairwise distinct: overlay widgets and position widgets draw from one
    counter, which is never reused, and their prefixes differ. *)
Theorem widget_ids_are_distinct (evs : list Event) :
  NoDup (widgetIds (run init evs)) /\
  length (widgetIds (run init evs)) = _widgetCounter (run init evs).
Proof.
  assert (transactional (run init evs) /\ numbered (run init evs) /\
          length (widgetIds (run init evs)) = _widgetCounter (run init evs))
    as (_ & (ks & js & Ho & Hp & Hnd & _) & Hlen).
  { induction evs as [|ev evs (IHs & IHn & IHl)] using rev_ind.
    - split_and!; [apply transactional_init| |done].
      exists [], []. split_and!; try done; constructor.
    - rewrite run_snoc_editor. destruct (transactional_step throws _ ev IHs) as [Hs _].
      split_and!; [done|by apply numbered_step|].
      pose proof (handler_opens throws ev) as Hev. revert IHl. unfold widgetIds.
      destruct ev as [| | | | | | |cb| | |];
        try (destruct (Hev _ IHs) as (_ & _ & Hw & Ho & Hp & _);
             unfold ObservableCodeEditor.step; by rewrite Hw, Ho, Hp).
      + destruct (beginUpdate_transactional _ IHs) as (_ & _ & Hw & Ho & Hp & _).
        unfold ObservableCodeEditor.step. cbn [handler fst]. by rewrite Hw, Ho, Hp.
      + destruct (endUpdate_transactional _ IHs) as (_ & _ & Hw & Ho & Hp & _).
        unfold ObservableCodeEditor.step. cbn [handler]. by rewrite Hw, Ho, Hp.
      + cbn. rewrite !length_app. cbn. lia.
      + cbn. rewrite !length_app. cbn. lia.
      + cbn. rewrite !length_app. cbn. lia. }
  split; [|done]. unfold widgetIds. rewrite Ho, Hp.
  apply NoDup_app in Hnd as (Hks & _ & Hjs). apply NoDup_app. split_and!.
  - apply NoDup_fmap_2_strong; [|done]. intros k1 k2 _ _. apply widgetId_inj.
  - intros x (k1 & -> & _)%list_elem_of_fmap (k2 & Heq & _)%list_elem_of_fmap.
    by apply widgetId_kinds in Heq.
  - apply NoDup_fmap_2_strong; [|done]. intros k1 k2 _ _. apply widgetId_inj.
Qed.

End EditorWidgetFacts.

(** ** The coordinator: what is fired for a content change *)

Section CoordinatorFacts.
Import Session TextModelTreeSitter.
Variable treeEdit : Tree -> InputEdit.t -> Tree.

Local Abbreviation step := (Session.step treeEdit).
Local Abbreviation run := (Session.run treeEdit).

Lemma settled_run s evs c st :
  wf s -> promises s !! c = Some st -> st <> Pending ->
  promises (run s evs) !! c = Some st.
Proof.
  revert s. induction evs as [|ev evs IH]; intros s Hwf Hc Hst; [done|].
  cbn. apply IH; [by apply wf_step|by apply settled_step|done].
Qed.

Lemma tracked_fires m c r s fired :
  wf s -> tracked c r s ->
  (exists p, promises s !! c = Some p /\ _onDidChangeContent m p = Some fired) ->
  _onDidChangeContent m (Fulfilled r) = Some fired.
Proof.
  intros [_ Hpend] [Hin | [_ [Hp | Hp]]] (p & Hc & Hfired).
  - pose proof (Hpend _ Hin) as Hpd. cbn in Hpd. rewrite Hpd in Hc. by injection Hc as <-.
  - rewrite Hp in Hc. by injection Hc as <-.
  - rewrite Hp in Hc. by injection Hc as <-.
Qed.


End CoordinatorFacts.


Section SessionProvenanceFacts.
Import Session.
Variable treeEdit : Tree -> InputEdit.t -> Tree.

Local Abbreviation step := (Session.step treeEdit).
Local Abbreviation run := (Session.run treeEdit).

Lemma parsePass_known known turn tree t :
  (forall t, tree = Some t -> t ∈ known) ->
  parsePass turn tree = Some t -> t ∈ known ++ parserTrees [Resume turn].
Proof.
  intros Hknown. unfold parsePass, parserTrees. destruct turn as [[[t'|]|] fault]; cbn.
  - intros [= ->]. apply elem_of_app. right. by left.
  - done.
  - intros Htree. apply elem_of_app. left. by apply Hknown.
Qed.

Lemma fromParser_step known s ev :
  fromParser known s -> fromParser (known ++ parserTrees [ev]) (step s ev).
Proof.
  intros [Hsets Hcarried]. destruct ev as [model changes| | |turn].
  - cbn [Session.step]. unfold Session.onDidChangeContent.
    pose proof (changedRanges_state treeEdit s model changes) as Hst.
    destruct (Session.changedRanges treeEdit s model changes) as [s1 [r|e]];
      cbn in Hst; subst s1.
    all: destruct (applyEdits_frame treeEdit s model changes)
           as (_ & _ & _ & Hr & _ & Hts & _).
    all: unfold fromParser, carried; cbn; rewrite Hr, Hts, app_nil_r; by split.
  - unfold fromParser, carried in *. destruct s; cbn in *. rewrite app_nil_r. by split.
  - unfold fromParser, carried in *. destruct s; cbn in *. rewrite app_nil_r. by split.
  - cbn [Session.step]. unfold resume, fromParser, carried in *.
    destruct s as [tr d ne md q rn ps ts el tm]; cbn in *.
    destruct rn as [[j a]|].
    + unfold resumeJob. cbn. destruct a as [tree passes parseType|[tree|e]|[[]|e]]; cbn.
      * destruct (md || d); cbn.
        { split; [|done]. intros t Ht. apply elem_of_app. left. by apply Hsets. }
        destruct (negb (truthy tree) && negb ne); cbn.
        { split; [intros t Ht; apply elem_of_app; left; by apply Hsets|].
          intros t Ht. by eapply parsePass_known. }
        destruct (telemetryFault turn); cbn;
          (split; [intros t Ht; apply elem_of_app; left; by apply Hsets|]); [done|].
        intros t Ht. apply elem_of_app. left. by apply Hcarried.
      * destruct ne; cbn; (split; [|done]); intros t Ht; apply elem_of_app; left.
        -- by apply Hsets.
        -- apply elem_of_app in Ht as [Ht | Ht%list_elem_of_singleton];
             [by apply Hsets|]. by apply Hcarried.
      * split; [|done]. intros t Ht. apply elem_of_app. left. by apply Hsets.
      * split; [|done]. intros t Ht. apply elem_of_app. left. by apply Hsets.
      * split; [|done]. intros t Ht. apply elem_of_app. left. by apply Hsets.
    + destruct q as [|j q]; cbn.
      { split; [|done]. intros t Ht. apply elem_of_app. left. by apply Hsets. }
      unfold startJob. cbn. destruct d; cbn.
      { split; [|done]. intros t Ht. apply elem_of_app. left. by apply Hsets. }
      split; [intros t Ht; apply elem_of_app; left; by apply Hsets|].
      intros t Ht. by eapply parsePass_known.
Qed.

(** X24. The session installs only what the parser returned: every tree
    handed to the setter [tree] is a tree that [parser.parse] returned in
    an earlier pass of that session, never an edited copy and never a tree
    of its own making. *)
Theorem installed_trees_come_from_the_parser (evs : list Event) (t : Tree)
    (Hset : Some t ∈ treeSets (run init evs)) :
  t ∈ parserTrees evs.
Proof.
  assert (fromParser (parserTrees evs) (run init evs)) as [Hsets _]; [|by apply Hsets].
  clear Hset. induction evs as [|ev evs IH] using rev_ind.
  - split; [by intros t' ?%elem_of_nil|done].
  - unfold Session.run. rewrite foldl_app. unfold parserTrees. rewrite bind_app.
    by apply fromParser_step.
Qed.

End SessionProvenanceFacts.

Lemma installed_trees_come_from_the_parser_witness :
  exampleOld ∈ parserTrees
    [ Session.OnDidChangeContent exampleModel [];
      Session.Resume (quietTurn (Some exampleOld));
      Session.Resume (quietTurn None);
      Session.Resume (quietTurn None) ].
Proof.
  apply (installed_trees_come_from_the_parser markingEdit
    [ Session.OnDidChangeContent exampleModel [];
      Session.Resume (quietTurn (Some exampleOld));
      Session.Resume (quietTurn None);
      Session.Resume (quietTurn None) ] exampleOld).
  vm_compute. constructor 1.
Defined.

(** ** Editor coordinates and tree coordinates *)

(** X23. The two conversions between the 1-based coordinates of the
    editor and the 0-based ones of the tree are inverse to each other: a
    node that spans exactly what an edit inserted (from the start position
    to the new end position handed to [Tree.edit]) is reported with the
    editor range from the start of the change to the position of its new
    end offset. *)
Theorem edit_positions_round_trip (model : ITextModel) (change : IModelContentChange)
    (new old : SyntaxNode)
    (Hstart : startPosition new = InputEdit.startPosition (Session.inputEdit model change))
    (Hend : endPosition new = InputEdit.newEndPosition (Session.inputEdit model change)) :
  newRange (rangeChangeOf (new, old)) =
  mkRange (startLineNumber (range change)) (startColumn (range change))
    (Position.lineNumber
       (getPositionAt model (rangeOffset change + Z.of_nat (length (text change)))))
    (Position.column
       (getPositionAt model (rangeOffset change + Z.of_nat (length (text change))))).
Proof.
  unfold rangeChangeOf. cbn [fst newRange]. rewrite Hstart, Hend.
  unfold Session.inputEdit. cbn [InputEdit.startPosition InputEdit.newEndPosition row column].
  f_equal; lia.
Qed.

Lemma edit_positions_round_trip_witness :
  newRange (rangeChangeOf (leaf 1 true 0 1, leaf 1 false 0 0)) =
  mkRange 1 1 1 2.
Proof.
  exact (edit_positions_round_trip exampleModel exampleChange
           (leaf 1 true 0 1) (leaf 1 false 0 0) eq_refl eq_refl).
Defined.

(** ** One facade per editor *)

Section FacadeFacts.
Import FacadeMap.

Lemma registered_get s editor : registered s -> registered (fst (get s editor)).
Proof.
  intros (Hnd & Hl & Hm & Hd & Hlt). unfold get.
  destruct (_map s !! editor) as [r|] eqn:He; [done|]. unfold registered. cbn.
  split_and!.
  - rewrite fmap_app. apply NoDup_app. split_and!; [done| |apply NoDup_singleton].
    intros e Hin ->%list_elem_of_singleton.
    apply list_elem_of_fmap in Hin as ([e' r'] & Heq & Hin). cbn in Heq. subst e'.
    apply Hl in Hin. congruence.
  - intros e r. rewrite elem_of_app, list_elem_of_singleton, Hl.
    destruct (decide (e = editor)) as [->|Hne].
    + rewrite lookup_insert_eq, He. split; [intros [[=]|[= ->]]; done|].
      intros [= ->]. by right.
    + rewrite lookup_insert_ne by done. split; [intros [?|[= ? ?]]; done|by left].
  - intros e r. destruct (decide (e = editor)) as [->|Hne].
    + rewrite lookup_insert_eq. intros [= <-]. split_and!; [lia| |].
      * intros Hin. rewrite Forall_forall in Hlt. specialize (Hlt _ Hin). lia.
      * intros e' He'. destruct (decide (e' = editor)) as [->|Hne']; [done|].
        rewrite lookup_insert_ne in He' by done.
        destruct (Hm _ _ He') as [? _]. lia.
    + rewrite lookup_insert_ne by done. intros Hr.
      destruct (Hm _ _ Hr) as (Hc & Hnot & Hinj). split_and!; [lia|done|].
      intros e' He'. destruct (decide (e' = editor)) as [->|Hne'].
      * rewrite lookup_insert_eq in He'. injection He' as <-. lia.
      * rewrite lookup_insert_ne in He' by done. by apply Hinj.
  - done.
  - eapply Forall_impl; [exact Hlt|]. intros r Hr. cbn beta in *. lia.
Qed.

Lemma registered_listener s d : registered s -> d ∈ listeners s -> registered (listener s d).
Proof.
  intros (Hnd & Hl & Hm & Hd & Hlt) Hin. destruct d as [editor facade].
  pose proof (proj1 (Hl _ _) Hin) as He. unfold listener. cbn [fst]. rewrite He. cbn.
  destruct (Hm _ _ He) as (Hc & Hnot & Hinj). unfold registered. cbn.
  split_and!.
  - by apply NoDup_fmap_filter.
  - intros e r. rewrite list_elem_of_filter, Hl.
    destruct (decide (e = editor)) as [->|Hne].
    + rewrite lookup_delete_eq. split; [|done]. intros [Hne Hr].
      rewrite He in Hr. by injection Hr as <-.
    + rewrite lookup_delete_ne by done. split; [by intros [_ ?]|].
      intros Hr. split; [congruence|done].
  - intros e r Hr. apply lookup_delete_Some in Hr as [Hne Hr].
    destruct (Hm _ _ Hr) as (Hc' & Hnot' & Hinj'). split_and!; [done| |].
    + intros [Hin'|Heq%list_elem_of_singleton]%elem_of_app; [done|]. subst r.
      apply Hne. symmetry. by apply Hinj.
    + intros e' [_ He']%lookup_delete_Some. by apply Hinj'.
  - apply NoDup_app. split_and!; [done| |apply NoDup_singleton].
    by intros r Hr ->%list_elem_of_singleton.
  - apply Forall_app. split; [done|]. by apply Forall_singleton.
Qed.

Lemma fires_one s editor (l : list (nat * nat)) :
  registered s -> NoDup (fst <$> l) -> l ⊆ listeners s ->
  let s' := foldl (fun s d => if Nat.eqb (fst d) editor then listener s d else s) s l in
  registered s' /\
  ((s' = s /\ forall facade, (editor, facade) ∉ l) \/
   exists facade, (editor, facade) ∈ l /\ s' = listener s (editor, facade)).
Proof.
  revert s. induction l as [|[e r] l IH]; intros s Hs Hnd Hsub; cbn [foldl fst].
  { split; [done|]. left. split; [done|]. by intros facade ?%elem_of_nil. }
  cbn in Hnd. apply NoDup_cons in Hnd as [Hnot Hnd].
  destruct (Nat.eqb_spec e editor) as [->|Hne].
  - assert (foldl (fun s d => if Nat.eqb (fst d) editor then listener s d else s)
              (listener s (editor, r)) l = listener s (editor, r)) as ->.
    { clear IH Hsub Hnd. generalize (listener s (editor, r)).
      induction l as [|[e' r'] l IH]; intros s0; [done|]. cbn [foldl fst].
      destruct (Nat.eqb_spec e' editor) as [->|Hne].
      - exfalso. apply Hnot. cbn. by left.
      - apply IH. intros Hin. apply Hnot. cbn. by right. }
    split; [apply registered_listener; [done|apply Hsub; by left]|].
    right. exists r. split; [by left|done].
  - destruct (IH s Hs Hnd) as [Hs' Hcase]; [intros x Hx; apply Hsub; by right|].
    split; [done|]. destruct Hcase as [[-> Hnone]|(facade & Hin & ->)].
    + left. split; [done|]. intros facade [[= ? ?]|Hin]%elem_of_cons; [done|].
      by apply (Hnone facade).
    + right. exists facade. split; [by right|done].
Qed.

Lemma registered_step s ev : registered s -> registered (step s ev).
Proof.
  intros Hs. destruct ev as [editor|editor]; cbn.
  - by apply registered_get.
  - by apply fires_one; [|destruct Hs|].
Qed.

Lemma registered_init : registered init.
Proof.
  unfold registered. cbn. split_and!.
  - constructor.
  - intros e r. rewrite lookup_empty. split; [by intros ?%elem_of_nil|done].
  - intros e r. by rewrite lookup_empty.
  - constructor.
  - constructor.
Qed.


(** X26. When the editor fires [onDidDispose], its facade leaves the map
    and is disposed, and its listener is gone with it; the facades of the
    other editors stay. An editor without a facade changes nothing. *)
Theorem onDidDispose_releases_the_facade (evs : list Event) (editor : nat) :
  match _map (run init evs) !! editor with
  | Some facade =>
      step (run init evs) (OnDidDispose editor) =
      mkState (delete editor (_map (run init evs)))
        (filter (fun l => l <> (editor, facade)) (listeners (run init evs)))
        (constructed (run init evs)) (disposed (run init evs) ++ [facade])
  | None => step (run init evs) (OnDidDispose editor) = run init evs
  end.
Proof.
  assert (registered (run init evs)) as Hs.
  { induction evs as [|ev evs IH] using rev_ind; [apply registered_init|].
    unfold run. rewrite foldl_app. by apply registered_step. }
  revert Hs. generalize (run init evs). intros s Hs.
  pose proof Hs as (Hnd & Hl & _).
  destruct (fires_one s editor (listeners s) Hs Hnd ltac:(done)) as [_ Hcase].
  cbn [step]. unfold onDidDispose.
  destruct Hcase as [[Heq Hnone] | (facade & Hin & Heq)]; rewrite Heq.
  - destruct (_map s !! editor) as [facade|] eqn:He; [|done].
    exfalso. apply (Hnone facade). by apply Hl.
  - apply Hl in Hin. rewrite Hin. unfold listener. cbn [fst]. by rewrite Hin.
Qed.

End FacadeFacts.

(** ** The extent of a line range *)

(** X27. The offsets that [observeLineOffsetRange] computes are in
    order, so that they form a range, also when the range starts below the
    last line of the model. This holds for numbers whose order is
    reflexive and whose subtraction does not reverse the order of what it
    is taken from (as rounding to binary64 does not), for an editor whose
    lines are laid out top to bottom (a line does not start below the end
    of itself or of a later line, and later lines do not end higher), and
    for a range that is empty exactly when its two ends agree. *)
Theorem line_offset_range_is_ordered (number : Type)
    (le : number -> number -> Prop) (minus : number -> number -> number)
    (getTopForLineNumber getBottomForLineNumber : Z -> number)
    (range : LineOffsets.LineRange) (lineCount : option Z) (scrollTop : number)
    (Hrefl : forall x, le x x)
    (Hminus : forall x y z, le x y -> le (minus x z) (minus y z))
    (Hline : forall l l', l <= l' ->
               le (getTopForLineNumber l) (getBottomForLineNumber l'))
    (Hdown : forall l l', l <= l' ->
               le (getBottomForLineNumber l) (getBottomForLineNumber l'))
    (Hempty : LineOffsets.isEmpty range =
              (LineOffsets.startLineNumber range =?
               LineOffsets.endLineNumberExclusive range))
    (Hrange : LineOffsets.startLineNumber range <=
              LineOffsets.endLineNumberExclusive range) :
  le (fst (LineOffsets.observeLineOffsetRange number minus getTopForLineNumber
             getBottomForLineNumber range lineCount scrollTop))
     (snd (LineOffsets.observeLineOffsetRange number minus getTopForLineNumber
             getBottomForLineNumber range lineCount scrollTop)).
Proof.
  unfold LineOffsets.observeLineOffsetRange. cbn [fst snd]. rewrite Hempty.
  destruct (Z.eqb_spec (LineOffsets.startLineNumber range)
              (LineOffsets.endLineNumberExclusive range)) as [Heq|Hne]; [apply Hrefl|].
  apply Hminus. destruct lineCount as [lineCount|]; [|apply Hline; lia].
  destruct (Z.gtb_spec (LineOffsets.startLineNumber range) lineCount) as [Hgt|Hle];
    [apply Hdown|apply Hline]; lia.
Qed.

Lemma line_offset_range_is_ordered_witness :
  fst (LineOffsets.observeLineOffsetRange Z Z.sub (fun l => 20 * (l - 1)) (fun l => 20 * l)
         (LineOffsets.mkLineRange 12 14 false) (Some 10) 5) <=
  snd (LineOffsets.observeLineOffsetRange Z Z.sub (fun l => 20 * (l - 1)) (fun l => 20 * l)
         (LineOffsets.mkLineRange 12 14 false) (Some 10) 5).
Proof.
  refine (line_offset_range_is_ordered Z Z.le Z.sub (fun l => 20 * (l - 1))
    (fun l => 20 * l) (LineOffsets.mkLineRange 12 14 false) (Some 10) 5 _ _ _ _ _ _).
  - intros x. lia.
  - intros x y z Hxy. lia.
  - intros l l' Hl. lia.
  - intros l l' Hl. lia.
  - reflexivity.
  - cbn. lia.
Defined.

(** ** The claims about the loads of the catalog *)

Section CatalogClaims.
Import Languages.
Variable nodeModules : string.

Local Abbreviation step := (Languages.step nodeModules).
Local Abbreviation run := (Languages.run nodeModules).

Lemma getModuleLocation_truthy :
  truthyString (Some (getModuleLocation nodeModules)) = true.
Proof. unfold getModuleLocation, truthyString. by destruct nodeModules. Qed.

Lemma fetchLanguage_exact s k :
  readFiles (fst (_fetchLanguage nodeModules s k)) =
    readFiles s ++ grammarRead nodeModules (_registeredLanguages s) k /\
  snd (_fetchLanguage nodeModules s k) =
    startedLoad nodeModules (_registeredLanguages s) k.
Proof.
  unfold _fetchLanguage, _getLanguageLocation, startedLoad, grammarRead.
  cbn [_registeredLanguages].
  destruct (_registeredLanguages s !! k) as [g|]; cbn [truthyString negb orb];
    [|by rewrite app_nil_r].
  destruct (String.eqb g "") eqn:Hg; cbn [negb orb]; [by rewrite app_nil_r|].
  by rewrite getModuleLocation_truthy.
Qed.

Lemma addLanguage_exact s k s1 started :
  _addLanguage nodeModules s k = Normal (s1, started) ->
  match _languages s !! k with
  | Some _ => s1 = s
  | None =>
      readFiles s1 = readFiles s ++ grammarRead nodeModules (_registeredLanguages s) k /\
      _languages s1 !! k =
        Some (PromiseWithSyncAccess.new
                (startedLoad nodeModules (_registeredLanguages s) k))
  end.
Proof.
  rewrite addLanguage_effect. intros [= Heq]. revert Heq.
  destruct (_languages s !! k) as [p|]; [by intros [= <- _]|].
  destruct (fetchLanguage_exact s k) as [Hreads Hload].
  pose proof (fetchLanguage_frame nodeModules s k) as Hfr.
  destruct (_fetchLanguage nodeModules s k) as [s0 fetching]. cbn in Hreads, Hload.
  intros [= <- _]. cbn. split; [done|].
  unfold AsyncCache.set. by rewrite lookup_insert_eq, Hload.
Qed.

Lemma filter_grammarRead registry k languageId :
  filter (fun r : string * string => fst r = languageId) (grammarRead nodeModules registry k) =
  if bool_decide (k = languageId) then grammarRead nodeModules registry languageId else [].
Proof.
  unfold grammarRead. case_bool_decide as Hk; [subst k|].
  - destruct (registry !! languageId) as [g|]; [|done].
    destruct (String.eqb g ""); [done|]. rewrite filter_cons, filter_nil.
    by rewrite decide_True.
  - destruct (registry !! k) as [g|]; [|done].
    destruct (String.eqb g ""); [done|]. rewrite filter_cons, filter_nil.
    by rewrite decide_False.
Qed.

Lemma request_exact languageId s s1 k started :
  _addLanguage nodeModules s k = Normal (s1, started) ->
  readsFor languageId s1 =
    readsFor languageId s ++
    (if bool_decide (k = languageId) && negb (bool_decide (is_Some (_languages s !! languageId)))
     then grammarRead nodeModules (_registeredLanguages s) languageId else []).
Proof.
  intros Hadd. apply addLanguage_exact in Hadd. unfold readsFor.
  destruct (_languages s !! k) as [p|] eqn:Hk.
  - subst s1. case_bool_decide as Heq; [subst k|by rewrite app_nil_r].
    rewrite bool_decide_eq_true_2 by (rewrite Hk; by eexists). cbn.
    by rewrite app_nil_r.
  - destruct Hadd as [-> _]. rewrite filter_app, filter_grammarRead.
    case_bool_decide as Heq; [subst k|done].
    rewrite bool_decide_eq_false_2 by (rewrite Hk; by intros [? [=]]). done.
Qed.

Lemma readsFor_step languageId s ev :
  readsFor languageId (step s ev) =
    readsFor languageId s ++
    (if requests languageId ev && negb (bool_decide (is_Some (_languages s !! languageId)))
     then grammarRead nodeModules (_registeredLanguages s) languageId else []).
Proof.
  destruct ev as [k|k|k o|k|k g|k]; cbn [requests andb].
  - destruct (getOrInitLanguage_state nodeModules s k) as [[Hk ->] | [started Hadd]];
      [|by eapply request_exact].
    case_bool_decide as Heq; [subst k|by rewrite app_nil_r].
    cbn. rewrite bool_decide_eq_true_2 by done. cbn. by rewrite app_nil_r.
  - destruct (getLanguage_state nodeModules s k) as (s1 & Hs1 & _ & _ & _ & _ & Hreads).
    unfold readsFor at 1. rewrite Hreads. fold (readsFor languageId s1).
    destruct Hs1 as [[Hk ->] | [started Hadd]]; [|by eapply request_exact].
    case_bool_decide as Heq; [subst k|by rewrite app_nil_r].
    cbn. rewrite bool_decide_eq_true_2 by done. cbn. by rewrite app_nil_r.
  - by rewrite app_nil_r.
  - rewrite app_nil_r. unfold readsFor. f_equal. cbn. unfold react.
    destruct (_languages s !! k) as [p|]; [|done]. by destruct (promise p), (_result p).
  - rewrite app_nil_r. cbn. unfold _addGrammar. by destruct (negb _).
  - rewrite app_nil_r. cbn. unfold _removeGrammar. by destruct (bool_decide _).
Qed.

Lemma readsFor_run languageId evs : forall s,
  readsFor languageId (run s evs) =
    readsFor languageId s ++
    (if bool_decide (is_Some (_languages s !! languageId)) then []
     else match beforeFirstRequest languageId evs with
          | Some before =>
              grammarRead nodeModules (_registeredLanguages (run s before)) languageId
          | None => []
          end).
Proof.
  induction evs as [|ev evs IH]; intros s.
  - cbn. case_bool_decide; by rewrite app_nil_r.
  - change (run s (ev :: evs)) with (run (step s ev) evs).
    rewrite IH, readsFor_step. cbn [beforeFirstRequest].
    pose proof (present_step nodeModules languageId s ev) as Hpres.
    destruct (bool_decide (is_Some (_languages s !! languageId))) eqn:Hs.
    + apply bool_decide_eq_true in Hs.
      rewrite bool_decide_eq_true_2 by (apply Hpres; by left).
      by rewrite andb_false_r, !app_nil_r.
    + apply bool_decide_eq_false in Hs. destruct (requests languageId ev) eqn:Hreq.
      * rewrite bool_decide_eq_true_2 by (apply Hpres; by right).
        cbn. by rewrite app_nil_r.
      * rewrite bool_decide_eq_false_2 by (rewrite Hpres; by intros [?|?]).
        cbn. rewrite app_nil_r.
        by destruct (beforeFirstRequest languageId evs) as [before|].
Qed.

Lemma request_entry s request languageId :
  requests languageId request = true ->
  _languages s !! languageId = None ->
  _languages (step s request) !! languageId =
  Some (PromiseWithSyncAccess.new
          (startedLoad nodeModules (_registeredLanguages s) languageId)).
Proof.
  intros Hreq Hnone. destruct request as [k|k|k o|k|k g|k]; try done.
  - cbn in Hreq. apply bool_decide_eq_true in Hreq. subst k.
    destruct (getOrInitLanguage_state nodeModules s languageId)
      as [[[p Hp] _] | [started Hadd]]; [congruence|].
    apply addLanguage_exact in Hadd. rewrite Hnone in Hadd. by destruct Hadd.
  - cbn in Hreq. apply bool_decide_eq_true in Hreq. subst k.
    destruct (getLanguage_state nodeModules s languageId) as (s1 & Hs1 & -> & _).
    destruct Hs1 as [[[p Hp] _] | [started Hadd]]; [congruence|].
    apply addLanguage_exact in Hadd. rewrite Hnone in Hadd. by destruct Hadd.
Qed.


Lemma react_entry s languageId p :
  _languages s !! languageId = Some p ->
  exists p', _languages (step s (React languageId)) !! languageId = Some p' /\
             promise p' = promise p /\
             (promise p <> Pending -> is_Some (_result p')).
Proof.
  intros Hp. cbn. unfold react. rewrite Hp.
  destruct (promise p) as [|v|e] eqn:Hpr.
  - exists p. by rewrite Hp, Hpr.
  - destruct (_result p) as [r|] eqn:Hr.
    + exists p. rewrite Hp, Hpr, Hr. split_and!; [done..|]. by eexists.
    + cbn. unfold AsyncCache.react. rewrite lookup_alter_eq, Hp. cbn.
      eexists. split; [done|]. unfold PromiseWithSyncAccess.react. rewrite Hpr. cbn.
      split_and!; [done|]. by eexists.
  - destruct (_result p) as [r|] eqn:Hr.
    + exists p. rewrite Hp, Hpr, Hr. split_and!; [done..|]. by eexists.
    + cbn. unfold AsyncCache.react. rewrite lookup_alter_eq, Hp. cbn.
      eexists. split; [done|]. unfold PromiseWithSyncAccess.react. rewrite Hpr. cbn.
      split_and!; [done|]. by eexists.
Qed.

Lemma settled_entry_step s ev languageId p :
  _languages s !! languageId = Some p -> promise p <> Pending ->
  exists p', _languages (step s ev) !! languageId = Some p' /\ promise p' = promise p /\
             (is_Some (_result p) -> is_Some (_result p')).
Proof.
  intros Hp Hpr. destruct ev as [k|k|k o|k|k g|k].
  - exists p. split; [|done].
    destruct (getOrInitLanguage_state nodeModules s k) as [[_ Heq] | [started Hadd]];
      [by rewrite Heq | by eapply addLanguage_keeps_entry].
  - exists p. split; [|done].
    destruct (getLanguage_state nodeModules s k) as (s1 & Hs1 & -> & _).
    destruct Hs1 as [[_ ->] | [started Hadd]]; [done | by eapply addLanguage_keeps_entry].
  - cbn. unfold AsyncCache.settle. rewrite lookup_alter.
    destruct (decide (k = languageId)) as [->|Hne]; [|by exists p].
    rewrite Hp. cbn. eexists. split; [done|]. unfold PromiseWithSyncAccess.settle.
    by destruct (promise p) eqn:E; cbn; rewrite ?E.
  - destruct (decide (k = languageId)) as [->|Hne].
    + destruct (react_entry s languageId p Hp) as (p' & Hp' & Heq & Hres).
      exists p'. split_and!; [done..|]. intros _. by apply Hres.
    + exists p. split; [|done]. cbn. unfold react.
      destruct (_languages s !! k) as [p0|] eqn:Hk; [|done].
      destruct (promise p0), (_result p0); try done;
        cbn; unfold AsyncCache.react; by rewrite lookup_alter_ne.
  - cbn. unfold _addGrammar. destruct (negb _); by exists p.
  - cbn. unfold _removeGrammar. destruct (bool_decide _); by exists p.
Qed.

Lemma settled_entry_run evs : forall s languageId p,
  _languages s !! languageId = Some p -> promise p <> Pending ->
  exists p', _languages (run s evs) !! languageId = Some p' /\ promise p' = promise p /\
             (is_Some (_result p) -> is_Some (_result p')).
Proof.
  induction evs as [|ev evs IH]; intros s languageId p Hp Hpr; [by eauto|].
  destruct (settled_entry_step s ev languageId p Hp Hpr) as (p1 & Hp1 & Heq1 & Hres1).
  change (run s (ev :: evs)) with (run (step s ev) evs).
  destruct (IH _ _ _ Hp1 ltac:(congruence)) as (p' & Hp' & Heq' & Hres').
  exists p'. split_and!; [done|congruence|by auto].
Qed.

Lemma pending_entry_step s ev languageId p :
  _languages s !! languageId = Some p -> promise p = Pending ->
  settles languageId ev = false ->
  _languages (step s ev) !! languageId = Some p.
Proof.
  intros Hp Hpr Hev. destruct ev as [k|k|k o|k|k g|k].
  - destruct (getOrInitLanguage_state nodeModules s k) as [[_ Heq] | [started Hadd]];
      [by rewrite Heq | by eapply addLanguage_keeps_entry].
  - destruct (getLanguage_state nodeModules s k) as (s1 & Hs1 & -> & _).
    destruct Hs1 as [[_ ->] | [started Hadd]]; [done | by eapply addLanguage_keeps_entry].
  - cbn in Hev. apply bool_decide_eq_false in Hev.
    cbn. unfold AsyncCache.settle. by rewrite lookup_alter_ne.
  - cbn. unfold react. destruct (decide (k = languageId)) as [->|Hne].
    + by rewrite Hp, Hpr.
    + destruct (_languages s !! k) as [p0|] eqn:Hk; [|done].
      destruct (promise p0), (_result p0); try done;
        cbn; unfold AsyncCache.react; by rewrite lookup_alter_ne.
  - cbn. unfold _addGrammar. by destruct (negb _).
  - cbn. unfold _removeGrammar. by destruct (bool_decide _).
Qed.

Lemma pending_entry_run evs : forall s languageId p,
  _languages s !! languageId = Some p -> promise p = Pending ->
  Forall (fun ev => settles languageId ev = false) evs ->
  _languages (run s evs) !! languageId = Some p.
Proof.
  induction evs as [|ev evs IH]; intros s languageId p Hp Hpr Hevs; [done|].
  apply Forall_cons in Hevs as [Hev Hevs].
  change (run s (ev :: evs)) with (run (step s ev) evs).
  apply IH; [by apply pending_entry_step|done..].
Qed.

Lemma firedFor_invariant s languageId :
  catalogInv languageId s ->
  firedFor languageId s =
  match _languages s !! languageId with
  | Some {| promise := Fulfilled (Some language); _result := Some _ |} =>
      [(languageId, language)]
  | _ => []
  end.
Proof.
  intros Hinv. unfold catalogInv in Hinv.
  destruct (_languages s !! languageId) as [[pr [r|]]|]; cbn in Hinv.
  - destruct Hinv as (_ & _ & _ & ->). by destruct pr as [|[l|]|e].
  - destruct Hinv as (_ & -> & _). by destruct pr as [|[l|]|e].
  - by destruct Hinv as (_ & -> & _).
Qed.

Lemma react_fires s languageId :
  catalogInv languageId s ->
  firedFor languageId (step s (React languageId)) =
  match _languages s !! languageId with
  | Some {| promise := Fulfilled (Some language) |} => [(languageId, language)]
  | _ => []
  end.
Proof.
  intros Hinv.
  rewrite firedFor_invariant by (by apply catalogInv_step).
  destruct (_languages s !! languageId) as [p|] eqn:Hp.
  - destruct (react_entry _ _ _ Hp) as (p1 & Hp1 & Heq1 & Hres1). rewrite Hp1.
    destruct p as [pr r], p1 as [pr1 r1]. cbn in *. subst pr1.
    destruct pr as [|[l|]|e]; [done| | |]; try by destruct r1.
    destruct (Hres1 ltac:(done)) as [r' ->]. done.
  - cbn [Languages.step]. unfold react. by rewrite Hp, Hp.
Qed.

(** C6. At every moment the broadcasts that carried an identifier are: the
    single pair of the identifier and its grammar, if its load was
    fulfilled with a grammar and the reactions to that have run; none at
    all if the identifier was never requested, its load is still pending,
    or its load resolved to no grammar or failed. The reactions do fire:
    once they have run on a load fulfilled with a grammar, the broadcasts
    for the identifier are that one pair, and they stay so whatever
    follows; after a load that resolved to no grammar or failed, no
    broadcast for the identifier ever follows. In terms of what happens:
    when an identifier is first requested, its load later delivers a
    grammar and the reactions run, whatever else happens in between, the
    broadcasts for it are the one pair of the identifier and that grammar
    if a grammar was registered for it at the first request, and none if
    not. *)
Theorem onDidAddLanguage_fires_once (registered : gmap string string)
    (evs : list Event) (languageId : string) :
  firedFor languageId (run (init registered) evs) =
  match _languages (run (init registered) evs) !! languageId with
  | Some {| promise := Fulfilled (Some language); _result := Some _ |} =>
      [(languageId, language)]
  | _ => []
  end /\
  firedFor languageId (step (run (init registered) evs) (React languageId)) =
  match _languages (run (init registered) evs) !! languageId with
  | Some {| promise := Fulfilled (Some language) |} => [(languageId, language)]
  | _ => []
  end /\
  (forall after,
    match _languages (run (init registered) evs) !! languageId with
    | Some {| promise := Fulfilled (Some language) |} =>
        firedFor languageId
          (run (step (run (init registered) evs) (React languageId)) after) =
        [(languageId, language)]
    | Some {| promise := Pending |} | None => True
    | Some _ => firedFor languageId (run (run (init registered) evs) after) = []
    end) /\
  forall request waiting language between,
    requests languageId request = true ->
    _languages (run (init registered) evs) !! languageId = None ->
    Forall (fun ev => settles languageId ev = false) waiting ->
    firedFor languageId
      (run (run (init registered) evs)
         (request :: waiting ++
          FetchSettles languageId (Normal language) :: between ++ [React languageId])) =
    match grammarRead nodeModules (_registeredLanguages (run (init registered) evs))
            languageId with
    | [] => []
    | _ => [(languageId, language)]
    end.
Proof.
  pose proof (catalogInv_run nodeModules languageId (init registered) evs
                (catalogInv_init languageId registered)) as Hinv.
  revert Hinv. generalize (run (init registered) evs). intros s Hinv.
  split; [by apply firedFor_invariant|]. split; [by apply react_fires|]. split.
  - intros after. destruct (_languages s !! languageId) as [p|] eqn:Hp; [|done].
    destruct p as [pr r]. destruct pr as [|[l|]|e]; [done| | |].
    + destruct (react_entry _ _ _ Hp) as (p1 & Hp1 & Heq1 & Hres1). cbn in Heq1, Hres1.
      destruct (settled_entry_run after _ _ _ Hp1 ltac:(by rewrite Heq1))
        as (p' & Hp' & Heq' & Hres').
      rewrite firedFor_invariant, Hp'
        by (by apply catalogInv_run, catalogInv_step).
      destruct p' as [pr' r']. cbn in *. rewrite Heq1 in Heq'. subst pr'.
      destruct (Hres' (Hres1 ltac:(done))) as [r'' ->]. done.
    + destruct (settled_entry_run after _ _ _ Hp ltac:(done)) as (p' & Hp' & Heq' & _).
      rewrite firedFor_invariant, Hp' by (by apply catalogInv_run).
      destruct p' as [pr' r']. cbn in *. subst pr'. by destruct r'.
    + destruct (settled_entry_run after _ _ _ Hp ltac:(done)) as (p' & Hp' & Heq' & _).
      rewrite firedFor_invariant, Hp' by (by apply catalogInv_run).
      destruct p' as [pr' r']. cbn in *. subst pr'. by destruct r'.
  - intros request waiting language between Hreq Hnone Hwaiting.
    pose proof (request_entry s request languageId Hreq Hnone) as Hentry.
    change (run s (request :: waiting ++
              FetchSettles languageId (Normal language) :: between ++ [React languageId]))
      with (run (step s request) (waiting ++
              FetchSettles languageId (Normal language) :: between ++ [React languageId])).
    unfold Languages.run. rewrite foldl_app. cbn [foldl]. rewrite foldl_app. cbn [foldl].
    fold (run (step s request) waiting).
    fold (run (step (run (step s request) waiting)
                 (FetchSettles languageId (Normal language))) between).
    assert (catalogInv languageId
              (run (step (run (step s request) waiting)
                      (FetchSettles languageId (Normal language))) between)) as Hinv3.
    { by apply catalogInv_run, catalogInv_step, catalogInv_run, catalogInv_step. }
    rewrite (react_fires _ _ Hinv3).
    unfold startedLoad in Hentry.
    destruct (grammarRead nodeModules (_registeredLanguages s) languageId) as [|read reads].
    + destruct (settled_entry_run
                  (waiting ++ FetchSettles languageId (Normal language) :: between)
                  _ _ _ Hentry ltac:(done)) as (p' & Hp' & Heq' & _).
      unfold Languages.run in Hp'. rewrite foldl_app in Hp'. cbn [foldl] in Hp'.
      fold (run (step s request) waiting) in Hp'.
      fold (run (step (run (step s request) waiting)
                   (FetchSettles languageId (Normal language))) between) in Hp'.
      rewrite Hp'. destruct p' as [pr' r']. cbn in Heq'. by subst pr'.
    + pose proof (pending_entry_run waiting _ _ _ Hentry eq_refl Hwaiting) as Hp2.
      assert (_languages (step (run (step s request) waiting)
                            (FetchSettles languageId (Normal language))) !! languageId =
              Some {| promise := Fulfilled (Some language); _result := None |}) as Hp3.
      { cbn [Languages.step]. unfold fetchSettles. cbn [_languages].
        unfold AsyncCache.settle. by rewrite lookup_alter_eq, Hp2. }
      destruct (settled_entry_run between _ _ _ Hp3 ltac:(done)) as (p' & Hp' & Heq' & _).
      rewrite Hp'. destruct p' as [pr' r']. cbn in Heq'. by subst pr'.
Qed.

End CatalogClaims.
